(** * CODY / lgncg: the HPCG report writer and the Legion sparse-matrix bundle

    A shallow embedding of
    - [legion/lgncg/explicit-spmd/ReportResults.hpp] (function [ReportResults]),
    - [legion/lgncg/v3/LegionMatrices.hpp] ([LogicalSparseMatrix] with its
      [allocate], [partition], [deallocate], [mPopulateDynamicCollectives],
      and [PopulateGlobalToLocalMap]),
    together with the properties the specification states about them.

    Conventions.  C++ [double] is IEEE binary64, embedded as Rocq's primitive
    [float]; C++ integers are [Z], with the wrap-around of a fixed width
    written out where the source narrows or multiplies; a dereference of a
    null pointer, an out-of-range array access and a failed [assert] are the
    result [None]. *)

From Stdlib Require Import ZArith Floats Lia.
From stdpp Require Import gmap strings fin_maps functions.
From stdpp Require Import list.

Local Open Scope Z_scope.

(** ** Numbers *)

Module Num.

(** [(double) z]: conversion of an integer to binary64, rounding to nearest
    even. *)
Definition double_of_Z (z : Z) : float :=
  SF2Prim (binary_normalize prec emax z 0 false).

(** Two's-complement wrap-around of a signed integer of [w] bits. *)
Definition wrap (w : Z) (z : Z) : Z :=
  (z + 2 ^ (w - 1)) mod 2 ^ w - 2 ^ (w - 1).

(** [int] is 32 bits wide. *)
Definition wrap_int (z : Z) : Z := wrap 32 z.

End Num.

(** ** The YAML tree *)

Module Yaml.

(** Modelled from the spec: [YAML_Doc.hpp] and [YAML_Element.hpp] are not among
    the sources.  The specification describes the output as a human-readable
    key/value tree.  An element has a key, a value and an ordered sequence of
    children; [add] appends a child and [get] returns the first child with
    the given key (a null pointer when there is none).  The overloads of
    [add] convert their argument to text; the embedding keeps the typed
    value instead. *)
Inductive YamlValue :=
  | YString (s : string)
  | YInt (z : Z)
  | YDouble (d : float).

#[warnings="-register-all"]
Inductive YAML_Element :=
  Element { key : string; value : YamlValue; children : list YAML_Element }.

(** [YAML_Doc doc(name, version)]: the root of the tree. *)
Definition YAML_Doc (miniAppName miniAppVersion : string) : YAML_Element :=
  Element miniAppName (YString miniAppVersion) [].

(** [e->add(k, v)] *)
Definition add (k : string) (v : YamlValue) (e : YAML_Element) : YAML_Element :=
  Element (key e) (value e) (children e ++ [Element k v []]).

Definition has_key (k : string) (c : YAML_Element) : bool := String.eqb (key c) k.

(** [e->get(k)] *)
Definition get (k : string) (e : YAML_Element) : option YAML_Element :=
  List.find (has_key k) (children e).

(** The element behind the pointer that [get k] returns is updated in place:
    [update_first k f cs] applies [f] to the first element of [cs] with key
    [k]; there is no such element exactly when [get] returns null. *)
Fixpoint update_first (k : string) (f : YAML_Element -> option YAML_Element)
    (cs : list YAML_Element) : option (list YAML_Element) :=
  match cs with
  | [] => None
  | c :: cs' =>
      if has_key k c
      then c' ← f c; Some (c' :: cs')
      else cs'' ← update_first k f cs'; Some (c :: cs'')
  end.

(** [e.get(k1)->get(k2)->...->f()] *)
Fixpoint at_path (p : list string) (f : YAML_Element -> option YAML_Element)
    (e : YAML_Element) : option YAML_Element :=
  match p with
  | [] => f e
  | k :: p' =>
      cs ← update_first k (at_path p' f) (children e);
      Some (Element (key e) (value e) cs)
  end.

(** One statement [doc.get(k1)->...->get(kn)->add(k, v)] of the report
    writer; [path] is [k1 ... kn], empty for [doc.add(k, v)]. *)
Record Stmt := Add { path : list string; akey : string; aval : YamlValue }.

Definition exec (s : Stmt) (d : YAML_Element) : option YAML_Element :=
  at_path (path s) (fun e => Some (add (akey s) (aval s) e)) d.

Fixpoint run (ss : list Stmt) (d : YAML_Element) : option YAML_Element :=
  match ss with
  | [] => Some d
  | s :: ss' => d' ← exec s d; run ss' d'
  end.

(** Reading the tree. *)
Fixpoint resolve (p : list string) (e : YAML_Element) : option YAML_Element :=
  match p with
  | [] => Some e
  | k :: p' => c ← get k e; resolve p' c
  end.

Definition entry (c : YAML_Element) : string * YamlValue := (key c, value c).

Definition entries (e : YAML_Element) : list (string * YamlValue) :=
  entry <$> children e.

(** The key/value pairs directly below the element that path [p] leads to. *)
Definition children_at (p : list string) (d : YAML_Element)
    : option (list (string * YamlValue)) :=
  entries <$> resolve p d.

(** The value stored under key [k] below path [p] (first match, as [get]). *)
Definition value_at (p : list string) (k : string) (d : YAML_Element)
    : option YamlValue :=
  e ← resolve (p ++ [k]) d; Some (value e).

(** What a statement list adds directly below path [p], in program order. *)
Definition adds_at (p : list string) (ss : list Stmt) : list (string * YamlValue) :=
  (fun s => (akey s, aval s)) <$> filter (fun s => path s = p) ss.

(** The first entry with key [k] in a list of entries. *)
Definition first_entry (k : string) (l : list (string * YamlValue)) : option YamlValue :=
  snd <$> List.find (fun kv => String.eqb (fst kv) k) l.

(** A statement list is in scope of the paths [known] when every statement
    adds below a known path or below an element an earlier statement has
    added. *)
Fixpoint scoped (known : list (list string)) (ss : list Stmt) : bool :=
  match ss with
  | [] => true
  | s :: ss' =>
      bool_decide (path s ∈ known) && scoped ((path s ++ [akey s]) :: known) ss'
  end.

(** The paths a statement list creates. *)
Definition created (ss : list Stmt) : list (list string) :=
  (fun s => path s ++ [akey s]) <$> ss.

(** [f] keeps the key and the value of the element it updates. *)
Definition keeps_entry (f : YAML_Element -> option YAML_Element) : Prop :=
  forall x y, f x = Some y -> entry y = entry x.

End Yaml.

(** ** Data of the benchmark *)

Module Hpcg.

(** Modelled from the spec: [Geometry.hpp] is not among the sources.  The
    fields are the ones the specification lists for the geometry; all are
    [int]. *)
Record Geometry := {
  size : Z; rank : Z; numThreads : Z;
  nx : Z; ny : Z; nz : Z;
  npx : Z; npy : Z; npz : Z;
  stencilSize : Z;
  ipx : Z; ipy : Z; ipz : Z
}.

(** [struct SparseMatrixScalars] of [LegionMatrices.hpp]. *)
Record SparseMatrixScalars := {
  maxNonzerosPerRow : Z;
  totalNumberOfRows : Z;
  totalNumberOfNonzeros : Z;
  localNumberOfRows : Z;
  localNumberOfColumns : Z;
  localNumberOfNonzeros : Z;
  numberOfExternalValues : Z;
  numberOfSendNeighbors : Z;
  totalToBeSent : Z
}.

(** A handle of a dynamic collective of the runtime: its identity, the number
    of arrivals it was created with and its reduction operator. *)
Inductive ReductionOp := INT_REDUCE_SUM_TID | OtherReduction (id : Z).

Record DynamicCollective := {
  dcId : nat; nArrivals : Z; redop : ReductionOp
}.

#[global] Instance ReductionOp_eq_dec : EqDecision ReductionOp.
Proof. solve_decision. Defined.

#[global] Instance DynamicCollective_eq_dec : EqDecision DynamicCollective.
Proof. solve_decision. Defined.

End Hpcg.

(** ** [ReportResults] *)

Module Report.
Import Num Yaml Hpcg.

(** The multigrid data the report reads. *)
Record MGData := {
  numberOfPresmootherSteps : Z;
  numberOfPostsmootherSteps : Z
}.

(** Modelled from the spec: the [SparseMatrix] of the explicit-SPMD variant is
    declared in a header that is not among the sources.  These are the
    members [ReportResults] reads; [mgData] and [Ac] are pointers, null at
    the coarsest level. *)
#[warnings="-register-all"]
Inductive SparseMatrix := {
  geom : Geometry;
  sclrs : SparseMatrixScalars;
  mgData : option MGData;
  Ac : option SparseMatrix;
  isDotProductOptimized : bool;
  isSpmvOptimized : bool;
  isMgOptimized : bool;
  isWaxpbyOptimized : bool;
  dcAllRedMinFT : DynamicCollective;
  dcAllRedMaxFT : DynamicCollective;
  dcAllRedSumFT : DynamicCollective
}.

(** The results of the three validation tests, as far as the report reads
    them. *)
Record TestCGData := {
  cg_count_fail : Z;
  niters_max_no_prec : Z;
  expected_niters_no_prec : Z;
  niters_max_prec : Z;
  expected_niters_prec : Z
}.

Record TestSymmetryData := {
  sym_count_fail : Z;
  depsym_spmv : float;
  depsym_mg : float
}.

Record TestNormsData := {
  pass : bool;
  mean : float;
  variance : float
}.

(** What the compiler and the benchmarker fix: the sizes [sizeof] yields for
    the types declared in missing headers, and the benchmarker's memory
    model [OptimizeProblemMemoryUse].  [sizeof(char)] is 1 and
    [sizeof(double)] is 8. *)
Record Platform := {
  sizeof_local_int_t : Z;
  sizeof_global_int_t : Z;
  sizeof_pointer : Z;
  sizeof_int : Z;
  sizeof_Geometry : Z;
  sizeof_SparseMatrix : Z;
  sizeof_Array_floatType : Z;
  sizeof_MGData : Z;
  OptimizeProblemMemoryUse : SparseMatrix -> float
}.

Definition sizeof_char : Z := 1.
Definition sizeof_double : Z := 8.

(** The runtime: what a collective yields to this task for its contribution. *)
Record Runtime := {
  reduced : DynamicCollective -> float -> float
}.

(** The effects of [ReportResults] that other tasks or the file system see. *)
Inductive Event :=
  | EvAllReduce (dc : DynamicCollective) (contribution : float)
  | EvGenerateYAML (doc : YAML_Element).

Local Open Scope float_scope.
Local Abbreviation D := double_of_Z.

(** *** FLOP count model (lines 130-157) *)

Record FlopModel := {
  fnops_ddot : float;
  fnops_waxpby : float;
  fnops_sparsemv : float;
  fnops_precond : float;
  fnops : float;
  frefnops : float
}.

(** The loop of lines 144-153, [n] iterations left; the result carries the
    level [Af] points to after the loop. *)
Fixpoint flops_loop (n : nat) (Af : option SparseMatrix) (fniters : float)
    (fnops_precond : float) : option (float * option SparseMatrix) :=
  match n with
  | O => Some (fnops_precond, Af)
  | S n' =>
      Af_ ← Af;
      let fnnz_Af := D (totalNumberOfNonzeros (sclrs Af_)) in
      mg ← mgData Af_;
      let fnumberOfPresmootherSteps := D (numberOfPresmootherSteps mg) in
      let fnumberOfPostsmootherSteps := D (numberOfPostsmootherSteps mg) in
      let fnops_precond := fnops_precond + fnumberOfPresmootherSteps * fniters * 4.0 * fnnz_Af in
      let fnops_precond := fnops_precond + fniters * 2.0 * fnnz_Af in
      let fnops_precond := fnops_precond + fnumberOfPostsmootherSteps * fniters * 4.0 * fnnz_Af in
      flops_loop n' (Ac Af_) fniters fnops_precond
  end.

(** Number of iterations of [for (int i = 1; i < numberOfMgLevels; ++i)]. *)
Definition mg_loop_count (numberOfMgLevels : Z) : nat :=
  Z.to_nat (numberOfMgLevels - 1).

Definition flop_model (A : SparseMatrix)
    (numberOfMgLevels numberOfCgSets refMaxIters optMaxIters : Z)
    : option FlopModel :=
  let Asclrs := sclrs A in
  let fNumberOfCgSets := D numberOfCgSets in
  let fniters := fNumberOfCgSets * D optMaxIters in
  let fnrow := D (totalNumberOfRows Asclrs) in
  let fnnz := D (totalNumberOfNonzeros Asclrs) in
  let fnops_ddot := (3.0 * fniters + fNumberOfCgSets) * 2.0 * fnrow in
  let fnops_waxpby := (3.0 * fniters + fNumberOfCgSets) * 2.0 * fnrow in
  let fnops_sparsemv := (fniters + fNumberOfCgSets) * 2.0 * fnnz in
  '(fnops_precond, Af) ← flops_loop (mg_loop_count numberOfMgLevels) (Some A) fniters 0.0;
  Af_ ← Af;
  let fnops_precond :=
    fnops_precond + fniters * 4.0 * D (totalNumberOfNonzeros (sclrs Af_)) in
  let fnops := fnops_ddot + fnops_waxpby + fnops_sparsemv + fnops_precond in
  let frefnops := fnops * D refMaxIters / D optMaxIters in
  Some {| fnops_ddot := fnops_ddot; fnops_waxpby := fnops_waxpby;
          fnops_sparsemv := fnops_sparsemv; fnops_precond := fnops_precond;
          fnops := fnops; frefnops := frefnops |}.

(** *** Memory bandwidth model (lines 159-195) *)

Record BandwidthModel := {
  fnreads_precond : float;
  fnwrites_precond : float;
  fnreads : float;
  fnwrites : float;
  frefnreads : float;
  frefnwrites : float
}.

Section WithPlatform.
Variable plat : Platform.

Let lsz : Z := sizeof_local_int_t plat.
Let gsz : Z := sizeof_global_int_t plat.

(** The loop of lines 173-186. *)
Fixpoint bandwidth_loop (n : nat) (Af : option SparseMatrix) (fniters : float)
    (fnreads_precond fnwrites_precond : float)
    : option (float * float * option SparseMatrix) :=
  match n with
  | O => Some (fnreads_precond, fnwrites_precond, Af)
  | S n' =>
      Af_ ← Af;
      let fnnz_Af := D (totalNumberOfNonzeros (sclrs Af_)) in
      let fnrow_Af := D (totalNumberOfRows (sclrs Af_)) in
      mg ← mgData Af_;
      let fnumberOfPresmootherSteps := D (numberOfPresmootherSteps mg) in
      let fnumberOfPostsmootherSteps := D (numberOfPostsmootherSteps mg) in
      let fnreads_precond := fnreads_precond
        + fnumberOfPresmootherSteps * fniters
          * (2.0 * fnnz_Af * D (sizeof_double + lsz) + fnrow_Af * D sizeof_double) in
      let fnwrites_precond := fnwrites_precond
        + fnumberOfPresmootherSteps * fniters * fnrow_Af * D sizeof_double in
      let fnreads_precond := fnreads_precond
        + fniters * (fnnz_Af * D (sizeof_double + lsz) + fnrow_Af * D sizeof_double) in
      let fnwrites_precond := fnwrites_precond
        + fniters * fnnz_Af * D sizeof_double in
      let fnreads_precond := fnreads_precond
        + fnumberOfPostsmootherSteps * fniters
          * (2.0 * fnnz_Af * D (sizeof_double + lsz) + fnrow_Af * D sizeof_double) in
      let fnwrites_precond := fnwrites_precond
        + fnumberOfPostsmootherSteps * fniters * fnnz_Af * D sizeof_double in
      bandwidth_loop n' (Ac Af_) fniters fnreads_precond fnwrites_precond
  end.

Definition bandwidth_model (A : SparseMatrix)
    (numberOfMgLevels numberOfCgSets refMaxIters optMaxIters : Z)
    : option BandwidthModel :=
  let Asclrs := sclrs A in
  let fNumberOfCgSets := D numberOfCgSets in
  let fniters := fNumberOfCgSets * D optMaxIters in
  let fnrow := D (totalNumberOfRows Asclrs) in
  let fnnz := D (totalNumberOfNonzeros Asclrs) in
  let fnreads_ddot := (3.0 * fniters + fNumberOfCgSets) * 2.0 * fnrow * D sizeof_double in
  let fnwrites_ddot := (3.0 * fniters + fNumberOfCgSets) * D sizeof_double in
  let fnreads_waxpby := (3.0 * fniters + fNumberOfCgSets) * 2.0 * fnrow * D sizeof_double in
  let fnwrites_waxpby := (3.0 * fniters + fNumberOfCgSets) * fnrow * D sizeof_double in
  let fnreads_sparsemv := (fniters + fNumberOfCgSets)
    * (fnnz * D (sizeof_double + lsz) + fnrow * D sizeof_double) in
  let fnwrites_sparsemv := (fniters + fNumberOfCgSets) * fnrow * D sizeof_double in
  '(fnreads_precond, fnwrites_precond, Af) ←
    bandwidth_loop (mg_loop_count numberOfMgLevels) (Some A) fniters 0.0 0.0;
  Af_ ← Af;
  let fnnz_Af := D (totalNumberOfNonzeros (sclrs Af_)) in
  let fnrow_Af := D (totalNumberOfRows (sclrs Af_)) in
  let fnreads_precond := fnreads_precond
    + fniters * (2.0 * fnnz_Af * D (sizeof_double + lsz) + fnrow_Af * D sizeof_double) in
  let fnwrites_precond := fnwrites_precond + fniters * fnrow_Af * D sizeof_double in
  let fnreads := fnreads_ddot + fnreads_waxpby + fnreads_sparsemv + fnreads_precond in
  let fnwrites := fnwrites_ddot + fnwrites_waxpby + fnwrites_sparsemv + fnwrites_precond in
  let frefnreads := fnreads * D refMaxIters / D optMaxIters in
  let frefnwrites := fnwrites * D refMaxIters / D optMaxIters in
  Some {| fnreads_precond := fnreads_precond; fnwrites_precond := fnwrites_precond;
          fnreads := fnreads; fnwrites := fnwrites;
          frefnreads := frefnreads; frefnwrites := frefnwrites |}.

(** *** Memory usage model (lines 198-270) *)

(** [v[i] = x] on a [std::vector]; out of range is undefined. *)
Definition vec_set (v : list float) (i : Z) (x : float) : option (list float) :=
  if ((0 <=? i) && (i <? Z.of_nat (length v)))%Z
  then Some (<[Z.to_nat i := x]> v) else None.

(** [v[i]] *)
Definition vec_get (v : list float) (i : Z) : option float :=
  if (0 <=? i)%Z then v !! Z.to_nat i else None.

(** [std::vector<double> v(n)]: a negative [n] converts to a size no
    allocation can satisfy. *)
Definition vec_new (n : Z) : option (list float) :=
  if (n <? 0)%Z then None else Some (replicate (Z.to_nat n) 0.0).

(** The loop of lines 232-265, at index [i] with [n] iterations left. *)
Fixpoint memory_loop (n : nat) (i : Z) (Af : option SparseMatrix) (size : float)
    (fnbytes : float) (fnbytesPerLevel : list float)
    : option (float * list float * option SparseMatrix) :=
  match n with
  | O => Some (fnbytes, fnbytesPerLevel, Af)
  | S n' =>
      Af_ ← Af;
      let Afsclrs := sclrs Af_ in
      let fnrow_Af := D (totalNumberOfRows Afsclrs) in
      let fncol_Af := D (localNumberOfColumns Afsclrs) * size in
      let fnbytes_Af := 0.0 in
      let fnbytes_Af := fnbytes_Af + fnrow_Af * D lsz in
      let fnbytes_Af := fnbytes_Af + fnrow_Af * D sizeof_double in
      let fnbytes_Af := fnbytes_Af + 2.0 * fncol_Af * D sizeof_double in
      let fnbytes_Af := fnbytes_Af
        + D (sizeof_Geometry plat + sizeof_SparseMatrix plat
             + 3 * sizeof_Array_floatType plat + sizeof_MGData plat) in
      let fnbytes_Af := fnbytes_Af + fnrow_Af * D sizeof_char in
      let fnbytes_Af := fnbytes_Af + fnrow_Af * D (sizeof_pointer plat) in
      let fnbytes_Af := fnbytes_Af + fnrow_Af * D (sizeof_pointer plat) in
      let fnbytes_Af := fnbytes_Af + fnrow_Af * D (sizeof_pointer plat) in
      let fnbytes_Af := fnbytes_Af + fnrow_Af * D (sizeof_pointer plat) in
      let fnbytes_Af := fnbytes_Af + fnrow_Af * 27.0 * D lsz in
      let fnbytes_Af := fnbytes_Af + fnrow_Af * 27.0 * D sizeof_double in
      let fnbytes_Af := fnbytes_Af + fnrow_Af * 27.0 * D gsz in
      let fnbytes_Af := fnbytes_Af + D sizeof_double * D (totalToBeSent Afsclrs) in
      let fnbytes_Af := fnbytes_Af + D lsz * D (totalToBeSent Afsclrs) in
      let fnbytes_Af := fnbytes_Af
        + D (sizeof_int plat) * D (numberOfSendNeighbors Afsclrs) in
      let fnbytes_Af := fnbytes_Af + D lsz * D (numberOfSendNeighbors Afsclrs) in
      fnbytesPerLevel ← vec_set fnbytesPerLevel i fnbytes_Af;
      let fnbytes := fnbytes + fnbytes_Af in
      memory_loop n' (i + 1)%Z (Ac Af_) size fnbytes fnbytesPerLevel
  end.

Record MemoryModel := {
  fnbytes : float;
  fnbytes_OptimizedProblem : float;
  fnbytesPerLevel : list float;
  fnbytesPerEquation : float
}.

Definition memory_model (A : SparseMatrix) (numberOfMgLevels numberOfCgSets : Z)
    : option MemoryModel :=
  let Asclrs := sclrs A in
  let Ageom := geom A in
  let fNumberOfCgSets := D numberOfCgSets in
  let fnrow := D (totalNumberOfRows Asclrs) in
  let numberOfNonzerosPerRow := 27.0 in
  let size := D (size Ageom) in
  let fnbytes := D (sizeof_Geometry plat) in
  let fnbytes := fnbytes + D sizeof_double * fNumberOfCgSets in
  let fnbytes := fnbytes + fnrow * D sizeof_char in
  let fnbytes := fnbytes + fnrow * D (sizeof_pointer plat) in
  let fnbytes := fnbytes + fnrow * D (sizeof_pointer plat) in
  let fnbytes := fnbytes + fnrow * D (sizeof_pointer plat) in
  let fnbytes := fnbytes + fnrow * D (sizeof_pointer plat) in
  let fnbytes := fnbytes + fnrow * numberOfNonzerosPerRow * D lsz in
  let fnbytes := fnbytes + fnrow * numberOfNonzerosPerRow * D sizeof_double in
  let fnbytes := fnbytes + fnrow * numberOfNonzerosPerRow * D gsz in
  let fnbytes := fnbytes + fnrow * (3.0 * D sizeof_double) in
  let fncol := D (localNumberOfColumns Asclrs) * size in
  let fnbytes := fnbytes + fnrow * (2.0 * D sizeof_double) in
  let fnbytes := fnbytes + fncol * (2.0 * D sizeof_double) in
  fnbytesPerLevel ← vec_new numberOfMgLevels;
  fnbytesPerLevel ← vec_set fnbytesPerLevel 0 fnbytes;
  let fnbytes_OptimizedProblem := OptimizeProblemMemoryUse plat A in
  let fnbytes := fnbytes + fnbytes_OptimizedProblem in
  '(fnbytes, fnbytesPerLevel, Af) ←
    memory_loop (mg_loop_count numberOfMgLevels) 1 (Ac A) size fnbytes fnbytesPerLevel;
  (* assert(Af == 0) *)
  match Af with
  | Some _ => None
  | None =>
      let fnbytesPerEquation := fnbytes / fnrow in
      Some {| fnbytes := fnbytes;
              fnbytes_OptimizedProblem := fnbytes_OptimizedProblem;
              fnbytesPerLevel := fnbytesPerLevel;
              fnbytesPerEquation := fnbytesPerEquation |}
  end.

(** *** The document (lines 273-471) *)

Definition DepartureFromSymmetry : string :=
  "Departure from Symmetry |x'Ay-y'Ax|/(2*||x||*||A||*||y||)/epsilon".

Definition FinalSummary : string := "__________ Final Summary __________".

Definition PASSED_or_FAILED (section : string) (passed : bool) : list Stmt :=
  if passed
  then [Add [section] "Result" (YString "PASSED")]
  else [Add [section] "Result" (YString "FAILED")].

(** The loop of lines 309-316. *)
Fixpoint coarse_grids_loop (n : nat) (i : Z) (Af : option SparseMatrix)
    : option (list Stmt) :=
  match n with
  | O => Some []
  | S n' =>
      Af_ ← Af;
      Ac_ ← Ac Af_;
      mg ← mgData Af_;
      rest ← coarse_grids_loop n' (i + 1)%Z (Ac Af_);
      Some ([ Add ["Multigrid Information"; "Coarse Grids"] "Grid Level" (YInt i);
              Add ["Multigrid Information"; "Coarse Grids"] "Number of Equations"
                (YInt (totalNumberOfRows (sclrs Ac_)));
              Add ["Multigrid Information"; "Coarse Grids"] "Number of Nonzero Terms"
                (YInt (totalNumberOfNonzeros (sclrs Ac_)));
              Add ["Multigrid Information"; "Coarse Grids"] "Number of Presmoother Steps"
                (YInt (numberOfPresmootherSteps mg));
              Add ["Multigrid Information"; "Coarse Grids"] "Number of Postsmoother Steps"
                (YInt (numberOfPostsmootherSteps mg)) ] ++ rest)
  end.

(** The loop of lines 328-331. *)
Fixpoint memory_used_loop (n : nat) (i : Z) (fnbytesPerLevel : list float)
    : option (list Stmt) :=
  match n with
  | O => Some []
  | S n' =>
      b ← vec_get fnbytesPerLevel i;
      rest ← memory_used_loop n' (i + 1)%Z fnbytesPerLevel;
      Some ([ Add ["Memory Use Information"; "Coarse Grids"] "Grid Level" (YInt i);
              Add ["Memory Use Information"; "Coarse Grids"] "Memory used"
                (YDouble (b / 1000000000.0)) ] ++ rest)
  end.

(** Lines 274-294. *)
Definition machine_stmts (Ageom : Geometry) : list Stmt :=
  [ Add [] "Release date" (YString "November 11, 2015");
    Add [] "Machine Summary" (YString "");
    Add ["Machine Summary"] "Distributed Processes" (YInt (size Ageom));
    Add ["Machine Summary"] "Threads per processes" (YInt (numThreads Ageom));
    Add [] "Global Problem Dimensions" (YString "");
    Add ["Global Problem Dimensions"] "Global nx" (YInt (wrap_int (npx Ageom * nx Ageom)));
    Add ["Global Problem Dimensions"] "Global ny" (YInt (wrap_int (npy Ageom * ny Ageom)));
    Add ["Global Problem Dimensions"] "Global nz" (YInt (wrap_int (npz Ageom * nz Ageom)));
    Add [] "Processor Dimensions" (YString "");
    Add ["Processor Dimensions"] "npx" (YInt (npx Ageom));
    Add ["Processor Dimensions"] "npy" (YInt (npy Ageom));
    Add ["Processor Dimensions"] "npz" (YInt (npz Ageom));
    Add [] "Local Domain Dimensions" (YString "");
    Add ["Local Domain Dimensions"] "nx" (YInt (nx Ageom));
    Add ["Local Domain Dimensions"] "ny" (YInt (ny Ageom));
    Add ["Local Domain Dimensions"] "nz" (YInt (nz Ageom)) ].

(** Lines 296-308. *)
Definition problem_head (A : SparseMatrix) (numberOfMgLevels : Z) (t9 : float)
    : list Stmt :=
  let Asclrs := sclrs A in
  [ Add [] "########## Problem Summary  ##########" (YString "");
    Add [] "Setup Information" (YString "");
    Add ["Setup Information"] "Setup Time" (YDouble t9);
    Add [] "Linear System Information" (YString "");
    Add ["Linear System Information"] "Number of Equations"
      (YInt (totalNumberOfRows Asclrs));
    Add ["Linear System Information"] "Number of Nonzero Terms"
      (YInt (totalNumberOfNonzeros Asclrs));
    Add [] "Multigrid Information" (YString "");
    Add ["Multigrid Information"] "Number of coarse grid levels"
      (YInt (wrap_int (numberOfMgLevels - 1)));
    Add ["Multigrid Information"] "Coarse Grids" (YString "") ].

(** Lines 296-316. *)
Definition problem_stmts (A : SparseMatrix) (numberOfMgLevels : Z) (t9 : float)
    : option (list Stmt) :=
  coarse ← coarse_grids_loop (mg_loop_count numberOfMgLevels) 1 (Some A);
  Some (problem_head A numberOfMgLevels t9 ++ coarse).

(** Lines 318-327. *)
Definition memory_head (mm : MemoryModel) (level0 : float) : list Stmt :=
  [ Add [] "########## Memory Use Summary  ##########" (YString "");
    Add [] "Memory Use Information" (YString "");
    Add ["Memory Use Information"] "Total memory used for data (Gbytes)"
      (YDouble (fnbytes mm / 1000000000.0));
    Add ["Memory Use Information"] "Memory used for OptimizeProblem data (Gbytes)"
      (YDouble (fnbytes_OptimizedProblem mm / 1000000000.0));
    Add ["Memory Use Information"]
      "Bytes per equation (Total memory / Number of Equations)"
      (YDouble (fnbytesPerEquation mm));
    Add ["Memory Use Information"] "Memory used for linear system and CG (Gbytes)"
      (YDouble (level0 / 1000000000.0));
    Add ["Memory Use Information"] "Coarse Grids" (YString "") ].

(** Lines 318-331. *)
Definition memory_stmts (mm : MemoryModel) (numberOfMgLevels : Z)
    : option (list Stmt) :=
  level0 ← vec_get (fnbytesPerLevel mm) 0;
  coarse ← memory_used_loop (mg_loop_count numberOfMgLevels) 1 (fnbytesPerLevel mm);
  Some (memory_head mm level0 ++ coarse).

(** Lines 333-357. *)
Definition testing_stmts (testcg_data : TestCGData)
    (testsymmetry_data : TestSymmetryData) : list Stmt :=
  [ Add [] "########## V&V Testing Summary  ##########" (YString "");
    Add [] "Spectral Convergence Tests" (YString "") ]
  ++ PASSED_or_FAILED "Spectral Convergence Tests" (cg_count_fail testcg_data =? 0)%Z
  ++ [ Add ["Spectral Convergence Tests"] "Unpreconditioned" (YString "");
       Add ["Spectral Convergence Tests"; "Unpreconditioned"] "Maximum iteration count"
         (YInt (niters_max_no_prec testcg_data));
       Add ["Spectral Convergence Tests"; "Unpreconditioned"] "Expected iteration count"
         (YInt (expected_niters_no_prec testcg_data));
       Add ["Spectral Convergence Tests"] "Preconditioned" (YString "");
       Add ["Spectral Convergence Tests"; "Preconditioned"] "Maximum iteration count"
         (YInt (niters_max_prec testcg_data));
       Add ["Spectral Convergence Tests"; "Preconditioned"] "Expected iteration count"
         (YInt (expected_niters_prec testcg_data));
       Add [] DepartureFromSymmetry (YString "") ]
  ++ PASSED_or_FAILED DepartureFromSymmetry (sym_count_fail testsymmetry_data =? 0)%Z
  ++ [ Add [DepartureFromSymmetry] "Departure for SpMV"
         (YDouble (depsym_spmv testsymmetry_data));
       Add [DepartureFromSymmetry] "Departure for MG"
         (YDouble (depsym_mg testsymmetry_data)) ].

(** Lines 359-381. *)
Definition iterations_stmts (numberOfCgSets refMaxIters optMaxIters : Z)
    (testnorms_data : TestNormsData) (global_failure : Z) : list Stmt :=
  [ Add [] "########## Iterations Summary  ##########" (YString "");
    Add [] "Iteration Count Information" (YString "") ]
  ++ PASSED_or_FAILED "Iteration Count Information" (global_failure =? 0)%Z
  ++ [ Add ["Iteration Count Information"] "Reference CG iterations per set"
         (YInt refMaxIters);
       Add ["Iteration Count Information"] "Optimized CG iterations per set"
         (YInt optMaxIters);
       Add ["Iteration Count Information"] "Total number of reference iterations"
         (YInt (wrap_int (refMaxIters * numberOfCgSets)));
       Add ["Iteration Count Information"] "Total number of optimized iterations"
         (YInt (wrap_int (optMaxIters * numberOfCgSets)));
       Add [] "########## Reproducibility Summary  ##########" (YString "");
       Add [] "Reproducibility Information" (YString "") ]
  ++ PASSED_or_FAILED "Reproducibility Information" (pass testnorms_data)
  ++ [ Add ["Reproducibility Information"] "Scaled residual mean"
         (YDouble (mean testnorms_data));
       Add ["Reproducibility Information"] "Scaled residual variance"
         (YDouble (variance testnorms_data)) ].

(** The times the report reads: [times[0..3]], [times[5]], [times[7..9]]. *)
Record Times := { t0 : float; t1 : float; t2 : float; t3 : float;
                  t5 : float; t7 : float; t8 : float; t9 : float }.

Definition read_times (times : list float) : option Times :=
  t0 ← times !! 0%nat; t1 ← times !! 1%nat; t2 ← times !! 2%nat;
  t3 ← times !! 3%nat; t5 ← times !! 5%nat; t7 ← times !! 7%nat;
  t8 ← times !! 8%nat; t9 ← times !! 9%nat;
  Some {| t0 := t0; t1 := t1; t2 := t2; t3 := t3;
          t5 := t5; t7 := t7; t8 := t8; t9 := t9 |}.

(** Lines 416-417. *)
Definition totalGflops (fm : FlopModel) (numberOfCgSets : Z) (T : Times) : float :=
  frefnops fm / (t0 T + D numberOfCgSets * (t7 T / 10.0 + t9 T / 10.0)) / 1.0E9.

Definition totalGflops24 (fm : FlopModel) (numberOfCgSets : Z) (T : Times) : float :=
  frefnops fm / (t0 T + D numberOfCgSets * t7 T / 10.0) / 1.0E9.

(** Lines 383-427. *)
Definition performance_stmts (fm : FlopModel) (bm : BandwidthModel)
    (numberOfCgSets : Z) (T : Times) (t4min t4max t4avg : float) : list Stmt :=
  let fNumberOfCgSets := D numberOfCgSets in
  [ Add [] "########## Performance Summary (times in sec) ##########" (YString "");
    Add [] "Benchmark Time Summary" (YString "");
    Add ["Benchmark Time Summary"] "Optimization phase" (YDouble (t7 T));
    Add ["Benchmark Time Summary"] "DDOT" (YDouble (t1 T));
    Add ["Benchmark Time Summary"] "WAXPBY" (YDouble (t2 T));
    Add ["Benchmark Time Summary"] "SpMV" (YDouble (t3 T));
    Add ["Benchmark Time Summary"] "MG" (YDouble (t5 T));
    Add ["Benchmark Time Summary"] "Total" (YDouble (t0 T));
    Add [] "Floating Point Operations Summary" (YString "");
    Add ["Floating Point Operations Summary"] "Raw DDOT" (YDouble (fnops_ddot fm));
    Add ["Floating Point Operations Summary"] "Raw WAXPBY" (YDouble (fnops_waxpby fm));
    Add ["Floating Point Operations Summary"] "Raw SpMV" (YDouble (fnops_sparsemv fm));
    Add ["Floating Point Operations Summary"] "Raw MG" (YDouble (fnops_precond fm));
    Add ["Floating Point Operations Summary"] "Total" (YDouble (fnops fm));
    Add ["Floating Point Operations Summary"] "Total with convergence overhead"
      (YDouble (frefnops fm));
    Add [] "GB/s Summary" (YString "");
    Add ["GB/s Summary"] "Raw Read B/W" (YDouble (fnreads bm / t0 T / 1.0E9));
    Add ["GB/s Summary"] "Raw Write B/W" (YDouble (fnwrites bm / t0 T / 1.0E9));
    Add ["GB/s Summary"] "Raw Total B/W"
      (YDouble ((fnreads bm + fnwrites bm) / t0 T / 1.0E9));
    Add ["GB/s Summary"] "Total with convergence and optimization phase overhead"
      (YDouble ((frefnreads bm + frefnwrites bm)
                / (t0 T + fNumberOfCgSets * (t7 T / 10.0 + t9 T / 10.0)) / 1.0E9));
    Add [] "GFLOP/s Summary" (YString "");
    Add ["GFLOP/s Summary"] "Raw DDOT" (YDouble (fnops_ddot fm / t1 T / 1.0E9));
    Add ["GFLOP/s Summary"] "Raw WAXPBY" (YDouble (fnops_waxpby fm / t2 T / 1.0E9));
    Add ["GFLOP/s Summary"] "Raw SpMV" (YDouble (fnops_sparsemv fm / t3 T / 1.0E9));
    Add ["GFLOP/s Summary"] "Raw MG" (YDouble (fnops_precond fm / t5 T / 1.0E9));
    Add ["GFLOP/s Summary"] "Raw Total" (YDouble (fnops fm / t0 T / 1.0E9));
    Add ["GFLOP/s Summary"] "Total with convergence overhead"
      (YDouble (frefnops fm / t0 T / 1.0E9));
    Add ["GFLOP/s Summary"] "Total with convergence and optimization phase overhead"
      (YDouble (totalGflops fm numberOfCgSets T));
    Add [] "User Optimization Overheads" (YString "");
    Add ["User Optimization Overheads"] "Optimization phase time (sec)" (YDouble (t7 T));
    Add ["User Optimization Overheads"]
      "Optimization phase time vs reference SpMV+MG time" (YDouble (t7 T / t8 T));
    Add [] "DDOT Timing Variations" (YString "");
    Add ["DDOT Timing Variations"] "Min DDOT MPI_Allreduce time" (YDouble t4min);
    Add ["DDOT Timing Variations"] "Max DDOT MPI_Allreduce time" (YDouble t4max);
    Add ["DDOT Timing Variations"] "Avg DDOT MPI_Allreduce time" (YDouble t4avg) ].

(** Line 432. *)
Definition isValidRun (testcg_data : TestCGData)
    (testsymmetry_data : TestSymmetryData) (testnorms_data : TestNormsData)
    (global_failure : Z) : bool :=
  (cg_count_fail testcg_data =? 0)%Z && (sym_count_fail testsymmetry_data =? 0)%Z
  && pass testnorms_data && (global_failure =? 0)%Z.

(** Lines 436-452: the notes on reference kernels. *)
Definition reference_notes (A : SparseMatrix) : list Stmt :=
  (if negb (isDotProductOptimized A)
   then [Add [FinalSummary] "Reference version of ComputeDotProduct used"
           (YString "Performance results are most likely suboptimal")]
   else [])
  ++ (if negb (isSpmvOptimized A)
      then [Add [FinalSummary] "Reference version of ComputeSPMV used"
              (YString "Performance results are most likely suboptimal")]
      else [])
  ++ (if negb (isMgOptimized A)
      then
        if (numThreads (geom A) >? 1)%Z
        then [Add [FinalSummary]
                "Reference version of ComputeMG used and number of threads greater than 1"
                (YString "Performance results are severely suboptimal")]
        else [Add [FinalSummary] "Reference version of ComputeMG used"
                (YString "Performance results are most likely suboptimal")]
      else [])
  ++ (if negb (isWaxpbyOptimized A)
      then [Add [FinalSummary] "Reference version of ComputeWAXPBY used"
              (YString "Performance results are most likely suboptimal")]
      else []).

(** Lines 453-466: the time threshold of official results. *)
Definition official_time_stmts (minOfficialTime : float) (T : Times)
    (quickPath : bool) : list Stmt :=
  if minOfficialTime <=? t0 T
  then [Add [FinalSummary] "Please upload results from the YAML file contents to"
          (YString "http://hpcg-benchmark.org")]
  else
    [Add [FinalSummary] "Results are valid but execution time (sec) is" (YDouble (t0 T))]
    ++ (if quickPath
        then [Add [FinalSummary] "     You have selected the QuickPath option"
                (YString "Results are official for legacy installed systems with confirmation from the HPCG Benchmark leaders.");
              Add [FinalSummary]
                "     After confirmation please upload results from the YAML file contents to"
                (YString "http://hpcg-benchmark.org")]
        else [Add [FinalSummary]
                "     Official results execution time (sec) must be at least"
                (YDouble minOfficialTime)]).

(** Lines 431-471. *)
Definition final_stmts (A : SparseMatrix) (fm : FlopModel) (numberOfCgSets : Z)
    (T : Times) (valid : bool) (minOfficialTime : float) (quickPath : bool)
    : list Stmt :=
  Add [] FinalSummary (YString "")
  :: (if valid
      then
        [ Add [FinalSummary] "HPCG result is VALID with a GFLOP/s rating of"
            (YDouble (totalGflops fm numberOfCgSets T));
          Add [FinalSummary] "    HPCG 2.4 Rating (for historical value) is"
            (YDouble (totalGflops24 fm numberOfCgSets T)) ]
        ++ reference_notes A
        ++ official_time_stmts minOfficialTime T quickPath
      else
        [ Add [FinalSummary] "HPCG result is" (YString "INVALID.");
          Add [FinalSummary] "Please review the YAML file contents"
            (YString "You may NOT submit these results for consideration.") ]).

(** All statements of the rank that writes the report, in program order. *)
Definition report_stmts (A : SparseMatrix)
    (numberOfMgLevels numberOfCgSets refMaxIters optMaxIters : Z) (T : Times)
    (testcg_data : TestCGData) (testsymmetry_data : TestSymmetryData)
    (testnorms_data : TestNormsData) (global_failure : Z) (quickPath : bool)
    (minOfficialTime t4min t4max t4avg : float) : option (list Stmt) :=
  fm ← flop_model A numberOfMgLevels numberOfCgSets refMaxIters optMaxIters;
  bm ← bandwidth_model A numberOfMgLevels numberOfCgSets refMaxIters optMaxIters;
  mm ← memory_model A numberOfMgLevels numberOfCgSets;
  problem ← problem_stmts A numberOfMgLevels (t9 T);
  memory ← memory_stmts mm numberOfMgLevels;
  Some (machine_stmts (geom A)
        ++ problem
        ++ memory
        ++ testing_stmts testcg_data testsymmetry_data
        ++ iterations_stmts numberOfCgSets refMaxIters optMaxIters
             testnorms_data global_failure
        ++ performance_stmts fm bm numberOfCgSets T t4min t4max t4avg
        ++ final_stmts A fm numberOfCgSets T
             (isValidRun testcg_data testsymmetry_data testnorms_data global_failure)
             minOfficialTime quickPath).

(** [ReportResults]: the effects of one call, in order; [None] when the call
    runs into undefined behaviour.  [doc.generateYAML()] is the event
    [EvGenerateYAML]; the echo to [HPCG_fout] is compiled in only under
    [HPCG_DEBUG] and is left out. *)
Definition ReportResults (A : SparseMatrix)
    (numberOfMgLevels numberOfCgSets refMaxIters optMaxIters : Z)
    (times : list float)
    (testcg_data : TestCGData) (testsymmetry_data : TestSymmetryData)
    (testnorms_data : TestNormsData) (global_failure : Z) (quickPath : bool)
    (lrt : Runtime) : option (list Event) :=
  let Ageom := geom A in
  let minOfficialTime := 1800 in
  t4 ← times !! 4%nat;
  let t4min := reduced lrt (dcAllRedMinFT A) t4 in
  let t4max := reduced lrt (dcAllRedMaxFT A) t4 in
  let t4avg := reduced lrt (dcAllRedSumFT A) t4 in
  let t4avg := t4avg / D (size Ageom) in
  let reductions := [ EvAllReduce (dcAllRedMinFT A) t4;
                      EvAllReduce (dcAllRedMaxFT A) t4;
                      EvAllReduce (dcAllRedSumFT A) t4 ] in
  if (rank Ageom =? 0)%Z then
    T ← read_times times;
    stmts ← report_stmts A numberOfMgLevels numberOfCgSets refMaxIters optMaxIters T
              testcg_data testsymmetry_data testnorms_data global_failure quickPath
              minOfficialTime t4min t4max t4avg;
    doc ← run stmts (YAML_Doc "HPCG-Benchmark" "3.0");
    Some (reductions ++ [EvGenerateYAML doc])
  else Some reductions.

End WithPlatform.

(** A hierarchy of [k] coarse levels below [A]: every level but the coarsest
    has multigrid data and a coarser matrix, and the coarsest has no coarser
    matrix. *)
Fixpoint hierarchy (k : nat) (A : SparseMatrix) : Prop :=
  match k with
  | O => Ac A = None
  | S k' =>
      exists mg Ac_, mgData A = Some mg /\ Ac A = Some Ac_ /\ hierarchy k' Ac_
  end.

(** The documents a trace emits. *)
Definition emitted (tr : list Event) : list YAML_Element :=
  omap (fun ev => match ev with EvGenerateYAML d => Some d | _ => None end) tr.

(** The collective reductions of a trace. *)
Definition reductions_of (tr : list Event) : list (DynamicCollective * float) :=
  omap (fun ev => match ev with EvAllReduce dc x => Some (dc, x) | _ => None end) tr.

(** The headers of the top-level sections the specification requires, in the
    required order. *)
Definition required_sections : list string :=
  [ "Machine Summary"; "Global Problem Dimensions"; "Processor Dimensions";
    "Local Domain Dimensions"; "########## Problem Summary  ##########";
    "Setup Information"; "Linear System Information"; "Multigrid Information";
    "########## Memory Use Summary  ##########"; "Memory Use Information";
    "########## V&V Testing Summary  ##########"; "Spectral Convergence Tests";
    DepartureFromSymmetry; "########## Iterations Summary  ##########";
    "Iteration Count Information";
    "########## Reproducibility Summary  ##########";
    "Reproducibility Information";
    "########## Performance Summary (times in sec) ##########";
    "Benchmark Time Summary"; "Floating Point Operations Summary";
    "GB/s Summary"; "GFLOP/s Summary"; "User Optimization Overheads";
    "DDOT Timing Variations"; FinalSummary ].

(** The sections of the performance summary and the final summary. *)
Definition late_sections : list (list string) :=
  [ ["Floating Point Operations Summary"]; ["GB/s Summary"];
    ["GFLOP/s Summary"]; [FinalSummary] ].

Definition stmt_entry (s : Stmt) : string * YamlValue := (akey s, aval s).

End Report.

(** ** A concrete run of the report writer *)

Module Sample.
Import Num Yaml Hpcg Report.

(** A 2x2x2 process grid with 16x16x16 points per rank and four multigrid
    levels. *)
Definition geometry : Geometry :=
  {| size := 8; rank := 0; numThreads := 1;
     nx := 16; ny := 16; nz := 16; npx := 2; npy := 2; npz := 2;
     stencilSize := 27; ipx := 0; ipy := 0; ipz := 0 |}.

Definition collective (i : nat) : DynamicCollective :=
  {| dcId := i; nArrivals := 8; redop := OtherReduction (Z.of_nat i) |}.

Definition scalars (rows nonzeros : Z) : SparseMatrixScalars :=
  {| maxNonzerosPerRow := 27;
     totalNumberOfRows := rows; totalNumberOfNonzeros := nonzeros;
     localNumberOfRows := rows / 8; localNumberOfColumns := rows / 8 + 100;
     localNumberOfNonzeros := nonzeros / 8; numberOfExternalValues := 100;
     numberOfSendNeighbors := 7; totalToBeSent := 100 |}.

Definition level (g : Geometry) (rows nonzeros : Z) (mg : option MGData)
    (coarser : option SparseMatrix) : SparseMatrix :=
  {| geom := g; sclrs := scalars rows nonzeros; mgData := mg; Ac := coarser;
     isDotProductOptimized := false; isSpmvOptimized := false;
     isMgOptimized := false; isWaxpbyOptimized := false;
     dcAllRedMinFT := collective 1; dcAllRedMaxFT := collective 2;
     dcAllRedSumFT := collective 3 |}.

Definition smoother : MGData :=
  {| numberOfPresmootherSteps := 1; numberOfPostsmootherSteps := 1 |}.

Definition matrix_on (g : Geometry) : SparseMatrix :=
  level g 32768 830584 (Some smoother)
    (Some (level g 4096 97336 (Some smoother)
       (Some (level g 512 10648 (Some smoother)
          (Some (level g 64 1000 None None)))))).

Definition matrix : SparseMatrix := matrix_on geometry.

Definition platform : Platform :=
  {| sizeof_local_int_t := 4; sizeof_global_int_t := 8; sizeof_pointer := 8;
     sizeof_int := 4; sizeof_Geometry := 52; sizeof_SparseMatrix := 200;
     sizeof_Array_floatType := 32; sizeof_MGData := 48;
     OptimizeProblemMemoryUse := fun _ => 0%float |}.

Definition times_with (total : float) : list float :=
  [total; 1.5; 2.0; 3.0; 0.5; 5.0; 0.0; 7.0; 8.0; 9.0]%float.

Definition testcg : TestCGData :=
  {| cg_count_fail := 0; niters_max_no_prec := 11; expected_niters_no_prec := 12;
     niters_max_prec := 1; expected_niters_prec := 2 |}.

Definition testsymmetry : TestSymmetryData :=
  {| sym_count_fail := 0; depsym_spmv := 0.5; depsym_mg := 0.25 |}.

Definition testnorms : TestNormsData :=
  {| pass := true; mean := 0.125; variance := 0 |}.

Definition runtime : Runtime := {| reduced := fun _ x => x |}.

(** The call with total time [total], failure flag [global_failure] and the
    quick-path flag. *)
Definition call (total : float) (global_failure : Z) (quickPath : bool)
    : option (list Event) :=
  ReportResults platform matrix 4 10 50 50 (times_with total)
    testcg testsymmetry testnorms global_failure quickPath runtime.

Definition doc_of (tr : option (list Event)) : YAML_Element :=
  match tr with
  | Some [_; _; _; EvGenerateYAML d] => d
  | _ => YAML_Doc "" ""
  end.

Definition reductions : list Event :=
  [ EvAllReduce (collective 1) 0.5; EvAllReduce (collective 2) 0.5;
    EvAllReduce (collective 3) 0.5 ].

(** A valid run of 2000.5 seconds. *)
Definition long_doc : YAML_Element := Eval vm_compute in doc_of (call 2000.5 0 false).

(** Valid runs of 60 seconds, with and without the quick path. *)
Definition quick_doc : YAML_Element := Eval vm_compute in doc_of (call 60 0 true).
Definition short_doc : YAML_Element := Eval vm_compute in doc_of (call 60 0 false).

(** A run with the failure flag set. *)
Definition failed_doc : YAML_Element := Eval vm_compute in doc_of (call 2000.5 1 false).

(** The same matrix seen from rank 3. *)
Definition matrix_rank3 : SparseMatrix :=
  matrix_on
    {| size := 8; rank := 3; numThreads := 1;
       nx := 16; ny := 16; nz := 16; npx := 2; npy := 2; npz := 2;
       stencilSize := 27; ipx := 1; ipy := 1; ipz := 0 |}.

End Sample.

(** ** [LogicalSparseMatrix] *)

Module Legion.
Import Num Hpcg.

(** The fourteen [LogicalArray] members of [LogicalSparseMatrix]. *)
Inductive Field :=
  | geoms | sclrs | nonzerosInRow | mtxIndG | mtxIndL | matrixValues
  | matrixDiagonal | localToGlobalMap | dcAllreduceSum | neighbors
  | sendLength | synchronizers | pullBEs | pullBuffer.

#[global] Instance Field_eq_dec : EqDecision Field.
Proof. solve_decision. Defined.

(** A cell of a region.  The bundle itself writes collective handles only. *)
Inductive Cell := Uninitialized | Handle (dc : DynamicCollective).

(** Modelled from the spec: [LegionArrays.hpp] is not among the sources.  A
    logical array is a one-dimensional storage region of known length that
    supports [allocate(length)], [partition(nParts)], producing [nParts]
    equal-sized disjoint sub-regions, and [deallocate].  [cells] is the
    region the array holds; [parts] is the number of its sub-regions. *)
Record LogicalArray := {
  cells : option (list Cell);
  parts : option Z
}.

(** Sub-region [i] of a partitioned array: its base and its extent. *)
Definition subregion (a : LogicalArray) (i : Z) : option (Z * Z) :=
  c ← cells a;
  n ← parts a;
  if (0 <=? i) && (i <? n)
  then let inc := Z.of_nat (length c) / n in Some (i * inc, inc)
  else None.

(** The calls that reach the runtime. *)
Inductive Call :=
  | CAllocate (f : Field) (len : Z)
  | CPartition (f : Field) (nParts : Z)
  | CDeallocate (f : Field)
  | CMapRegion (f : Field)
  | CUnmapRegion (f : Field)
  | CCreateDynamicCollective (dc : DynamicCollective).

(** The matrix bundle together with the runtime behind [ctx] and [lrt]. *)
Record World := {
  arrays : Field -> LogicalArray;
  launchDomain : option Z;
  calls : list Call;
  nextCollective : nat
}.

(** Stateful code that may run into undefined behaviour. *)
Definition M (A : Type) : Type := World -> option (A * World).

#[global] Instance M_ret : MRet M := fun A x w => Some (x, w).
#[global] Instance M_bind : MBind M := fun A B f m w =>
  match m w with
  | Some (x, w') => f x w'
  | None => None
  end.

Definition fault {A : Type} : M A := fun _ => None.

Definition call (c : Call) : M unit := fun w =>
  Some ((), {| arrays := arrays w; launchDomain := launchDomain w;
               calls := calls w ++ [c]; nextCollective := nextCollective w |}).

Definition get_array (f : Field) : M LogicalArray := fun w => Some (arrays w f, w).

Definition set_array (f : Field) (a : LogicalArray) : M unit := fun w =>
  Some ((), {| arrays := <[f := a]> (arrays w); launchDomain := launchDomain w;
               calls := calls w; nextCollective := nextCollective w |}).

Definition set_launchDomain (d : option Z) : M unit := fun w =>
  Some ((), {| arrays := arrays w; launchDomain := d;
               calls := calls w; nextCollective := nextCollective w |}).

(** [f.allocate(len, ctx, lrt)] *)
Definition LogicalArray_allocate (f : Field) (len : Z) : M unit :=
  call (CAllocate f len);;
  set_array f {| cells := Some (replicate (Z.to_nat len) Uninitialized);
                 parts := None |}.

(** [f.partition(nParts, ctx, lrt)] *)
Definition LogicalArray_partition (f : Field) (nParts : Z) : M unit :=
  call (CPartition f nParts);;
  a ← get_array f;
  set_array f {| cells := cells a; parts := Some nParts |}.

(** [f.deallocate(ctx, lrt)] *)
Definition LogicalArray_deallocate (f : Field) : M unit :=
  call (CDeallocate f);;
  set_array f {| cells := None; parts := None |}.

(** [f.mapRegion(RW_E, ctx, lrt)] and [Array::data()]: the cells of the
    region; a null pointer when the array holds no region. *)
Definition LogicalArray_mapRegion (f : Field) : M (list Cell) :=
  call (CMapRegion f);;
  a ← get_array f;
  match cells a with
  | Some c => mret c
  | None => fault
  end.

Definition LogicalArray_unmapRegion (f : Field) : M unit := call (CUnmapRegion f).

(** [lrt->create_dynamic_collective(ctx, nArrivals, redop, ...)]: a fresh
    handle. *)
Definition create_dynamic_collective (nArrivals : Z) (op : ReductionOp)
    : M DynamicCollective := fun w =>
  let dc := {| dcId := nextCollective w; nArrivals := nArrivals; redop := op |} in
  Some (dc, {| arrays := arrays w; launchDomain := launchDomain w;
               calls := calls w ++ [CCreateDynamicCollective dc];
               nextCollective := S (nextCollective w) |}).

(** Modelled from the spec: [getGlobalXYZ] is declared in [Geometry.hpp], which
    is not among the sources; it is the number of points of the global
    grid. *)
Definition getGlobalXYZ (geom : Geometry) : Z :=
  (npx geom * nx geom) * (npy geom * ny geom) * (npz geom * nz geom).

(** [LogicalSparseMatrix::allocate] (lines 192-232) *)
Definition allocate (geom : Geometry) : M unit :=
  let size := size geom in
  let globalXYZ := getGlobalXYZ geom in
  let stencilSize := stencilSize geom in
  (* [size] and [maxNumNeighbors] are [int]; the type of [globalXYZ] is that
     of the missing [getGlobalXYZ], so its products are left unwrapped. *)
  LogicalArray_allocate geoms size;;
  LogicalArray_allocate sclrs size;;
  LogicalArray_allocate nonzerosInRow globalXYZ;;
  LogicalArray_allocate mtxIndG (globalXYZ * stencilSize);;
  LogicalArray_allocate mtxIndL (globalXYZ * stencilSize);;
  LogicalArray_allocate matrixValues (globalXYZ * stencilSize);;
  LogicalArray_allocate matrixDiagonal globalXYZ;;
  LogicalArray_allocate localToGlobalMap globalXYZ;;
  LogicalArray_allocate dcAllreduceSum size;;
  let maxNumNeighbors := wrap_int (stencilSize - 1) in
  LogicalArray_allocate neighbors (wrap_int (size * maxNumNeighbors));;
  LogicalArray_allocate sendLength (wrap_int (size * maxNumNeighbors));;
  LogicalArray_allocate synchronizers size;;
  LogicalArray_allocate pullBEs (wrap_int (size * maxNumNeighbors));;
  LogicalArray_allocate pullBuffer globalXYZ.

(** The loop of lines 313-315: [dcsd[i] = dc] for [i] up to [nArrivals]; a
    write past the end of the region is undefined. *)
Fixpoint replicate_handle (n : nat) (i : nat) (dc : DynamicCollective)
    (dcsd : list Cell) : option (list Cell) :=
  match n with
  | O => Some dcsd
  | S n' =>
      if decide (i < length dcsd)%nat
      then replicate_handle n' (S i) dc (<[i := Handle dc]> dcsd)
      else None
  end.

(** [LogicalSparseMatrix::mPopulateDynamicCollectives] (lines 294-318) *)
Definition mPopulateDynamicCollectives (nArrivals : Z) : M unit :=
  dcs ← LogicalArray_mapRegion dcAllreduceSum;
  dc ← create_dynamic_collective nArrivals INT_REDUCE_SUM_TID;
  match replicate_handle (Z.to_nat nArrivals) 0 dc dcs with
  | Some dcs' =>
      a ← get_array dcAllreduceSum;
      set_array dcAllreduceSum {| cells := Some dcs'; parts := parts a |};;
      LogicalArray_unmapRegion dcAllreduceSum
  | None => fault
  end.

(** [LogicalSparseMatrix::partition] (lines 237-264) *)
Definition partition (nParts : Z) : M unit :=
  LogicalArray_partition geoms nParts;;
  LogicalArray_partition sclrs nParts;;
  LogicalArray_partition nonzerosInRow nParts;;
  LogicalArray_partition mtxIndG nParts;;
  LogicalArray_partition mtxIndL nParts;;
  LogicalArray_partition matrixValues nParts;;
  LogicalArray_partition matrixDiagonal nParts;;
  LogicalArray_partition localToGlobalMap nParts;;
  LogicalArray_partition dcAllreduceSum nParts;;
  LogicalArray_partition neighbors nParts;;
  LogicalArray_partition sendLength nParts;;
  LogicalArray_partition synchronizers nParts;;
  LogicalArray_partition pullBEs nParts;;
  LogicalArray_partition pullBuffer nParts;;
  mPopulateDynamicCollectives nParts;;
  a ← get_array geoms;
  set_launchDomain (parts a).

(** [LogicalSparseMatrix::deallocate] (lines 269-291) *)
Definition deallocate : M unit :=
  LogicalArray_deallocate geoms;;
  LogicalArray_deallocate sclrs;;
  LogicalArray_deallocate mtxIndG;;
  LogicalArray_deallocate mtxIndL;;
  LogicalArray_deallocate nonzerosInRow;;
  LogicalArray_deallocate matrixValues;;
  LogicalArray_deallocate matrixDiagonal;;
  LogicalArray_deallocate localToGlobalMap;;
  LogicalArray_deallocate dcAllreduceSum;;
  LogicalArray_deallocate neighbors;;
  LogicalArray_deallocate sendLength;;
  LogicalArray_deallocate synchronizers;;
  LogicalArray_deallocate pullBEs;;
  LogicalArray_deallocate pullBEs.

(** A freshly constructed bundle: no array holds a region. *)
Definition new_world : World :=
  {| arrays := fun _ => {| cells := None; parts := None |};
     launchDomain := None; calls := []; nextCollective := O |}.

(** The state a computation leaves. *)
Definition exec_from {A : Type} (m : M A) (w : World) : option World :=
  snd <$> m w.

(** Observations on the calls. *)
Definition allocated_fields (cs : list Call) : list Field :=
  omap (fun c => match c with CAllocate f _ => Some f | _ => None end) cs.

Definition deallocated_fields (cs : list Call) : list Field :=
  omap (fun c => match c with CDeallocate f => Some f | _ => None end) cs.

Definition partitioned_fields (cs : list Call) : list (Field * Z) :=
  omap (fun c => match c with CPartition f n => Some (f, n) | _ => None end) cs.

Definition created_collectives (cs : list Call) : list DynamicCollective :=
  omap (fun c => match c with CCreateDynamicCollective dc => Some dc | _ => None end) cs.

(** The calls a computation adds when it is run from [w]. *)
Definition calls_of {A : Type} (m : M A) (w : World) : list Call :=
  match m w with
  | Some (_, w') => drop (length (calls w)) (calls w')
  | None => []
  end.

(** How often [f] occurs in a list of members. *)
Definition occurrences (f : Field) (l : list Field) : nat :=
  length (filter (fun g => g = f) l).

(** A single rank with 2x2x2 points. *)
Definition small_geometry : Geometry :=
  {| size := 1; rank := 0; numThreads := 1;
     nx := 2; ny := 2; nz := 2; npx := 1; npy := 1; npz := 1;
     stencilSize := 27; ipx := 0; ipy := 0; ipz := 0 |}.

(** The twelve members [deallocate] releases first, in its order. *)
Definition released_in_order : list Field :=
  [ geoms; sclrs; mtxIndG; mtxIndL; nonzerosInRow; matrixValues; matrixDiagonal;
    localToGlobalMap; dcAllreduceSum; neighbors; sendLength; synchronizers ].

(** The members in the order [allocate] allocates them. *)
Definition allocation_order : list Field :=
  [ geoms; sclrs; nonzerosInRow; mtxIndG; mtxIndL; matrixValues; matrixDiagonal;
    localToGlobalMap; dcAllreduceSum; neighbors; sendLength; synchronizers;
    pullBEs; pullBuffer ].

End Legion.

(** ** [PopulateGlobalToLocalMap] *)

Module GlobalToLocal.
Import Num Hpcg.

(** The members of the task-side [SparseMatrix] that
    [PopulateGlobalToLocalMap] touches. *)
Record SparseMatrix := {
  geom : Geometry;
  globalToLocalMap : gmap Z Z
}.

Section Widths.
(** The widths of [local_int_t] and [global_int_t]; their typedefs are in a
    header that is not among the sources. *)
Variables local_bits global_bits : Z.

Definition to_local (z : Z) : Z := wrap local_bits z.
Definition to_global (z : Z) : Z := wrap global_bits z.

(** Lines 509-536.  The arithmetic is done in [global_int_t]; wrapping every
    intermediate result is wrapping the final one.  A loop
    [for (local_int_t i = 0; i < n; i++)] visits [0, 1, ..., n-1]. *)
Definition PopulateGlobalToLocalMap (A : SparseMatrix) : SparseMatrix :=
  let Ageom := geom A in
  let nx := nx Ageom in
  let ny := ny Ageom in
  let nz := nz Ageom in
  let npx := npx Ageom in
  let npy := npy Ageom in
  let ipx := ipx Ageom in
  let ipy := ipy Ageom in
  let ipz := ipz Ageom in
  let gnx := to_global (nx * npx) in
  let gny := to_global (ny * npy) in
  let globalToLocalMap :=
    foldl (fun globalToLocalMap iz =>
      let giz := to_global (ipz * nz + iz) in
      foldl (fun globalToLocalMap iy =>
        let giy := to_global (ipy * ny + iy) in
        foldl (fun globalToLocalMap ix =>
          let gix := to_global (ipx * nx + ix) in
          let currentLocalRow := to_local (to_global (iz * nx * ny + iy * nx + ix)) in
          let currentGlobalRow := to_global (giz * gnx * gny + giy * gnx + gix) in
          <[currentGlobalRow := currentLocalRow]> globalToLocalMap)
        globalToLocalMap (seqZ 0 nx))
      globalToLocalMap (seqZ 0 ny))
    (globalToLocalMap A) (seqZ 0 nz) in
  {| geom := Ageom; globalToLocalMap := globalToLocalMap |}.

(** The pair [(currentGlobalRow, currentLocalRow)] the loop body computes at
    the point [(ix, iy, iz)]. *)
Definition row_entry (Ageom : Geometry) (p : Z * Z * Z) : Z * Z :=
  let '(ix, iy, iz) := p in
  let gnx := to_global (nx Ageom * npx Ageom) in
  let gny := to_global (ny Ageom * npy Ageom) in
  let giz := to_global (ipz Ageom * nz Ageom + iz) in
  let giy := to_global (ipy Ageom * ny Ageom + iy) in
  let gix := to_global (ipx Ageom * nx Ageom + ix) in
  (to_global (giz * gnx * gny + giy * gnx + gix),
   to_local (to_global (iz * nx Ageom * ny Ageom + iy * nx Ageom + ix))).

End Widths.

(** The row indexing the specification states: the global row and the local
    row of the local point [(ix, iy, iz)]. *)
Definition global_row (g : Geometry) (ix iy iz : Z) : Z :=
  (ipz g * nz g + iz) * (nx g * npx g) * (ny g * npy g)
  + (ipy g * ny g + iy) * (nx g * npx g)
  + (ipx g * nx g + ix).

Definition local_row (g : Geometry) (ix iy iz : Z) : Z :=
  iz * nx g * ny g + iy * nx g + ix.

(** The local row of a point in a box with [X] by [Y] points per plane. *)
Definition row_in (X Y : Z) (p : Z * Z * Z) : Z := p.2 * X * Y + p.1.2 * X + p.1.1.

(** [globalToLocalMap[p.1] = p.2] *)
Definition insert_entry (m : gmap Z Z) (p : Z * Z) : gmap Z Z := <[p.1 := p.2]> m.

(** The local points in the order the loops visit them. *)
Definition local_points (g : Geometry) : list (Z * Z * Z) :=
  iz ← seqZ 0 (nz g); iy ← seqZ 0 (ny g); ix ← seqZ 0 (nx g); [(ix, iy, iz)].

(** A rank of a process grid: its coordinates lie inside the grid. *)
Definition in_grid (g : Geometry) : Prop :=
  0 <= nx g /\ 0 <= ny g /\ 0 <= nz g
  /\ 0 <= ipx g < npx g /\ 0 <= ipy g < npy g /\ 0 <= ipz g < npz g.

(** The local rows fit [local_int_t] and the global rows fit
    [global_int_t]. *)
Definition representable (local_bits global_bits : Z) (g : Geometry) : Prop :=
  0 < local_bits /\ 0 < global_bits
  /\ nx g * ny g * nz g < 2 ^ (local_bits - 1)
  /\ (nx g * npx g) * (ny g * npy g) * (nz g * npz g) < 2 ^ (global_bits - 1).

(** The task on rank (1, 0, 1) of a 2x2x2 grid with 4x3x2 points per rank. *)
Definition sample_matrix : SparseMatrix :=
  {| geom := {| size := 8; rank := 5; numThreads := 1;
                nx := 4; ny := 3; nz := 2; npx := 2; npy := 2; npz := 2;
                stencilSize := 27; ipx := 1; ipy := 0; ipz := 1 |};
     globalToLocalMap := ∅ |}.

End GlobalToLocal.

(** ** The writes of the memory-bandwidth model, level by level *)

Module Bandwidth.
Import Num Hpcg Report.

Local Open Scope float_scope.

(** The levels a loop [for (int i = 1; i < numberOfMgLevels; ++i)] of the
    models visits from [A] on, each with its multigrid data, and the level
    the loop ends on. *)
Fixpoint visited_levels (k : nat) (A : SparseMatrix)
    : option (list (SparseMatrix * MGData) * SparseMatrix) :=
  match k with
  | O => Some ([], A)
  | S k' =>
      mg ← mgData A;
      Ac_ ← Ac A;
      '(levels, coarsest) ← visited_levels k' Ac_;
      Some ((A, mg) :: levels, coarsest)
  end.

(** The writes the specification names: those of the fine-grid residual
    calculation on level [Af], [fniters * fnnz_Af * sizeof(double)]. *)
Definition residual_writes (fniters : float) (Af : SparseMatrix) : float :=
  fniters * double_of_Z (totalNumberOfNonzeros (sclrs Af)) * double_of_Z sizeof_double.

(** The writes of the presmoother and of the postsmoother on level [Af]
    (lines 180 and 184). *)
Definition presmoother_writes (fniters : float) (Af : SparseMatrix) (mg : MGData)
    : float :=
  double_of_Z (numberOfPresmootherSteps mg) * fniters
  * double_of_Z (totalNumberOfRows (sclrs Af)) * double_of_Z sizeof_double.

Definition postsmoother_writes (fniters : float) (Af : SparseMatrix) (mg : MGData)
    : float :=
  double_of_Z (numberOfPostsmootherSteps mg) * fniters
  * double_of_Z (totalNumberOfNonzeros (sclrs Af)) * double_of_Z sizeof_double.

(** One level's writes added to the running count, in the order of the
    three [+=] of the loop body. *)
Definition charge_level (fniters : float) (writes : float)
    (level : SparseMatrix * MGData) : float :=
  writes + presmoother_writes fniters level.1 level.2
  + residual_writes fniters level.1
  + postsmoother_writes fniters level.1 level.2.

(** The writes charged to the visited levels, finest first. *)
Definition charged_writes (fniters : float) (levels : list (SparseMatrix * MGData))
    : float :=
  foldl (charge_level fniters) 0 levels.

End Bandwidth.

(** ** Reading the report *)

Module Reading.
Import Num Yaml Hpcg Report.

(** The sections that carry the result of a test. *)
Definition SpectralConvergence : string := "Spectral Convergence Tests".
Definition IterationCount : string := "Iteration Count Information".
Definition Reproducibility : string := "Reproducibility Information".

Definition test_sections : list (list string) :=
  [ [SpectralConvergence]; [DepartureFromSymmetry]; [IterationCount];
    [Reproducibility] ].

(** The two listings of the coarse grids. *)
Definition coarse_grids_listing : list string :=
  ["Multigrid Information"; "Coarse Grids"].
Definition coarse_memory_listing : list string :=
  ["Memory Use Information"; "Coarse Grids"].

(** The values of the entries with key [k], in order. *)
Definition values_of (k : string) (l : list (string * YamlValue)) : list YamlValue :=
  snd <$> filter (fun kv => kv.1 = k) l.

(** The matrices below [A], finest first, as far as [k] levels down. *)
Fixpoint coarse_levels (k : nat) (A : SparseMatrix) : list SparseMatrix :=
  match k with
  | O => []
  | S k' =>
      match Ac A with
      | Some Ac_ => Ac_ :: coarse_levels k' Ac_
      | None => []
      end
  end.

(** The timers [ReportResults] reads. *)
Definition timers_read : list nat := [0; 1; 2; 3; 4; 5; 7; 8; 9]%nat.

(** The timers of [times_with], with another halo-exchange time and a timer
    more. *)
Definition other_times (total : float) : list float :=
  [total; 1.5; 2.0; 3.0; 0.5; 5.0; 6.25; 7.0; 8.0; 9.0; 10.0]%float.

(** The sample matrix with the optimized dot product and sparse
    matrix-vector product. *)
Definition tuned_matrix : SparseMatrix :=
  let A := Sample.matrix in
  {| geom := geom A; sclrs := sclrs A; mgData := mgData A; Ac := Ac A;
     isDotProductOptimized := true; isSpmvOptimized := true;
     isMgOptimized := false; isWaxpbyOptimized := false;
     dcAllRedMinFT := dcAllRedMinFT A; dcAllRedMaxFT := dcAllRedMaxFT A;
     dcAllRedSumFT := dcAllRedSumFT A |}.

End Reading.

(** ** The life of a matrix bundle *)

Module Lifecycle.
Import Num Hpcg Legion.

(** The arrays with one cell per rank. *)
Definition per_rank_items : list Field :=
  [ geoms; sclrs; dcAllreduceSum; synchronizers ].

(** The arrays with [stencilSize - 1] cells per rank, one per possible
    neighbour. *)
Definition per_neighbor_arrays : list Field :=
  [ neighbors; sendLength; pullBEs ].

(** The arrays with one cell per row. *)
Definition per_row_arrays : list Field :=
  [ nonzerosInRow; matrixDiagonal; localToGlobalMap; pullBuffer ].

(** The arrays flattened from two dimensions: [stencilSize] cells per row. *)
Definition flattened_arrays : list Field :=
  [ mtxIndG; mtxIndL; matrixValues ].

(** The number of cells of the region an array holds. *)
Definition extent_of (a : LogicalArray) : option Z :=
  c ← cells a; Some (Z.of_nat (length c)).

(** Four ranks in a 2x2x1 grid with 2x2x2 points each. *)
Definition four_ranks : Geometry :=
  {| size := 4; rank := 0; numThreads := 1;
     nx := 2; ny := 2; nz := 2; npx := 2; npy := 2; npz := 1;
     stencilSize := 27; ipx := 0; ipy := 0; ipz := 0 |}.

End Lifecycle.

(** ** The task-side matrix of [LegionMatrices.hpp]

    A task receives the arrays of the bundle as physical regions and wraps
    them in a [SparseMatrix] (lines 325-485). *)

Module Task.

(** [LogicalSparseMatrix::mPopulateRegionList] (lines 161-179): the arrays
    handed to a task, in packing order, and the arrays passed without
    access. *)
Definition mPopulateRegionList : list Legion.Field * list Legion.Field :=
  ([ Legion.geoms; Legion.sclrs; Legion.nonzerosInRow; Legion.mtxIndG;
     Legion.mtxIndL; Legion.matrixValues; Legion.matrixDiagonal;
     Legion.localToGlobalMap; Legion.dcAllreduceSum; Legion.neighbors;
     Legion.sendLength; Legion.synchronizers; Legion.pullBEs ],
   [ Legion.pullBuffer ]).

Definition mLogicalItems : list Legion.Field := mPopulateRegionList.1.
Definition mLogicalItemsNoAccess : list Legion.Field := mPopulateRegionList.2.

(** [ItemFlags] is declared in a header that is not among the sources; the
    constructors pass [NADA] or the caller's flags. *)
Inductive ItemFlags := NADA | Flags (bits : Z).

(** Modelled from the spec: a task receives physical sub-regions as
    arguments, borrowed views of a logical array.  [view_of] is the array
    the region is a view of, [data] the address its accessor yields, null
    when there is no storage behind the view. *)
Record PhysicalRegion := {
  view_of : Legion.Field;
  data : option Z
}.

(** The objects on the free store: the [Item] and [Array] wrappers around a
    region, and task-local arrays of integers. *)
Inductive Object := Wrapper (r : PhysicalRegion) | LocalInts (n : Z).

Abbreviation Heap := (gmap nat Object).

(** The thirteen members of [SparseMatrix] that point to a wrapper. *)
Inductive Member :=
  | geom | sclrs | nonzerosInRow | mtxIndG | mtxIndL | matrixValues
  | matrixDiagonal | localToGlobalMap | dcAllreduceSum | neighbors
  | sendLength | synchronizers | pullBEs.

#[global] Instance Member_eq_dec : EqDecision Member.
Proof. solve_decision. Defined.

(** The array of the bundle a member is named after. *)
Definition array_of (m : Member) : Legion.Field :=
  match m with
  | geom => Legion.geoms
  | sclrs => Legion.sclrs
  | nonzerosInRow => Legion.nonzerosInRow
  | mtxIndG => Legion.mtxIndG
  | mtxIndL => Legion.mtxIndL
  | matrixValues => Legion.matrixValues
  | matrixDiagonal => Legion.matrixDiagonal
  | localToGlobalMap => Legion.localToGlobalMap
  | dcAllreduceSum => Legion.dcAllreduceSum
  | neighbors => Legion.neighbors
  | sendLength => Legion.sendLength
  | synchronizers => Legion.synchronizers
  | pullBEs => Legion.pullBEs
  end.

(** The pointer members of [SparseMatrix] and the two members of its base
    that [mUnpack] sets.  A null pointer is [None]. *)
Record SparseMatrix := {
  ptr : Member -> option nat;
  elementsToSend : option nat;
  mNRegionEntries : nat;
  mUnpackFlags : ItemFlags
}.

(** The members as their initialisers leave them (lines 327-360). *)
Definition blank : SparseMatrix :=
  {| ptr := fun _ => None; elementsToSend := None;
     mNRegionEntries := 0; mUnpackFlags := NADA |}.

(** Code that allocates and frees and may run into undefined behaviour. *)
Definition T (A : Type) : Type := Heap -> option (A * Heap).

#[global] Instance T_ret : MRet T := fun A x h => Some (x, h).
#[global] Instance T_bind : MBind T := fun A B f m h =>
  match m h with
  | Some (x, h') => f x h'
  | None => None
  end.

(** [new]: an address that is not in use. *)
Definition new_object (o : Object) : T nat := fun h =>
  let a := fresh (dom h) in Some (a, <[a := o]> h).

(** [delete p]: nothing for a null pointer; undefined when [p] does not point
    to a live object. *)
Definition delete_pointer (p : option nat) : T unit := fun h =>
  match p with
  | None => Some ((), h)
  | Some a =>
      match h !! a with
      | Some _ => Some ((), delete a h)
      | None => None
      end
  end.

Definition set_member (m : Member) (p : option nat) (A : SparseMatrix)
    : SparseMatrix :=
  {| ptr := <[m := p]> (ptr A); elementsToSend := elementsToSend A;
     mNRegionEntries := mNRegionEntries A; mUnpackFlags := mUnpackFlags A |}.

(** [m = new ...(regions[cid++], ctx, rt)]; reading past the end of
    [regions] is undefined. *)
Definition unpack_into (regions : list PhysicalRegion) (m : Member)
    (s : nat * SparseMatrix) : T (nat * SparseMatrix) := fun h =>
  let '(cid, A) := s in
  match regions !! cid with
  | Some r =>
      match new_object (Wrapper r) h with
      | Some (p, h') => Some ((S cid, set_member m (Some p) A), h')
      | None => None
      end
  | None => None
  end.

(** [SparseMatrix::mUnpack] (lines 422-464) *)
Definition mUnpack (regions : list PhysicalRegion) (baseRID : nat)
    (iFlags : ItemFlags) (A : SparseMatrix) : T SparseMatrix :=
  let cid := baseRID in
  s ← unpack_into regions geom (cid, A);
  s ← unpack_into regions sclrs s;
  s ← unpack_into regions nonzerosInRow s;
  s ← unpack_into regions mtxIndG s;
  s ← unpack_into regions mtxIndL s;
  s ← unpack_into regions matrixValues s;
  s ← unpack_into regions matrixDiagonal s;
  s ← unpack_into regions localToGlobalMap s;
  s ← unpack_into regions dcAllreduceSum s;
  s ← unpack_into regions neighbors s;
  s ← unpack_into regions sendLength s;
  s ← unpack_into regions synchronizers s;
  s ← unpack_into regions pullBEs s;
  (* [if (withGhosts(iFlags)) { }]: nothing to do *)
  let '(cid, A) := s in
  mret {| ptr := ptr A; elementsToSend := elementsToSend A;
          mNRegionEntries := cid - baseRID; mUnpackFlags := iFlags |}.

(** [assert(m->data())] *)
Definition assert_data (A : SparseMatrix) (m : Member) : T unit := fun h =>
  match ptr A m with
  | Some a =>
      match h !! a with
      | Some (Wrapper r) =>
          match data r with
          | Some _ => Some ((), h)
          | None => None
          end
      | _ => None
      end
  | None => None
  end.

(** [SparseMatrix::mVerifyUnpack] (lines 469-484) *)
Definition mVerifyUnpack (A : SparseMatrix) : T unit :=
  assert_data A geom;;
  assert_data A sclrs;;
  assert_data A nonzerosInRow;;
  assert_data A mtxIndG;;
  assert_data A mtxIndL;;
  assert_data A matrixValues;;
  assert_data A matrixDiagonal;;
  assert_data A localToGlobalMap;;
  assert_data A dcAllreduceSum;;
  assert_data A neighbors;;
  assert_data A sendLength;;
  assert_data A synchronizers;;
  assert_data A pullBEs.

(** The constructors of lines 372-395; the first passes [NADA]. *)
Definition SparseMatrix_from (regions : list PhysicalRegion) (baseRID : nat)
    (iFlags : ItemFlags) : T SparseMatrix :=
  A ← mUnpack regions baseRID iFlags blank;
  mVerifyUnpack A;;
  mret A.

(** [SparseMatrix::~SparseMatrix] (lines 400-416) *)
Definition destroy (A : SparseMatrix) : T unit :=
  delete_pointer (ptr A geom);;
  delete_pointer (ptr A sclrs);;
  delete_pointer (ptr A nonzerosInRow);;
  delete_pointer (ptr A mtxIndG);;
  delete_pointer (ptr A mtxIndL);;
  delete_pointer (ptr A matrixValues);;
  delete_pointer (ptr A matrixDiagonal);;
  delete_pointer (ptr A localToGlobalMap);;
  delete_pointer (ptr A dcAllreduceSum);;
  delete_pointer (ptr A neighbors);;
  delete_pointer (ptr A sendLength);;
  delete_pointer (ptr A synchronizers);;
  match elementsToSend A with
  | Some a => delete_pointer (Some a)
  | None => mret ()
  end.

(** The members in the order [mUnpack] sets them. *)
Definition unpack_order : list Member :=
  [ geom; sclrs; nonzerosInRow; mtxIndG; mtxIndL; matrixValues; matrixDiagonal;
    localToGlobalMap; dcAllreduceSum; neighbors; sendLength; synchronizers;
    pullBEs ].

(** The regions of the arrays [fs], all mapped. *)
Definition views_of (fs : list Legion.Field) : list PhysicalRegion :=
  (fun f => {| view_of := f; data := Some 4096 |}) <$> fs.

(** The regions a task of the bundle gets after two regions of its own. *)
Definition sample_regions : list PhysicalRegion :=
  views_of ([Legion.geoms; Legion.sclrs] ++ mLogicalItems).

End Task.

(** ** The row maps of the ranks of one run

    [PopulateGlobalToLocalMap] runs once on every task; the definitions below
    relate the maps of different ranks of the same process grid. *)

Module Decomposition.
Import Num Hpcg GlobalToLocal.

(** Two ranks of one run: the same points per rank and the same process
    grid; only the rank and its coordinates differ. *)
Definition same_grid (g g' : Geometry) : Prop :=
  nx g = nx g' /\ ny g = ny g' /\ nz g = nz g'
  /\ npx g = npx g' /\ npy g = npy g' /\ npz g = npz g'.

(** The number of rows of the global problem. *)
Definition global_rows (g : Geometry) : Z :=
  (nx g * npx g) * (ny g * npy g) * (nz g * npz g).

(** The map a task builds from scratch. *)
Definition fresh_map (local_bits global_bits : Z) (g : Geometry) : gmap Z Z :=
  globalToLocalMap
    (PopulateGlobalToLocalMap local_bits global_bits
       {| geom := g; globalToLocalMap := ∅ |}).

(** The rank of geometry [g] holds the global row [row]. *)
Definition owns (local_bits global_bits : Z) (g : Geometry) (row : Z) : Prop :=
  is_Some (fresh_map local_bits global_bits g !! row).

(** The pairs (global row, local row) of the local points, in visiting
    order. *)
Definition row_pairs (g : Geometry) : list (Z * Z) :=
  (fun p : Z * Z * Z => (global_row g p.1.1 p.1.2 p.2,
                         local_row g p.1.1 p.1.2 p.2)) <$> local_points g.

(** The geometry of the rank at the coordinates [(cx, cy, cz)] of the grid
    of [g]. *)
Definition at_coordinates (g : Geometry) (cx cy cz : Z) : Geometry :=
  {| size := size g; rank := cx + cy * npx g + cz * npx g * npy g;
     numThreads := numThreads g;
     nx := nx g; ny := ny g; nz := nz g;
     npx := npx g; npy := npy g; npz := npz g;
     stencilSize := stencilSize g; ipx := cx; ipy := cy; ipz := cz |}.

(** [sample_matrix] with entries left from an earlier use. *)
Definition stale_matrix : SparseMatrix :=
  {| geom := geom sample_matrix;
     globalToLocalMap := {[ 1000 := 77; 157 := 3 ]} |}.

(** A rank whose sub-domain has no points in the y direction. *)
Definition flat_matrix : SparseMatrix :=
  {| geom := {| size := 8; rank := 5; numThreads := 1;
                nx := 4; ny := 0; nz := 2; npx := 2; npy := 2; npz := 2;
                stencilSize := 27; ipx := 1; ipy := 0; ipz := 1 |};
     globalToLocalMap := {[ 7 := 1 ]} |}.

End Decomposition.

(** * Properties *)

(** ** The YAML tree: what a run of statements leaves *)

Module YamlFacts.
Import Yaml.

Lemma find_app_Some {A} (P : A -> bool) (l l' : list A) (x : A) :
  List.find P l = Some x -> List.find P (l ++ l') = Some x.
Proof.
  induction l as [|a l IH]; simpl; [done|].
  destruct (P a); auto.
Qed.

Lemma find_app_None {A} (P : A -> bool) (l l' : list A) :
  List.find P l = None -> List.find P (l ++ l') = List.find P l'.
Proof.
  induction l as [|a l IH]; simpl; [done|].
  destruct (P a); [done|auto].
Qed.

Lemma has_key_true k c : has_key k c = true <-> key c = k.
Proof. unfold has_key. apply String.eqb_eq. Qed.

Lemma has_key_false k c : has_key k c = false <-> key c <> k.
Proof. unfold has_key. apply String.eqb_neq. Qed.

Lemma find_has_key_None k (cs : list YAML_Element) :
  k ∉ (entry <$> cs).*1 -> List.find (has_key k) cs = None.
Proof.
  induction cs as [|c cs IH]; simpl; [done|].
  intros Hn. rewrite not_elem_of_cons in Hn. destruct Hn as [Hk Hn].
  destruct (has_key k c) eqn:E.
  - apply has_key_true in E. simpl in Hk. congruence.
  - auto.
Qed.

Lemma find_has_key_Some k (cs : list YAML_Element) c :
  List.find (has_key k) cs = Some c -> key c = k /\ k ∈ (entry <$> cs).*1.
Proof.
  induction cs as [|a cs IH]; simpl; [done|].
  destruct (has_key k a) eqn:E.
  - intros [= <-]. apply has_key_true in E. split; [done|]. subst. left.
  - intros H. destruct (IH H) as [? ?]. split; [done|]. by right.
Qed.

Lemma add_keeps_entry k v : keeps_entry (fun e => Some (add k v e)).
Proof. intros x y [= <-]. reflexivity. Qed.

Lemma at_path_keeps_entry p f : keeps_entry f -> keeps_entry (at_path p f).
Proof.
  intros Hf x y. destruct p as [|k p]; simpl; [apply Hf|].
  destruct (update_first k (at_path p f) (children x)); simpl; [|done].
  by intros [= <-].
Qed.

Lemma update_first_inv k f cs cs' :
  keeps_entry f ->
  update_first k f cs = Some cs' ->
  entry <$> cs' = entry <$> cs
  /\ (forall k', k' <> k -> List.find (has_key k') cs' = List.find (has_key k') cs)
  /\ exists c c', List.find (has_key k) cs = Some c /\ f c = Some c'
                  /\ List.find (has_key k) cs' = Some c'.
Proof.
  intros Hf. revert cs'. induction cs as [|a cs IH]; intros cs'; simpl; [done|].
  destruct (has_key k a) eqn:E.
  - destruct (f a) as [a'|] eqn:Fa; simpl; [|done]. intros [= <-].
    pose proof (Hf _ _ Fa) as He.
    assert (key a' = key a) as Hk by (by injection He).
    apply has_key_true in E.
    split; [rewrite !fmap_cons; by rewrite He|]. split.
    + intros k' Hne. simpl.
      assert (has_key k' a' = false) as -> by (apply has_key_false; congruence).
      assert (has_key k' a = false) as -> by (apply has_key_false; congruence).
      done.
    + exists a, a'. split; [done|]. split; [done|]. simpl.
      assert (has_key k a' = true) as -> by (apply has_key_true; congruence).
      done.
  - destruct (update_first k f cs) as [cs''|] eqn:U; simpl; [|done]. intros [= <-].
    destruct (IH _ eq_refl) as (He & Hother & c & c' & Hc & Hfc & Hc').
    split; [rewrite !fmap_cons; by rewrite He|]. split.
    + intros k' Hne. simpl. destruct (has_key k' a); [done|]. by apply Hother.
    + exists c, c'. simpl. rewrite E. done.
Qed.

Lemma update_first_is_Some k f cs c :
  List.find (has_key k) cs = Some c -> is_Some (f c) -> is_Some (update_first k f cs).
Proof.
  induction cs as [|a cs IH]; simpl; [done|].
  destruct (has_key k a).
  - intros [= <-] [c' ->]. by eexists.
  - intros H1 H2. destruct (IH H1 H2) as [cs' ->]. by eexists.
Qed.

Lemma resolve_app p q e :
  resolve (p ++ q) e = e' ← resolve p e; resolve q e'.
Proof.
  revert e. induction p as [|k p IH]; intros e; simpl; [done|].
  destruct (get k e); simpl; auto.
Qed.

Lemma entries_add k v e : entries (add k v e) = entries e ++ [(k, v)].
Proof. unfold entries, add. simpl. by rewrite fmap_app. Qed.

(** One statement: a path that led somewhere still does, and the element it
    leads to has gained an entry exactly when it is the statement's path. *)
Lemma exec_resolve q k v d d' p e :
  at_path q (fun x => Some (add k v x)) d = Some d' ->
  resolve p d = Some e ->
  exists e', resolve p d' = Some e'
    /\ (p = q -> e' = add k v e)
    /\ (p <> q -> entries e' = entries e).
Proof.
  revert d d' p e. induction q as [|kq q IH]; intros d d' p e; simpl.
  - intros [= <-]. destruct p as [|kp p]; simpl.
    + intros [= <-]. eexists. split; [done|]. split; [done|]. by intros [].
    + destruct (get kp d) as [c|] eqn:G; simpl; [|done]. intros Hr.
      exists e. unfold get in *. simpl. rewrite (find_app_Some _ _ _ _ G). simpl.
      split; [done|]. split; [done|]. done.
  - destruct (update_first kq _ (children d)) as [cs|] eqn:U; simpl; [|done].
    intros [= <-].
    apply update_first_inv in U; [|apply at_path_keeps_entry, add_keeps_entry].
    destruct U as (He & Hother & c & c' & Hc & Hfc & Hc').
    destruct p as [|kp p]; simpl.
    + intros [= <-]. eexists. split; [done|]. split; [done|].
      intros _. unfold entries. simpl. done.
    + unfold get. simpl. destruct (decide (kp = kq)) as [->|Hne].
      * rewrite Hc, Hc'. simpl. intros Hr.
        destruct (IH _ _ _ _ Hfc Hr) as (e' & Hr' & Heq & Hneq).
        exists e'. split; [done|]. split.
        -- intros [= ->]. auto.
        -- intros Hpq. apply Hneq. congruence.
      * rewrite (Hother _ Hne).
        destruct (List.find (has_key kp) (children d)) as [x|]; simpl; [|done].
        intros Hr. exists e. split; [done|]. split; [congruence|done].
Qed.

Lemma exec_is_Some q f d e :
  resolve q d = Some e -> is_Some (f e) -> is_Some (at_path q f d).
Proof.
  revert d. induction q as [|kq q IH]; intros d; simpl.
  - by intros [= <-].
  - destruct (get kq d) as [c|] eqn:G; simpl; [|done]. intros Hr Hf.
    destruct (update_first_is_Some kq (at_path q f) (children d) c G (IH _ Hr Hf))
      as [cs ->].
    by eexists.
Qed.

Lemma exec_Some_resolve q f d d' :
  keeps_entry f -> at_path q f d = Some d' -> is_Some (resolve q d).
Proof.
  intros Hf. revert d d'. induction q as [|kq q IH]; intros d d'; simpl; [by eexists|].
  destruct (update_first kq _ (children d)) as [cs|] eqn:U; simpl; [|done].
  intros _. apply update_first_inv in U; [|by apply at_path_keeps_entry].
  destruct U as (_ & _ & c & c' & Hc & Hfc & _).
  unfold get. rewrite Hc. simpl. eauto.
Qed.

Lemma adds_at_cons p s ss :
  adds_at p (s :: ss)
  = (if decide (path s = p) then [(akey s, aval s)] else []) ++ adds_at p ss.
Proof.
  unfold adds_at. rewrite filter_cons. by destruct (decide (path s = p)).
Qed.

Lemma adds_at_app p ss1 ss2 : adds_at p (ss1 ++ ss2) = adds_at p ss1 ++ adds_at p ss2.
Proof. unfold adds_at. by rewrite list.filter_app, fmap_app. Qed.

Lemma adds_at_nil p ss : Forall (fun s => path s <> p) ss -> adds_at p ss = [].
Proof.
  induction 1 as [|s ss Hs _ IH]; [done|].
  rewrite adds_at_cons, IH. by destruct (decide (path s = p)).
Qed.

Lemma run_app ss1 ss2 d : run (ss1 ++ ss2) d = d' ← run ss1 d; run ss2 d'.
Proof.
  revert d. induction ss1 as [|s ss1 IH]; intros d; simpl; [done|].
  destruct (exec s d); simpl; auto.
Qed.

(** A run of statements: below a path that led somewhere, the entries are the
    old ones followed by what the statements add there, in program order. *)
Lemma run_resolve ss d d' p e :
  run ss d = Some d' ->
  resolve p d = Some e ->
  exists e', resolve p d' = Some e' /\ entries e' = entries e ++ adds_at p ss.
Proof.
  revert d e. induction ss as [|s ss IH]; intros d e; simpl.
  - intros [= <-] Hr. exists e. by rewrite app_nil_r.
  - destruct (exec s d) as [d1|] eqn:X; simpl; [|done]. intros Hrun Hr.
    destruct s as [q k v]. unfold exec in X. simpl in X.
    destruct (exec_resolve _ _ _ _ _ _ _ X Hr) as (e1 & Hr1 & Heq & Hneq).
    destruct (IH _ _ Hrun Hr1) as (e' & Hr' & He').
    exists e'. split; [done|]. rewrite He', adds_at_cons. simpl.
    destruct (decide (q = p)) as [->|Hne].
    + rewrite (Heq eq_refl), entries_add. by rewrite <- app_assoc.
    + rewrite Hneq by congruence. done.
Qed.

Lemma app_singleton_ne {A} (p : list A) (k : A) : p <> p ++ [k].
Proof.
  intros H. apply (f_equal length) in H. rewrite length_app in H. simpl in H. lia.
Qed.

(** The entries of a section are the statements that add below it: the
    statement that creates the section starts it empty, and no statement can
    add below it earlier, since [get] would return null. *)
Lemma run_section ss d d' p e k :
  run ss d = Some d' ->
  resolve p d = Some e ->
  NoDup ((entries e ++ adds_at p ss).*1) ->
  k ∉ (entries e).*1 ->
  k ∈ (adds_at p ss).*1 ->
  children_at (p ++ [k]) d' = Some (adds_at (p ++ [k]) ss).
Proof.
  revert d e. induction ss as [|s ss IH]; intros d e; simpl.
  - intros _ _ _ _ H. by apply elem_of_nil in H.
  - destruct (exec s d) as [d1|] eqn:X; simpl; [|done].
    intros Hrun Hr Hnd Hk Hin.
    destruct s as [q k' v]. pose proof X as X'. unfold exec in X. simpl in X.
    destruct (exec_resolve _ _ _ _ _ _ _ X Hr) as (e1 & Hr1 & Heq & Hneq).
    assert (q <> p ++ [k]) as Hq.
    { intros ->. apply exec_Some_resolve in X; [|apply add_keeps_entry].
      destruct X as [x Hx]. rewrite resolve_app, Hr in Hx. simpl in Hx.
      unfold get in Hx. rewrite find_has_key_None in Hx by done. done. }
    rewrite (adds_at_cons (p ++ [k])). simpl.
    destruct (decide (q = p ++ [k])) as [?|_]; [done|]. simpl.
    rewrite adds_at_cons in Hnd, Hin. simpl in Hnd, Hin.
    destruct (decide (q = p)) as [->|Hne].
    + rewrite (Heq eq_refl) in Hr1.
      destruct (decide (k' = k)) as [->|Hkk].
      * assert (resolve (p ++ [k]) d1 = Some (Element k v [])) as Hnew.
        { rewrite resolve_app, Hr1. simpl. unfold get, add. simpl.
          rewrite find_app_None by (by apply find_has_key_None). simpl.
          assert (has_key k (Element k v []) = true) as ->
            by (by apply has_key_true).
          done. }
        destruct (run_resolve _ _ _ _ _ Hrun Hnew) as (e' & Hr' & He').
        unfold children_at. rewrite Hr'. simpl. by rewrite He'.
      * apply (IH d1 (add k' v e)); try done.
        -- rewrite entries_add, <- app_assoc. done.
        -- rewrite entries_add, fmap_app. simpl.
           rewrite elem_of_app, list_elem_of_singleton. intros [?|?]; done.
        -- simpl in Hin. rewrite elem_of_cons in Hin. destruct Hin; [congruence|done].
    + apply (IH d1 e1); try done.
      * by rewrite (Hneq (not_eq_sym Hne)).
      * by rewrite (Hneq (not_eq_sym Hne)).
Qed.

(** The same for the sections directly below the root of a new document. *)
Lemma run_top ss n v d' :
  run ss (YAML_Doc n v) = Some d' -> children_at [] d' = Some (adds_at [] ss).
Proof.
  intros Hrun.
  destruct (run_resolve ss _ _ [] _ Hrun eq_refl) as (e' & Hr & He).
  unfold children_at. rewrite Hr. simpl. by rewrite He.
Qed.

Lemma run_top_section ss n v d' k :
  run ss (YAML_Doc n v) = Some d' ->
  NoDup (adds_at [] ss).*1 ->
  k ∈ (adds_at [] ss).*1 ->
  children_at [k] d' = Some (adds_at [k] ss).
Proof.
  intros Hrun Hnd Hin.
  apply (run_section ss (YAML_Doc n v) d' [] (YAML_Doc n v) k); try done.
  apply not_elem_of_nil.
Qed.

(** Reading a value through [get] is reading the first entry with the key. *)
Lemma value_at_children p k d l :
  children_at p d = Some l -> value_at p k d = first_entry k l.
Proof.
  unfold children_at, value_at, first_entry. rewrite resolve_app.
  destruct (resolve p d) as [e|]; simpl; [|done]. intros [= <-].
  unfold get, entries. induction (children e) as [|c cs IH]; simpl; [done|].
  unfold has_key at 1. simpl. destruct (String.eqb (key c) k); simpl; [done|].
  apply IH.
Qed.

End YamlFacts.

(** ** [ReportResults]: the shape of the document *)

Module ReportFacts.
Import Num Yaml Hpcg Report YamlFacts.

Local Open Scope float_scope.

Lemma adds_at_all p ss :
  Forall (fun s => path s = p) ss -> adds_at p ss = stmt_entry <$> ss.
Proof.
  induction 1 as [|s ss Hs _ IH]; [done|].
  rewrite adds_at_cons, IH, decide_True by done. done.
Qed.

Lemma coarse_grids_loop_paths n i Af l :
  coarse_grids_loop n i Af = Some l ->
  Forall (fun s => path s = ["Multigrid Information"; "Coarse Grids"]) l.
Proof.
  revert i Af l. induction n as [|n IH]; intros i Af l; simpl.
  - by intros [= <-].
  - intros H. repeat (apply bind_Some in H; destruct H as (? & ? & H)).
    injection H as <-. repeat (constructor; [done|]). eauto.
Qed.

Lemma memory_used_loop_paths n i v l :
  memory_used_loop n i v = Some l ->
  Forall (fun s => path s = ["Memory Use Information"; "Coarse Grids"]) l.
Proof.
  revert i l. induction n as [|n IH]; intros i l; simpl.
  - by intros [= <-].
  - intros H. repeat (apply bind_Some in H; destruct H as (? & ? & H)).
    injection H as <-. repeat (constructor; [done|]). eauto.
Qed.

Lemma adds_at_elsewhere p q ss :
  Forall (fun s => path s = q) ss -> p <> q -> adds_at p ss = [].
Proof.
  intros H Hne. apply adds_at_nil.
  induction H as [|s ss Hs _ IH]; constructor; [congruence|done].
Qed.

(** What each block of statements adds at the top level. *)
Lemma top_machine g :
  adds_at [] (machine_stmts g)
  = ("Release date", YString "November 11, 2015")
    :: ((fun h => (h, YString "")) <$>
        [ "Machine Summary"; "Global Problem Dimensions"; "Processor Dimensions";
          "Local Domain Dimensions" ]).
Proof. reflexivity. Qed.

Lemma top_problem A n t l :
  problem_stmts A n t = Some l ->
  adds_at [] l
  = (fun h => (h, YString "")) <$>
      [ "########## Problem Summary  ##########"; "Setup Information";
        "Linear System Information"; "Multigrid Information" ].
Proof.
  unfold problem_stmts. intros H.
  apply bind_Some in H. destruct H as (c & Hc & H).
  assert (l = problem_head A n t ++ c) as -> by congruence.
  rewrite adds_at_app.
  rewrite (adds_at_elsewhere _ _ _ (coarse_grids_loop_paths _ _ _ _ Hc)) by done.
  reflexivity.
Qed.

Lemma top_memory mm n l :
  memory_stmts mm n = Some l ->
  adds_at [] l
  = (fun h => (h, YString "")) <$>
      [ "########## Memory Use Summary  ##########"; "Memory Use Information" ].
Proof.
  unfold memory_stmts. intros H.
  apply bind_Some in H. destruct H as (b & _ & H).
  apply bind_Some in H. destruct H as (c & Hc & H).
  assert (l = memory_head mm b ++ c) as -> by congruence.
  rewrite adds_at_app.
  rewrite (adds_at_elsewhere _ _ _ (memory_used_loop_paths _ _ _ _ Hc)) by done.
  reflexivity.
Qed.

Lemma top_testing tcg tsym :
  adds_at [] (testing_stmts tcg tsym)
  = (fun h => (h, YString "")) <$>
      [ "########## V&V Testing Summary  ##########"; "Spectral Convergence Tests";
        DepartureFromSymmetry ].
Proof. unfold testing_stmts, PASSED_or_FAILED. by repeat case_match. Qed.

Lemma top_iterations ncg r o tn gf :
  adds_at [] (iterations_stmts ncg r o tn gf)
  = (fun h => (h, YString "")) <$>
      [ "########## Iterations Summary  ##########"; "Iteration Count Information";
        "########## Reproducibility Summary  ##########";
        "Reproducibility Information" ].
Proof. unfold iterations_stmts, PASSED_or_FAILED. by repeat case_match. Qed.

Lemma top_performance fm bm ncg T a b c :
  adds_at [] (performance_stmts fm bm ncg T a b c)
  = (fun h => (h, YString "")) <$>
      [ "########## Performance Summary (times in sec) ##########";
        "Benchmark Time Summary"; "Floating Point Operations Summary";
        "GB/s Summary"; "GFLOP/s Summary"; "User Optimization Overheads";
        "DDOT Timing Variations" ].
Proof. reflexivity. Qed.

Lemma top_final A fm ncg T valid m q :
  adds_at [] (final_stmts A fm ncg T valid m q) = [(FinalSummary, YString "")].
Proof.
  unfold final_stmts, reference_notes, official_time_stmts.
  by repeat case_match.
Qed.

(** The blocks before the performance summary add nothing below the late
    sections. *)
Lemma late_machine g p : p ∈ late_sections -> adds_at p (machine_stmts g) = [].
Proof.
  unfold late_sections. rewrite !elem_of_cons, elem_of_nil.
  intros [->|[->|[->|[->|[]]]]]; reflexivity.
Qed.

Lemma late_problem A n t l p :
  problem_stmts A n t = Some l -> p ∈ late_sections -> adds_at p l = [].
Proof.
  unfold problem_stmts. intros H.
  apply bind_Some in H. destruct H as (c & Hc & H).
  assert (l = problem_head A n t ++ c) as -> by congruence.
  pose proof (coarse_grids_loop_paths _ _ _ _ Hc) as Hl.
  unfold late_sections. rewrite !elem_of_cons, elem_of_nil.
  intros [->|[->|[->|[->|[]]]]]; rewrite adds_at_app;
    rewrite (adds_at_elsewhere _ _ _ Hl) by done; reflexivity.
Qed.

Lemma late_memory mm n l p :
  memory_stmts mm n = Some l -> p ∈ late_sections -> adds_at p l = [].
Proof.
  unfold memory_stmts. intros H.
  apply bind_Some in H. destruct H as (b & _ & H).
  apply bind_Some in H. destruct H as (c & Hc & H).
  assert (l = memory_head mm b ++ c) as -> by congruence.
  pose proof (memory_used_loop_paths _ _ _ _ Hc) as Hl.
  unfold late_sections. rewrite !elem_of_cons, elem_of_nil.
  intros [->|[->|[->|[->|[]]]]]; rewrite adds_at_app;
    rewrite (adds_at_elsewhere _ _ _ Hl) by done; reflexivity.
Qed.

Lemma late_testing tcg tsym p :
  p ∈ late_sections -> adds_at p (testing_stmts tcg tsym) = [].
Proof.
  unfold late_sections. rewrite !elem_of_cons, elem_of_nil.
  unfold testing_stmts, PASSED_or_FAILED.
  intros [->|[->|[->|[->|[]]]]]; by repeat case_match.
Qed.

Lemma late_iterations ncg r o tn gf p :
  p ∈ late_sections -> adds_at p (iterations_stmts ncg r o tn gf) = [].
Proof.
  unfold late_sections. rewrite !elem_of_cons, elem_of_nil.
  unfold iterations_stmts, PASSED_or_FAILED.
  intros [->|[->|[->|[->|[]]]]]; by repeat case_match.
Qed.

Lemma late_performance_final plat A nmg ncg r o T tcg tsym tn gf qp m a b c ss :
  report_stmts plat A nmg ncg r o T tcg tsym tn gf qp m a b c = Some ss ->
  exists fm bm,
    flop_model A nmg ncg r o = Some fm
    /\ bandwidth_model plat A nmg ncg r o = Some bm
    /\ adds_at [] ss
       = ("Release date", YString "November 11, 2015")
         :: ((fun h => (h, YString "")) <$> required_sections)
    /\ forall p, p ∈ late_sections ->
         adds_at p ss
         = adds_at p (performance_stmts fm bm ncg T a b c)
           ++ adds_at p (final_stmts A fm ncg T (isValidRun tcg tsym tn gf) m qp).
Proof.
  unfold report_stmts. intros H.
  apply bind_Some in H. destruct H as (fm & Hfm & H).
  apply bind_Some in H. destruct H as (bm & Hbm & H).
  apply bind_Some in H. destruct H as (mm & Hmm & H).
  apply bind_Some in H. destruct H as (problem & Hp & H).
  apply bind_Some in H. destruct H as (memory & Hm & H).
  exists fm, bm. split; [done|]. split; [done|].
  match type of H with Some ?l = _ => assert (ss = l) as -> by congruence end.
  split.
  - rewrite !adds_at_app, top_machine, (top_problem _ _ _ _ Hp),
      (top_memory _ _ _ Hm), top_testing, top_iterations, top_performance,
      top_final.
    reflexivity.
  - intros p Hin.
    rewrite !adds_at_app, (late_machine _ _ Hin), (late_problem _ _ _ _ _ Hp Hin),
      (late_memory _ _ _ _ Hm Hin), (late_testing _ _ _ Hin),
      (late_iterations _ _ _ _ _ _ Hin).
    reflexivity.
Qed.

Lemma headers_fst (v : YamlValue) (l : list string) :
  ((fun h => (h, v)) <$> l).*1 = l.
Proof. induction l as [|h l IH]; [done|]. rewrite !fmap_cons, IH. done. Qed.

Lemma required_sections_NoDup :
  NoDup ("Release date" :: required_sections).
Proof. apply (bool_decide_unpack _). vm_compute. reflexivity. Qed.

(** The three reductions every rank takes part in. *)
Lemma ReportResults_inv plat A nmg ncg r o times tcg tsym tn gf qp lrt tr :
  ReportResults plat A nmg ncg r o times tcg tsym tn gf qp lrt = Some tr ->
  exists t4,
    times !! 4%nat = Some t4
    /\ let reds := [ EvAllReduce (dcAllRedMinFT A) t4;
                     EvAllReduce (dcAllRedMaxFT A) t4;
                     EvAllReduce (dcAllRedSumFT A) t4 ] in
       (rank (geom A) <> 0%Z /\ tr = reds)
       \/ (rank (geom A) = 0%Z
           /\ exists T ss doc,
               read_times times = Some T
               /\ report_stmts plat A nmg ncg r o T tcg tsym tn gf qp 1800
                    (reduced lrt (dcAllRedMinFT A) t4)
                    (reduced lrt (dcAllRedMaxFT A) t4)
                    (reduced lrt (dcAllRedSumFT A) t4 / double_of_Z (size (geom A)))
                  = Some ss
               /\ run ss (YAML_Doc "HPCG-Benchmark" "3.0") = Some doc
               /\ tr = reds ++ [EvGenerateYAML doc]).
Proof.
  unfold ReportResults. intros H.
  apply bind_Some in H. destruct H as (t4 & Ht4 & H).
  exists t4. split; [done|]. simpl.
  destruct (rank (geom A) =? 0)%Z eqn:E.
  - apply Z.eqb_eq in E. right. split; [done|].
    apply bind_Some in H. destruct H as (T & HT & H).
    apply bind_Some in H. destruct H as (ss & Hss & H).
    apply bind_Some in H. destruct H as (doc & Hdoc & H).
    exists T, ss, doc. repeat split; try done. by injection H as <-.
  - apply Z.eqb_neq in E. left. split; [done|]. by injection H as <-.
Qed.

(** An emitted document is the one the statements of rank 0 build. *)
Lemma emitted_inv plat A nmg ncg r o times tcg tsym tn gf qp lrt tr doc :
  ReportResults plat A nmg ncg r o times tcg tsym tn gf qp lrt = Some tr ->
  doc ∈ emitted tr ->
  rank (geom A) = 0%Z
  /\ exists T fm bm a b c,
      read_times times = Some T
      /\ flop_model A nmg ncg r o = Some fm
      /\ bandwidth_model plat A nmg ncg r o = Some bm
      /\ children_at [] doc
         = Some (("Release date", YString "November 11, 2015")
                 :: ((fun h => (h, YString "")) <$> required_sections))
      /\ forall p, p ∈ late_sections ->
           children_at p doc
           = Some (adds_at p (performance_stmts fm bm ncg T a b c)
                   ++ adds_at p (final_stmts A fm ncg T (isValidRun tcg tsym tn gf)
                                   1800 qp)).
Proof.
  intros H Hin. apply ReportResults_inv in H.
  destruct H as (t4 & Ht4 & [[_ ->]|(Hr & T & ss & d & HT & Hss & Hrun & ->)]).
  { vm_compute in Hin. by apply elem_of_nil in Hin. }
  split; [done|].
  assert (doc = d) as ->.
  { unfold emitted in Hin. rewrite omap_app in Hin. simpl in Hin.
    by apply list_elem_of_singleton in Hin. }
  destruct (late_performance_final _ _ _ _ _ _ _ _ _ _ _ _ _ _ _ _ _ Hss)
    as (fm & bm & Hfm & Hbm & Htop & Hlate).
  exists T, fm, bm. do 3 eexists. split; [done|]. split; [done|]. split; [done|].
  split.
  - rewrite (run_top _ _ _ _ Hrun). by rewrite Htop.
  - intros p Hp. rewrite <- (Hlate p Hp).
    unfold late_sections in Hp. rewrite !elem_of_cons, elem_of_nil in Hp.
    assert (exists k, p = [k] /\ k ∈ required_sections) as (k & -> & Hk).
    { destruct Hp as [->|[->|[->|[->|[]]]]]; eexists; (split; [done|]);
        apply (bool_decide_unpack _); vm_compute; reflexivity. }
    apply (run_top_section _ _ _ _ _ Hrun).
    + rewrite Htop, fmap_cons, headers_fst. apply required_sections_NoDup.
    + rewrite Htop, fmap_cons, headers_fst. by right.
Qed.

(** *** Inversion of the models *)

Lemma flop_model_inv A nmg ncg r o fm :
  flop_model A nmg ncg r o = Some fm ->
  let fNumberOfCgSets := double_of_Z ncg in
  let fniters := fNumberOfCgSets * double_of_Z o in
  let fnrow := double_of_Z (totalNumberOfRows (sclrs A)) in
  let fnnz := double_of_Z (totalNumberOfNonzeros (sclrs A)) in
  fnops_ddot fm = (3.0 * fniters + fNumberOfCgSets) * 2.0 * fnrow
  /\ fnops_waxpby fm = (3.0 * fniters + fNumberOfCgSets) * 2.0 * fnrow
  /\ fnops_sparsemv fm = (fniters + fNumberOfCgSets) * 2.0 * fnnz
  /\ fnops fm = fnops_ddot fm + fnops_waxpby fm + fnops_sparsemv fm + fnops_precond fm
  /\ frefnops fm = fnops fm * double_of_Z r / double_of_Z o.
Proof.
  unfold flop_model. intros H.
  apply bind_Some in H. destruct H as ([pre Af] & _ & H).
  apply bind_Some in H. destruct H as (Af_ & _ & H).
  injection H as <-. simpl. done.
Qed.

Lemma read_times_inv times T :
  read_times times = Some T ->
  times !! 0%nat = Some (t0 T) /\ times !! 1%nat = Some (t1 T)
  /\ times !! 2%nat = Some (t2 T) /\ times !! 3%nat = Some (t3 T)
  /\ times !! 5%nat = Some (t5 T) /\ times !! 7%nat = Some (t7 T)
  /\ times !! 8%nat = Some (t8 T) /\ times !! 9%nat = Some (t9 T).
Proof.
  unfold read_times. intros H.
  repeat (apply bind_Some in H; destruct H as (? & ? & H)).
  injection H as <-. simpl. done.
Qed.

Lemma isValidRun_true tcg tsym tn gf :
  isValidRun tcg tsym tn gf = true
  <-> cg_count_fail tcg = 0%Z /\ sym_count_fail tsym = 0%Z
      /\ pass tn = true /\ gf = 0%Z.
Proof.
  unfold isValidRun. rewrite !andb_true_iff, !Z.eqb_eq. tauto.
Qed.

(** *** The final summary *)

Lemma final_entries A fm ncg T valid m qp :
  adds_at [FinalSummary] (final_stmts A fm ncg T valid m qp)
  = if valid
    then [ ("HPCG result is VALID with a GFLOP/s rating of",
            YDouble (totalGflops fm ncg T));
           ("    HPCG 2.4 Rating (for historical value) is",
            YDouble (totalGflops24 fm ncg T)) ]
         ++ (stmt_entry <$> reference_notes A)
         ++ (stmt_entry <$> official_time_stmts m T qp)
    else [ ("HPCG result is", YString "INVALID.");
           ("Please review the YAML file contents",
            YString "You may NOT submit these results for consideration.") ].
Proof.
  unfold final_stmts. rewrite adds_at_cons, decide_False, app_nil_l by done.
  destruct valid; [|reflexivity].
  rewrite !adds_at_app. f_equal. f_equal.
  - apply adds_at_all. unfold reference_notes.
    repeat case_match; repeat constructor.
  - apply adds_at_all. unfold official_time_stmts.
    repeat case_match; repeat constructor.
Qed.

Lemma final_children plat A nmg ncg r o times tcg tsym tn gf qp lrt tr doc :
  ReportResults plat A nmg ncg r o times tcg tsym tn gf qp lrt = Some tr ->
  doc ∈ emitted tr ->
  exists T fm,
    read_times times = Some T
    /\ flop_model A nmg ncg r o = Some fm
    /\ children_at [FinalSummary] doc
       = Some (adds_at [FinalSummary]
                 (final_stmts A fm ncg T (isValidRun tcg tsym tn gf) 1800 qp)).
Proof.
  intros H Hin.
  destruct (emitted_inv _ _ _ _ _ _ _ _ _ _ _ _ _ _ _ H Hin)
    as (_ & T & fm & bm & a & b & c & HT & Hfm & _ & _ & Hlate).
  exists T, fm. split; [done|]. split; [done|].
  rewrite (Hlate [FinalSummary]).
  - reflexivity.
  - unfold late_sections. rewrite !elem_of_cons. tauto.
Qed.

Lemma first_entry_app_skip k l1 l2 :
  k ∉ l1.*1 -> first_entry k (l1 ++ l2) = first_entry k l2.
Proof.
  unfold first_entry. induction l1 as [|[k' v] l1 IH]; [done|].
  rewrite fmap_cons, not_elem_of_cons. simpl. intros [Hne Hn].
  assert (String.eqb k' k = false) as -> by (apply String.eqb_neq; congruence).
  auto.
Qed.

Lemma reference_notes_keys A k :
  k ∈ (stmt_entry <$> reference_notes A).*1 ->
  exists rest, k = String.append "Reference version of Compute" rest.
Proof.
  unfold reference_notes.
  repeat case_match; simpl; rewrite ?elem_of_cons, ?elem_of_nil; intros Hk;
    repeat (destruct Hk as [->|Hk]; [eexists; reflexivity|]); done.
Qed.

(** The comparison [times[0] >= minOfficialTime] fails when
    [times[0] < minOfficialTime]. *)
Lemma SFcompare_Lt_Gt x y : SFcompare x y = Some Lt -> SFcompare y x = Some Gt.
Proof.
  destruct x as [sx|sx| |sx mx ex], y as [sy|sy| |sy my ey]; simpl;
    try destruct sx; try destruct sy; try done.
  all: rewrite (Z.compare_antisym ey ex);
    destruct (ey ?= ex)%Z; simpl; try done;
    change (PosDef.Pos.compare_cont Eq) with Pos.compare;
    rewrite (Pos.compare_antisym my mx); intros [= H]; f_equal;
    destruct (my ?= mx)%positive; simpl in *; congruence.
Qed.

Lemma ltb_not_leb (x y : float) : (x <? y) = true -> (y <=? x) = false.
Proof.
  rewrite ltb_spec, leb_spec. unfold SFltb, SFleb.
  destruct (SFcompare (Prim2SF x) (Prim2SF y)) as [[]|] eqn:E; try done.
  by rewrite (SFcompare_Lt_Gt _ _ E).
Qed.

(** C4: the top-level entries of the report are the release date followed by
    the required sections, each with the required header string and an empty
    value of its own, in the required order: "Machine Summary" is the first
    section and the final summary is the last. *)
Theorem sections_in_required_order
    plat A nmg ncg r o times tcg tsym tn gf qp lrt tr doc :
  ReportResults plat A nmg ncg r o times tcg tsym tn gf qp lrt = Some tr ->
  doc ∈ emitted tr ->
  children_at [] doc
  = Some (("Release date", YString "November 11, 2015")
          :: ((fun h => (h, YString "")) <$> required_sections))
  /\ head required_sections = Some "Machine Summary"
  /\ last required_sections = Some "__________ Final Summary __________".
Proof.
  intros H Hin.
  destruct (emitted_inv _ _ _ _ _ _ _ _ _ _ _ _ _ _ _ H Hin)
    as (_ & T & fm & bm & a & b & c & _ & _ & _ & Htop & _).
  split; [exact Htop|]. split; reflexivity.
Qed.

Ltac by_evaluation :=
  vm_compute; first [reflexivity | apply list_elem_of_singleton; reflexivity].

Lemma sections_in_required_order_witness :
  Sample.call 2000.5 0 false
  = Some (Sample.reductions ++ [EvGenerateYAML Sample.long_doc])
  /\ children_at [] Sample.long_doc
     = Some (("Release date", YString "November 11, 2015")
             :: ((fun h => (h, YString "")) <$> required_sections)).
Proof.
  split; [by_evaluation|].
  refine (proj1 (sections_in_required_order
    Sample.platform Sample.matrix 4 10 50 50 (Sample.times_with 2000.5)
    Sample.testcg Sample.testsymmetry Sample.testnorms 0 false Sample.runtime
    (Sample.reductions ++ [EvGenerateYAML Sample.long_doc]) Sample.long_doc _ _));
    by_evaluation.
Defined.

(** C1: the final summary carries the line "HPCG result is VALID ..." exactly
    when both failure counts are zero, the norms test passed and no global
    failure was flagged; in every other case it consists of the line that
    marks the result INVALID and the line saying that the results may not be
    submitted. *)
Theorem valid_iff_all_tests_passed
    plat A nmg ncg r o times tcg tsym tn gf qp lrt tr doc :
  ReportResults plat A nmg ncg r o times tcg tsym tn gf qp lrt = Some tr ->
  doc ∈ emitted tr ->
  let passed := cg_count_fail tcg = 0%Z /\ sym_count_fail tsym = 0%Z
                /\ pass tn = true /\ gf = 0%Z in
  (is_Some (value_at [FinalSummary]
              "HPCG result is VALID with a GFLOP/s rating of" doc) <-> passed)
  /\ (~ passed ->
      children_at [FinalSummary] doc
      = Some [ ("HPCG result is", YString "INVALID.");
               ("Please review the YAML file contents",
                YString "You may NOT submit these results for consideration.") ]).
Proof.
  intros H Hin passed.
  destruct (final_children _ _ _ _ _ _ _ _ _ _ _ _ _ _ _ H Hin)
    as (T & fm & _ & _ & Hc).
  rewrite final_entries in Hc.
  rewrite (value_at_children _ _ _ _ Hc).
  destruct (isValidRun tcg tsym tn gf) eqn:E.
  - apply isValidRun_true in E. split; [|done].
    split; [done|]. intros _. by eexists.
  - assert (~ passed) as Hn.
    { intros Hp. apply isValidRun_true in Hp. congruence. }
    split; [|done]. split; [|done].
    intros [v Hv]. by vm_compute in Hv.
Qed.

Lemma valid_iff_all_tests_passed_witness :
  Sample.call 2000.5 1 false
  = Some (Sample.reductions ++ [EvGenerateYAML Sample.failed_doc])
  /\ children_at [FinalSummary] Sample.failed_doc
     = Some [ ("HPCG result is", YString "INVALID.");
              ("Please review the YAML file contents",
               YString "You may NOT submit these results for consideration.") ].
Proof.
  split; [by_evaluation|].
  refine (proj2 (valid_iff_all_tests_passed
    Sample.platform Sample.matrix 4 10 50 50 (Sample.times_with 2000.5)
    Sample.testcg Sample.testsymmetry Sample.testnorms 1 false Sample.runtime
    (Sample.reductions ++ [EvGenerateYAML Sample.failed_doc]) Sample.failed_doc _ _) _);
    [by_evaluation | by_evaluation |].
  intros (_ & _ & _ & Hgf). discriminate Hgf.
Defined.



(** C3: the raw operation counts of the floating point operations summary are
    [(3*niters + nCgSets)*2*nrow] for DDOT and for WAXPBY and
    [(niters + nCgSets)*2*nnz] for SpMV, where [niters = nCgSets * optMaxIters],
    in binary64 arithmetic. *)
Theorem raw_operation_counts
    plat A nmg ncg r o times tcg tsym tn gf qp lrt tr doc :
  ReportResults plat A nmg ncg r o times tcg tsym tn gf qp lrt = Some tr ->
  doc ∈ emitted tr ->
  let nCgSets := double_of_Z ncg in
  let niters := nCgSets * double_of_Z o in
  let nrow := double_of_Z (totalNumberOfRows (sclrs A)) in
  let nnz := double_of_Z (totalNumberOfNonzeros (sclrs A)) in
  value_at ["Floating Point Operations Summary"] "Raw DDOT" doc
  = Some (YDouble ((3.0 * niters + nCgSets) * 2.0 * nrow))
  /\ value_at ["Floating Point Operations Summary"] "Raw WAXPBY" doc
     = Some (YDouble ((3.0 * niters + nCgSets) * 2.0 * nrow))
  /\ value_at ["Floating Point Operations Summary"] "Raw SpMV" doc
     = Some (YDouble ((niters + nCgSets) * 2.0 * nnz)).
Proof.
  intros H Hin.
  destruct (emitted_inv _ _ _ _ _ _ _ _ _ _ _ _ _ _ _ H Hin)
    as (_ & T & fm & bm & a & b & c & _ & Hfm & _ & _ & Hlate).
  destruct (flop_model_inv _ _ _ _ _ _ Hfm) as (Hd & Hw & Hs & _ & _).
  cbv zeta in Hd, Hw, Hs. cbv zeta.
  assert (["Floating Point Operations Summary"] ∈ late_sections) as Hg
    by (unfold late_sections; rewrite !elem_of_cons; tauto).
  rewrite !(value_at_children _ _ _ _ (Hlate _ Hg)).
  rewrite (adds_at_nil ["Floating Point Operations Summary"]
             (final_stmts _ _ _ _ _ _ _)).
  - change (Some (YDouble (fnops_ddot fm)) = Some (YDouble
              ((3.0 * (double_of_Z ncg * double_of_Z o) + double_of_Z ncg) * 2.0
               * double_of_Z (totalNumberOfRows (sclrs A))))
            /\ Some (YDouble (fnops_waxpby fm)) = Some (YDouble
              ((3.0 * (double_of_Z ncg * double_of_Z o) + double_of_Z ncg) * 2.0
               * double_of_Z (totalNumberOfRows (sclrs A))))
            /\ Some (YDouble (fnops_sparsemv fm)) = Some (YDouble
              ((double_of_Z ncg * double_of_Z o + double_of_Z ncg) * 2.0
               * double_of_Z (totalNumberOfNonzeros (sclrs A))))).
    by rewrite Hd, Hw, Hs.
  - unfold final_stmts, reference_notes, official_time_stmts.
    repeat case_match; repeat constructor; done.
Qed.

Lemma raw_operation_counts_witness :
  Sample.call 2000.5 0 false
  = Some (Sample.reductions ++ [EvGenerateYAML Sample.long_doc])
  /\ value_at ["Floating Point Operations Summary"] "Raw DDOT" Sample.long_doc
     = Some (YDouble 98959360)
  /\ value_at ["Floating Point Operations Summary"] "Raw SpMV" Sample.long_doc
     = Some (YDouble 847195680).
Proof.
  split; [by_evaluation|].
  destruct (raw_operation_counts
    Sample.platform Sample.matrix 4 10 50 50 (Sample.times_with 2000.5)
    Sample.testcg Sample.testsymmetry Sample.testnorms 0 false Sample.runtime
    (Sample.reductions ++ [EvGenerateYAML Sample.long_doc]) Sample.long_doc
    ltac:(by_evaluation) ltac:(by_evaluation))
    as (Hd & _ & Hs).
  split; [rewrite Hd|rewrite Hs]; vm_compute; reflexivity.
Defined.

Lemma final_valid_entry plat A nmg ncg r o times tcg tsym tn gf qp lrt tr doc k :
  ReportResults plat A nmg ncg r o times tcg tsym tn gf qp lrt = Some tr ->
  doc ∈ emitted tr ->
  isValidRun tcg tsym tn gf = true ->
  k <> "HPCG result is VALID with a GFLOP/s rating of" ->
  k <> "    HPCG 2.4 Rating (for historical value) is" ->
  (forall rest, k <> String.append "Reference version of Compute" rest) ->
  exists T,
    read_times times = Some T
    /\ value_at [FinalSummary] k doc
       = first_entry k (stmt_entry <$> official_time_stmts 1800 T qp).
Proof.
  intros H Hin Hv Hk1 Hk2 Hk3.
  destruct (final_children _ _ _ _ _ _ _ _ _ _ _ _ _ _ _ H Hin)
    as (T & fm & HT & _ & Hc).
  exists T. split; [done|].
  rewrite final_entries, Hv in Hc.
  rewrite (value_at_children _ _ _ _ Hc).
  rewrite first_entry_app_skip.
  - rewrite first_entry_app_skip; [done|].
    intros Hn. apply reference_notes_keys in Hn. destruct Hn as [rest ->].
    by apply (Hk3 rest).
  - rewrite !fmap_cons, !not_elem_of_cons. simpl.
    split; [done|]. split; [done|]. apply not_elem_of_nil.
Qed.

(** C5: in a valid run the final summary has the VALID line, and the
    comparison of [times[0]] with 1800 seconds decides the rest.  At 1800
    seconds or more the summary invites the upload to hpcg-benchmark.org and
    has none of the lines on a short run.  Below 1800 seconds (whenever the
    comparison fails) it gives the execution time and does not invite the
    upload: with the quick path it carries the quick-path caveat and asks for
    confirmation before the upload, without it it states that official
    results must run at least 1800 seconds; neither case has the lines of the
    other. *)
Theorem official_time_threshold
    plat A nmg ncg r o times tcg tsym tn gf qp lrt tr doc :
  ReportResults plat A nmg ncg r o times tcg tsym tn gf qp lrt = Some tr ->
  doc ∈ emitted tr ->
  isValidRun tcg tsym tn gf = true ->
  let line k := value_at [FinalSummary] k doc in
  let upload := "Please upload results from the YAML file contents to" in
  let short := "Results are valid but execution time (sec) is" in
  let quick := "     You have selected the QuickPath option" in
  let confirm :=
    "     After confirmation please upload results from the YAML file contents to" in
  let least := "     Official results execution time (sec) must be at least" in
  exists x0,
    times !! 0%nat = Some x0
    /\ is_Some (line "HPCG result is VALID with a GFLOP/s rating of")
    /\ ((x0 <? 1800) = true -> (1800 <=? x0) = false)
    /\ ((1800 <=? x0) = true ->
        line upload = Some (YString "http://hpcg-benchmark.org")
        /\ line short = None /\ line quick = None /\ line confirm = None
        /\ line least = None)
    /\ ((1800 <=? x0) = false -> qp = true ->
        line short = Some (YDouble x0)
        /\ line quick
           = Some (YString "Results are official for legacy installed systems with confirmation from the HPCG Benchmark leaders.")
        /\ line confirm = Some (YString "http://hpcg-benchmark.org")
        /\ line upload = None /\ line least = None)
    /\ ((1800 <=? x0) = false -> qp = false ->
        line short = Some (YDouble x0)
        /\ line least = Some (YDouble 1800)
        /\ line upload = None /\ line quick = None /\ line confirm = None).
Proof.
  intros H Hin Hv line upload short quick confirm least.
  destruct (final_children _ _ _ _ _ _ _ _ _ _ _ _ _ _ _ H Hin)
    as (T & fm & HT & _ & Hc).
  destruct (read_times_inv _ _ HT) as (H0 & _).
  exists (t0 T). split; [done|].
  assert (forall k,
    k <> "HPCG result is VALID with a GFLOP/s rating of" ->
    k <> "    HPCG 2.4 Rating (for historical value) is" ->
    (forall rest, k <> String.append "Reference version of Compute" rest) ->
    line k = first_entry k (stmt_entry <$> official_time_stmts 1800 T qp)) as Hk.
  { intros k Hk1 Hk2 Hk3.
    destruct (final_valid_entry _ _ _ _ _ _ _ _ _ _ _ _ _ _ _ k H Hin Hv Hk1 Hk2 Hk3)
      as (T' & HT' & E).
    unfold line. rewrite E. congruence. }
  split.
  { unfold line. rewrite final_entries, Hv in Hc.
    rewrite (value_at_children _ _ _ _ Hc). by eexists. }
  split; [apply ltb_not_leb|].
  unfold upload, short, quick, confirm, least.
  split; [|split].
  - intros Hge. rewrite !Hk by done.
    unfold official_time_stmts. rewrite Hge. by repeat split.
  - intros Hlt ->. rewrite !Hk by done.
    unfold official_time_stmts. rewrite Hlt. by repeat split.
  - intros Hlt ->. rewrite !Hk by done.
    unfold official_time_stmts. rewrite Hlt. by repeat split.
Qed.

Lemma official_time_threshold_witness :
  Sample.call 60 0 true
  = Some (Sample.reductions ++ [EvGenerateYAML Sample.quick_doc])
  /\ value_at [FinalSummary] "     You have selected the QuickPath option"
       Sample.quick_doc
     = Some (YString "Results are official for legacy installed systems with confirmation from the HPCG Benchmark leaders.")
  /\ value_at [FinalSummary] "Please upload results from the YAML file contents to"
       Sample.quick_doc
     = None.
Proof.
  split; [by_evaluation|].
  destruct (official_time_threshold
    Sample.platform Sample.matrix 4 10 50 50 (Sample.times_with 60)
    Sample.testcg Sample.testsymmetry Sample.testnorms 0 true Sample.runtime
    (Sample.reductions ++ [EvGenerateYAML Sample.quick_doc]) Sample.quick_doc
    ltac:(by_evaluation) ltac:(by_evaluation) ltac:(by_evaluation))
    as (x0 & Hx0 & _ & _ & _ & Hquick & _).
  injection Hx0 as <-.
  destruct Hquick as (_ & Hq & _ & Hu & _); [reflexivity..|].
  split; [exact Hq|exact Hu].
Defined.

(** C10: every rank takes part in the three reductions of [times[4]] (minimum,
    maximum and sum); a rank other than 0 does nothing else and returns, and
    only rank 0 goes on to build and emit the document. *)
Theorem only_rank_zero_reports
    plat A nmg ncg r o times tcg tsym tn gf qp lrt :
  (forall tr,
     ReportResults plat A nmg ncg r o times tcg tsym tn gf qp lrt = Some tr ->
     exists t4,
       times !! 4%nat = Some t4
       /\ reductions_of tr
          = [ (dcAllRedMinFT A, t4); (dcAllRedMaxFT A, t4); (dcAllRedSumFT A, t4) ]
       /\ (rank (geom A) = 0%Z -> exists doc, emitted tr = [doc])
       /\ (rank (geom A) <> 0%Z -> emitted tr = []))
  /\ (forall t4,
        rank (geom A) <> 0%Z ->
        times !! 4%nat = Some t4 ->
        ReportResults plat A nmg ncg r o times tcg tsym tn gf qp lrt
        = Some [ EvAllReduce (dcAllRedMinFT A) t4;
                 EvAllReduce (dcAllRedMaxFT A) t4;
                 EvAllReduce (dcAllRedSumFT A) t4 ]).
Proof.
  split.
  - intros tr H. apply ReportResults_inv in H.
    destruct H as (t4 & Ht4 & [[Hr ->]|(Hr & T & ss & d & _ & _ & _ & ->)]);
      exists t4; (split; [done|]); (split; [reflexivity|]); split; try done.
    intros _. by exists d.
  - intros t4 Hr Ht4. unfold ReportResults. rewrite Ht4. simpl.
    apply Z.eqb_neq in Hr. by rewrite Hr.
Qed.

Lemma only_rank_zero_reports_witness :
  rank (geom Sample.matrix_rank3) <> 0%Z
  /\ ReportResults Sample.platform Sample.matrix_rank3 4 10 50 50
       (Sample.times_with 60) Sample.testcg Sample.testsymmetry Sample.testnorms
       0 false Sample.runtime
     = Some Sample.reductions.
Proof.
  assert (rank (geom Sample.matrix_rank3) <> 0%Z) as Hr by (vm_compute; discriminate).
  split; [exact Hr|].
  exact (proj2 (only_rank_zero_reports
    Sample.platform Sample.matrix_rank3 4 10 50 50 (Sample.times_with 60)
    Sample.testcg Sample.testsymmetry Sample.testnorms 0 false Sample.runtime)
    0.5 Hr eq_refl).
Defined.

(** The writes the loop of the memory-bandwidth model returns are the
    writes charged to the levels it visits. *)
Lemma bandwidth_loop_writes plat k Af fniters reads writes reads' writes' Af' :
  bandwidth_loop plat k Af fniters reads writes = Some (reads', writes', Some Af') ->
  exists A levels,
    Af = Some A
    /\ Bandwidth.visited_levels k A = Some (levels, Af')
    /\ length levels = k
    /\ writes' = foldl (Bandwidth.charge_level fniters) writes levels.
Proof.
  revert Af reads writes. induction k as [|k IH]; intros Af reads writes.
  - simpl. intros [= <- <- ->]. by exists Af', [].
  - cbn [bandwidth_loop]. intros H.
    destruct Af as [A|]; [|done]. cbn [mbind option_bind] in H.
    destruct (mgData A) as [mg|] eqn:Emg; [|done]. cbn [mbind option_bind] in H.
    apply IH in H. destruct H as (A1 & levels & EA & Hl & Hlen & ->).
    exists A, ((A, mg) :: levels). split; [done|].
    cbn [Bandwidth.visited_levels]. rewrite Emg, EA. cbn [mbind option_bind].
    rewrite Hl. cbn [mbind option_bind]. split; [done|].
    split; [by rewrite <- Hlen|]. reflexivity.
Qed.

(** C8: the writes the report shows count, for every level the loop of the
    memory-bandwidth model visits (every level but the coarsest),
    [fniters * fnnz_Af * sizeof(double)] bytes for the fine-grid residual:
    the charge follows the number of nonzeros of the level, not its number of
    rows.  The loop visits the [numberOfMgLevels - 1] levels from [A] on; its
    writes are the sum, in the order of the additions, of the presmoother
    writes, the residual writes and the postsmoother writes of these levels;
    with the sweep on the coarsest level and the writes of the dot products,
    the vector updates and the matrix-vector products they make up [fnwrites],
    which the report divides by [times[0]] and 1e9 as "Raw Write B/W". *)
Theorem residual_writes_follow_nonzeros
    plat A nmg ncg r o times tcg tsym tn gf qp lrt tr doc :
  ReportResults plat A nmg ncg r o times tcg tsym tn gf qp lrt = Some tr ->
  doc ∈ emitted tr ->
  let fNumberOfCgSets := double_of_Z ncg in
  let fniters := fNumberOfCgSets * double_of_Z o in
  let fnrow := double_of_Z (totalNumberOfRows (sclrs A)) in
  let sizeof_double := double_of_Z 8 in
  exists levels coarsest bm x0,
    Bandwidth.visited_levels (mg_loop_count nmg) A = Some (levels, coarsest)
    /\ length levels = mg_loop_count nmg
    /\ Forall (fun level =>
         Bandwidth.residual_writes fniters level.1
         = fniters * double_of_Z (totalNumberOfNonzeros (sclrs level.1))
           * sizeof_double) levels
    /\ bandwidth_model plat A nmg ncg r o = Some bm
    /\ fnwrites_precond bm
       = Bandwidth.charged_writes fniters levels
         + fniters * double_of_Z (totalNumberOfRows (sclrs coarsest)) * sizeof_double
    /\ fnwrites bm
       = (3.0 * fniters + fNumberOfCgSets) * sizeof_double
         + (3.0 * fniters + fNumberOfCgSets) * fnrow * sizeof_double
         + (fniters + fNumberOfCgSets) * fnrow * sizeof_double
         + fnwrites_precond bm
    /\ times !! 0%nat = Some x0
    /\ value_at ["GB/s Summary"] "Raw Write B/W" doc
       = Some (YDouble (fnwrites bm / x0 / 1.0E9)).
Proof.
  intros H Hin fNumberOfCgSets fniters fnrow sizeof_double.
  destruct (emitted_inv _ _ _ _ _ _ _ _ _ _ _ _ _ _ _ H Hin)
    as (_ & T & fm & bm & a & b & c & HT & _ & Hbm & _ & Hlate).
  destruct (read_times_inv _ _ HT) as (H0 & _).
  pose proof Hbm as Hbm'. unfold bandwidth_model in Hbm'.
  apply bind_Some in Hbm'. destruct Hbm' as ([[rd wr] Af] & Hloop & Hbm').
  apply bind_Some in Hbm'. destruct Hbm' as (Af_ & -> & Hbm').
  apply bandwidth_loop_writes in Hloop.
  destruct Hloop as (A' & levels & EA & Hl & Hlen & Hwr).
  injection EA as <-.
  exists levels, Af_, bm, (t0 T).
  split; [done|]. split; [done|].
  split; [by apply Forall_forall|].
  split; [done|].
  injection Hbm' as <-. cbn [fnwrites_precond fnwrites].
  split; [by rewrite Hwr|]. split; [reflexivity|]. split; [done|].
  assert (["GB/s Summary"] ∈ late_sections) as Hp
    by (unfold late_sections; rewrite !elem_of_cons; tauto).
  rewrite (value_at_children _ _ _ _ (Hlate _ Hp)). reflexivity.
Qed.

Lemma residual_writes_follow_nonzeros_witness :
  exists levels coarsest bm,
    Bandwidth.visited_levels 3 Sample.matrix = Some (levels, coarsest)
    /\ length levels = 3%nat
    /\ bandwidth_model Sample.platform Sample.matrix 4 10 50 50 = Some bm
    /\ value_at ["GB/s Summary"] "Raw Write B/W" Sample.long_doc
       = Some (YDouble (fnwrites bm / 2000.5 / 1.0E9)).
Proof.
  destruct (residual_writes_follow_nonzeros
    Sample.platform Sample.matrix 4 10 50 50 (Sample.times_with 2000.5)
    Sample.testcg Sample.testsymmetry Sample.testnorms 0 false Sample.runtime
    (Sample.reductions ++ [EvGenerateYAML Sample.long_doc]) Sample.long_doc
    ltac:(by_evaluation) ltac:(by_evaluation))
    as (levels & coarsest & bm & x0 & Hl & Hlen & _ & Hbm & _ & _ & Hx0 & Hv).
  injection Hx0 as <-.
  exists levels, coarsest, bm. split; [exact Hl|]. split; [exact Hlen|].
  split; [exact Hbm|exact Hv].
Defined.

End ReportFacts.

(** ** [ReportResults] returns *)

Module ReportTotal.
Import Num Yaml Hpcg Report YamlFacts ReportFacts.

Lemma scoped_mono known known' ss :
  known ⊆ known' -> scoped known ss = true -> scoped known' ss = true.
Proof.
  revert known known'. induction ss as [|s ss IH]; intros known known' Hsub; [done|].
  simpl. rewrite !andb_true_iff, !bool_decide_eq_true. intros [Hin Hs].
  split; [by apply Hsub|].
  apply (IH ((path s ++ [akey s]) :: known)); [|done].
  intros x. rewrite !elem_of_cons. intros [->|Hx]; [by left|right; by apply Hsub].
Qed.

Lemma scoped_app known ss1 ss2 :
  scoped known ss1 = true ->
  scoped (created ss1 ++ known) ss2 = true ->
  scoped known (ss1 ++ ss2) = true.
Proof.
  revert known. induction ss1 as [|s ss1 IH]; intros known; simpl; [done|].
  rewrite !andb_true_iff. intros [Hin Hs] H2. split; [done|].
  apply IH; [done|]. eapply scoped_mono; [|exact H2].
  intros x. unfold created. simpl.
  rewrite !elem_of_cons, !elem_of_app, !elem_of_cons. tauto.
Qed.

Lemma scoped_app_indep known ss1 ss2 :
  scoped known ss1 = true -> scoped known ss2 = true ->
  scoped known (ss1 ++ ss2) = true.
Proof.
  intros H1 H2. apply scoped_app; [done|]. eapply scoped_mono; [|exact H2].
  intros x Hx. apply elem_of_app. by right.
Qed.

Lemma scoped_same_path known q ss :
  q ∈ known -> Forall (fun s => path s = q) ss -> scoped known ss = true.
Proof.
  intros Hq H. revert known Hq. induction H as [|s ss Hs _ IH]; intros known Hq; [done|].
  simpl. rewrite andb_true_iff, bool_decide_eq_true. split; [congruence|].
  apply IH. by right.
Qed.

(** Statements in scope of paths that lead somewhere all succeed. *)
Lemma run_scoped known ss d :
  (forall p, p ∈ known -> is_Some (resolve p d)) ->
  scoped known ss = true ->
  is_Some (run ss d).
Proof.
  revert known d. induction ss as [|s ss IH]; intros known d Hk; simpl; [by eexists|].
  rewrite andb_true_iff, bool_decide_eq_true. intros [Hin Hs].
  destruct (Hk _ Hin) as [e He].
  destruct (exec_is_Some (path s) (fun x => Some (add (akey s) (aval s) x)) d e He)
    as [d1 Hd1]; [by eexists|].
  unfold exec. rewrite Hd1. simpl.
  apply (IH ((path s ++ [akey s]) :: known)); [|done].
  intros p Hp. apply elem_of_cons in Hp as [->|Hp].
  - destruct (exec_resolve _ _ _ _ _ _ _ Hd1 He) as (e1 & Hr1 & Heq & _).
    rewrite resolve_app, Hr1, (Heq eq_refl). simpl. unfold get, add. simpl.
    destruct (List.find (has_key (akey s)) (children e)) as [c|] eqn:F.
    + rewrite (find_app_Some _ _ _ _ F). by eexists.
    + rewrite (find_app_None _ _ _ F). simpl.
      assert (has_key (akey s) (Element (akey s) (aval s) []) = true) as ->
        by (by apply has_key_true).
      by eexists.
  - destruct (Hk _ Hp) as [e' He'].
    destruct (exec_resolve _ _ _ _ _ _ _ Hd1 He') as (e1 & Hr1 & _). by eexists.
Qed.

(** *** The loops over a well-formed hierarchy *)

Lemma flops_loop_returns k A fniters x :
  hierarchy k A ->
  exists acc Af, flops_loop k (Some A) fniters x = Some (acc, Some Af).
Proof.
  revert A x. induction k as [|k IH]; intros A x; simpl.
  - intros _. by do 2 eexists.
  - intros (mg & Ac_ & -> & -> & Hh). simpl. apply IH, Hh.
Qed.

Lemma bandwidth_loop_returns plat k A fniters x y :
  hierarchy k A ->
  exists r w Af, bandwidth_loop plat k (Some A) fniters x y = Some (r, w, Some Af).
Proof.
  revert A x y. induction k as [|k IH]; intros A x y; simpl.
  - intros _. by do 3 eexists.
  - intros (mg & Ac_ & -> & -> & Hh). simpl. apply IH, Hh.
Qed.

Lemma memory_loop_returns plat k A i sz x (v : list float) :
  hierarchy k A ->
  0 <= i -> i + Z.of_nat k <= Z.of_nat (length v) ->
  exists fb v',
    memory_loop plat k i (Ac A) sz x v = Some (fb, v', None)
    /\ length v' = length v.
Proof.
  revert A i x v. induction k as [|k IH]; intros A i x v; simpl.
  - intros -> _ _. by do 2 eexists.
  - intros (mg & Ac_ & _ & -> & Hh) Hi Hlen. simpl.
    unfold vec_set at 1.
    assert ((0 <=? i) && (i <? Z.of_nat (length v)) = true) as -> by lia.
    simpl.
    match goal with
    | |- context [memory_loop _ _ _ _ _ ?x' ?v'] =>
        destruct (IH Ac_ (i + 1) x' v' Hh) as (fb & v'' & -> & Hl)
    end; [lia | rewrite length_insert; lia |].
    exists fb, v''. split; [done|]. by rewrite Hl, length_insert.
Qed.

Lemma coarse_grids_loop_returns k i A :
  hierarchy k A -> is_Some (coarse_grids_loop k i (Some A)).
Proof.
  revert A i. induction k as [|k IH]; intros A i; simpl.
  - intros _. by eexists.
  - intros (mg & Ac_ & -> & -> & Hh). simpl.
    destruct (IH Ac_ (i + 1) Hh) as [l ->]. by eexists.
Qed.

Lemma memory_used_loop_returns k i (v : list float) :
  0 <= i -> i + Z.of_nat k <= Z.of_nat (length v) ->
  is_Some (memory_used_loop k i v).
Proof.
  revert i. induction k as [|k IH]; intros i Hi Hlen; simpl; [by eexists|].
  unfold vec_get at 1. assert ((0 <=? i) = true) as -> by lia.
  destruct (lookup_lt_is_Some_2 v (Z.to_nat i)) as [b ->]; [lia|]. simpl.
  destruct (IH (i + 1)) as [l ->]; [lia..|]. by eexists.
Qed.

(** *** The statements of the report are in scope *)

Lemma scoped_problem A n t l :
  problem_stmts A n t = Some l -> scoped [[]] l = true.
Proof.
  unfold problem_stmts. intros H.
  apply bind_Some in H. destruct H as (c & Hc & H).
  assert (l = problem_head A n t ++ c) as -> by congruence.
  apply scoped_app; [reflexivity|].
  eapply scoped_same_path; [|by eapply coarse_grids_loop_paths].
  apply (bool_decide_unpack _). reflexivity.
Qed.

Lemma scoped_memory mm n l :
  memory_stmts mm n = Some l -> scoped [[]] l = true.
Proof.
  unfold memory_stmts. intros H.
  apply bind_Some in H. destruct H as (b & _ & H).
  apply bind_Some in H. destruct H as (c & Hc & H).
  assert (l = memory_head mm b ++ c) as -> by congruence.
  apply scoped_app; [reflexivity|].
  eapply scoped_same_path; [|by eapply memory_used_loop_paths].
  apply (bool_decide_unpack _). reflexivity.
Qed.

Lemma scoped_testing tcg tsym : scoped [[]] (testing_stmts tcg tsym) = true.
Proof. unfold testing_stmts, PASSED_or_FAILED. by repeat case_match. Qed.

Lemma scoped_iterations ncg r o tn gf :
  scoped [[]] (iterations_stmts ncg r o tn gf) = true.
Proof. unfold iterations_stmts, PASSED_or_FAILED. by repeat case_match. Qed.

Lemma scoped_final A fm ncg T valid m qp :
  scoped [[]] (final_stmts A fm ncg T valid m qp) = true.
Proof.
  unfold final_stmts, reference_notes, official_time_stmts.
  by repeat case_match.
Qed.

Lemma report_stmts_run plat A nmg ncg r o T tcg tsym tn gf qp m a b c ss :
  report_stmts plat A nmg ncg r o T tcg tsym tn gf qp m a b c = Some ss ->
  is_Some (run ss (YAML_Doc "HPCG-Benchmark" "3.0")).
Proof.
  unfold report_stmts. intros H.
  apply bind_Some in H. destruct H as (fm & Hfm & H).
  apply bind_Some in H. destruct H as (bm & Hbm & H).
  apply bind_Some in H. destruct H as (mm & Hmm & H).
  apply bind_Some in H. destruct H as (problem & Hp & H).
  apply bind_Some in H. destruct H as (memory & Hm & H).
  match type of H with Some ?l = _ => assert (ss = l) as -> by congruence end.
  apply (run_scoped [[]]).
  - intros p Hp'. apply list_elem_of_singleton in Hp' as ->. by eexists.
  - apply scoped_app_indep; [reflexivity|].
    apply scoped_app_indep; [by eapply scoped_problem|].
    apply scoped_app_indep; [by eapply scoped_memory|].
    apply scoped_app_indep; [apply scoped_testing|].
    apply scoped_app_indep; [apply scoped_iterations|].
    apply scoped_app_indep; [reflexivity|].
    apply scoped_final.
Qed.

(** On a hierarchy of [numberOfMgLevels] levels and with the ten timers,
    [ReportResults] returns on every rank, and on rank 0 it emits one
    document. *)
Theorem ReportResults_returns plat A nmg ncg r o times tcg tsym tn gf qp lrt :
  1 <= nmg ->
  hierarchy (mg_loop_count nmg) A ->
  (10 <= length times)%nat ->
  exists tr,
    ReportResults plat A nmg ncg r o times tcg tsym tn gf qp lrt = Some tr
    /\ (rank (geom A) = 0 -> exists doc, emitted tr = [doc]).
Proof.
  intros Hn Hh Hlen.
  assert (forall i, (i < 10)%nat -> is_Some (times !! i)) as Ht
    by (intros i Hi; apply lookup_lt_is_Some_2; lia).
  unfold ReportResults.
  destruct (Ht 4%nat) as [t4 ->]; [lia|]. simpl.
  destruct (rank (geom A) =? 0) eqn:E; [|eexists; split; [done|]; lia].
  assert (exists T, read_times times = Some T) as [T ->].
  { unfold read_times.
    destruct (Ht 0%nat) as [? ->]; [lia|]. destruct (Ht 1%nat) as [? ->]; [lia|].
    destruct (Ht 2%nat) as [? ->]; [lia|]. destruct (Ht 3%nat) as [? ->]; [lia|].
    destruct (Ht 5%nat) as [? ->]; [lia|]. destruct (Ht 7%nat) as [? ->]; [lia|].
    destruct (Ht 8%nat) as [? ->]; [lia|]. destruct (Ht 9%nat) as [? ->]; [lia|].
    by eexists. }
  simpl.
  match goal with
  | |- context [report_stmts ?p ?A' ?n ?c ?r' ?o' ?T' ?a1 ?a2 ?a3 ?a4 ?a5 ?a6 ?a7 ?a8 ?a9] =>
      assert (exists ss, report_stmts p A' n c r' o' T' a1 a2 a3 a4 a5 a6 a7 a8 a9
                         = Some ss) as [ss Hss]
  end.
  { unfold report_stmts, flop_model, bandwidth_model, memory_model,
      problem_stmts, memory_stmts.
    destruct (flops_loop_returns _ _ (double_of_Z ncg * double_of_Z o) 0 Hh)
      as (acc & Af & ->).
    destruct (bandwidth_loop_returns plat _ _
                (double_of_Z ncg * double_of_Z o) 0 0 Hh) as (rd & wr & Af' & ->).
    simpl. unfold vec_new. assert ((nmg <? 0) = false) as -> by lia. simpl.
    unfold vec_set at 1. rewrite length_replicate.
    assert ((0 <=? 0) && (0 <? Z.of_nat (Z.to_nat nmg)) = true) as ->
      by (apply andb_true_intro; split; [reflexivity | apply Z.ltb_lt; lia]).
    simpl.
    match goal with
    | |- context [memory_loop _ _ _ _ ?sz ?x ?v] =>
        destruct (memory_loop_returns plat _ _ 1 sz x v Hh) as (fb & v' & -> & Hl)
    end.
    { lia. }
    { rewrite length_insert, length_replicate. unfold mg_loop_count. lia. }
    simpl.
    destruct (coarse_grids_loop_returns _ 1 _ Hh) as [cg ->]. simpl.
    rewrite length_insert, length_replicate in Hl.
    destruct v' as [|b0 v']; [simpl in Hl; lia|].
    unfold vec_get at 1. simpl.
    destruct (memory_used_loop_returns (mg_loop_count nmg) 1 (b0 :: v')) as [mu ->];
      [lia | unfold mg_loop_count; lia |].
    simpl. by eexists. }
  rewrite Hss. simpl.
  destruct (report_stmts_run _ _ _ _ _ _ _ _ _ _ _ _ _ _ _ _ _ Hss) as [doc ->].
  simpl. eexists. split; [done|]. intros _. by eexists.
Qed.

Lemma ReportResults_returns_witness :
  hierarchy (mg_loop_count 4) Sample.matrix
  /\ exists tr doc,
       Sample.call 2000.5 0 false = Some tr /\ emitted tr = [doc].
Proof.
  assert (hierarchy (mg_loop_count 4) Sample.matrix) as Hh.
  { unfold mg_loop_count. simpl.
    repeat (do 2 eexists; split; [reflexivity|]; split; [reflexivity|]).
    reflexivity. }
  split; [exact Hh|].
  destruct (ReportResults_returns
    Sample.platform Sample.matrix 4 10 50 50 (Sample.times_with 2000.5)
    Sample.testcg Sample.testsymmetry Sample.testnorms 0 false Sample.runtime
    ltac:(lia) Hh ltac:(simpl; lia)) as (tr & Htr & Hdoc).
  destruct (Hdoc eq_refl) as [doc Hd].
  exists tr, doc. split; [exact Htr|exact Hd].
Defined.

End ReportTotal.

(** ** [LogicalSparseMatrix]: allocation, partitioning, release *)

Module LegionFacts.
Import Num Hpcg Legion.

(** Evaluation of the statements of a member function on a world whose
    lengths are symbolic. *)
Ltac eval_world :=
  cbv -[replicate Z.to_nat wrap_int getGlobalXYZ Z.mul Z.sub Z.add Z.div app
        replicate_handle size stencilSize length drop Z.of_nat Z.leb Z.ltb
        created_collectives partitioned_fields allocated_fields
        deallocated_fields occurrences].

(** The calls added to a symbolic list of earlier calls. *)
Ltac new_calls :=
  repeat rewrite drop_app_le by (rewrite ?length_app; cbn [length]; lia);
  rewrite drop_all; cbn [app].

Lemma replicate_handle_spec n i dc (l : list Cell) :
  (i + n <= length l)%nat ->
  replicate_handle n i dc l
  = Some (take i l ++ replicate n (Handle dc) ++ drop (i + n) l).
Proof.
  revert i l. induction n as [|n IH]; intros i l Hlen; simpl.
  - by rewrite Nat.add_0_r, take_drop.
  - rewrite decide_True by lia.
    rewrite IH by (rewrite length_insert; lia).
    rewrite (take_S_r _ _ (Handle dc)) by (apply list_lookup_insert_eq; lia).
    rewrite take_insert_ge by lia.
    rewrite drop_insert_lt by lia.
    replace (i + S n)%nat with (S i + n)%nat by lia.
    rewrite <- app_assoc. reflexivity.
Qed.

Lemma replicate_handle_fresh n dc :
  replicate_handle n 0 dc (replicate n Uninitialized)
  = Some (replicate n (Handle dc)).
Proof.
  rewrite replicate_handle_spec by (rewrite length_replicate; lia).
  simpl. rewrite drop_ge by (rewrite length_replicate; lia).
  by rewrite app_nil_r.
Qed.

(** [allocate] always returns, and leaves [dcAllreduceSum] with [geom.size]
    cells. *)
Lemma allocate_returns geom w :
  exists w',
    allocate geom w = Some ((), w')
    /\ cells (arrays w' dcAllreduceSum)
       = Some (replicate (Z.to_nat (size geom)) Uninitialized)
    /\ (forall f, is_Some (cells (arrays w' f)))
    /\ allocated_fields (calls_of (allocate geom) w) = allocation_order.
Proof.
  destruct w as [arr ld cs nc]. eexists. split; [eval_world; reflexivity|].
  split; [reflexivity|]. split.
  - intros f. destruct f; eval_world; by eexists.
  - unfold calls_of. eval_world. new_calls. reflexivity.
Qed.

Lemma subregion_spec a c n i :
  cells a = Some c -> parts a = Some n -> 0 <= i < n ->
  subregion a i = Some (i * (Z.of_nat (length c) / n), Z.of_nat (length c) / n).
Proof.
  intros Hc Hn Hi. unfold subregion. rewrite Hc, Hn. simpl.
  assert ((0 <=? i) && (i <? n) = true) as -> by lia. done.
Qed.

(** C7: [partition(nParts)] with [nParts = geom.size], on a bundle allocated
    for [geom], creates exactly one dynamic collective; its number of
    arrivals is [nParts]; its handle is written into every one of the
    [nParts] cells of [dcAllreduceSum]; and each of the fourteen arrays is
    partitioned into the same [nParts] sub-regions of equal extent. *)
Theorem partition_replicates_one_collective geom w0 :
  let nParts := size geom in
  exists w1 w2 dc,
    allocate geom w0 = Some ((), w1)
    /\ partition nParts w1 = Some ((), w2)
    /\ created_collectives (calls_of (partition nParts) w1) = [dc]
    /\ nArrivals dc = nParts
    /\ cells (arrays w2 dcAllreduceSum)
       = Some (replicate (Z.to_nat nParts) (Handle dc))
    /\ (forall i c, 0 <= i < nParts ->
        cells (arrays w2 dcAllreduceSum) = Some c ->
        c !! Z.to_nat i = Some (Handle dc))
    /\ partitioned_fields (calls_of (partition nParts) w1)
       = (fun f => (f, nParts)) <$> allocation_order
    /\ (forall f, parts (arrays w2 f) = Some nParts)
    /\ (forall f i, 0 <= i < nParts ->
        exists c, cells (arrays w2 f) = Some c
          /\ subregion (arrays w2 f) i
             = Some (i * (Z.of_nat (length c) / nParts),
                     Z.of_nat (length c) / nParts))
    /\ launchDomain w2 = Some nParts.
Proof.
  intros nParts. subst nParts. destruct w0 as [arr ld cs nc].
  do 2 eexists.
  exists {| dcId := nc; nArrivals := size geom; redop := INT_REDUCE_SUM_TID |}.
  split; [eval_world; reflexivity|].
  split; [eval_world; rewrite replicate_handle_fresh; eval_world; reflexivity|].
  split.
  { unfold calls_of. eval_world. rewrite replicate_handle_fresh. eval_world.
    new_calls. reflexivity. }
  split; [reflexivity|].
  split; [reflexivity|].
  split.
  { intros i c Hi. eval_world. intros [= <-].
    apply lookup_replicate_2. lia. }
  split.
  { unfold calls_of. eval_world. rewrite replicate_handle_fresh. eval_world.
    new_calls. reflexivity. }
  split; [intros f; destruct f; reflexivity|].
  split; [|reflexivity].
  intros f i Hi.
  destruct f; (eexists; split; [eval_world; reflexivity|]);
    (eapply subregion_spec; [eval_world; reflexivity|reflexivity|done]).
Qed.

(** The same on the single-rank geometry, evaluated. *)
Lemma partition_replicates_one_collective_witness :
  exists w1 w2 dc,
    allocate small_geometry new_world = Some ((), w1)
    /\ partition 1 w1 = Some ((), w2)
    /\ created_collectives (calls w2) = [dc]
    /\ cells (arrays w2 dcAllreduceSum) = Some [Handle dc].
Proof.
  destruct (partition_replicates_one_collective small_geometry new_world)
    as (w1 & w2 & dc & Ha & Hp & Hc & _ & Hcells & _).
  exists w1, w2, dc. split; [exact Ha|]. split; [exact Hp|].
  split; [|exact Hcells].
  assert (allocate small_geometry new_world = Some ((), w1)) as Ha' by exact Ha.
  vm_compute in Ha'. injection Ha' as <-.
  vm_compute in Hp. injection Hp as <-.
  vm_compute in Hc. injection Hc as <-. vm_compute. reflexivity.
Defined.

(** C6, as stated, fails: on the single-rank geometry, [allocate] followed by
    [deallocate] allocates the fourteen arrays in allocation order, but the
    deallocations are not the reverse of that order; [pullBuffer] is never
    deallocated and [pullBEs] is deallocated twice. *)
Lemma deallocate_is_not_reverse_allocation :
  let cs := calls_of (allocate small_geometry;; deallocate) new_world in
  allocated_fields cs = allocation_order
  /\ deallocated_fields cs <> rev allocation_order
  /\ occurrences pullBuffer (deallocated_fields cs) = 0%nat
  /\ occurrences pullBEs (deallocated_fields cs) = 2%nat
  /\ (exists w, exec_from (allocate small_geometry;; deallocate) new_world = Some w
               /\ is_Some (cells (arrays w pullBuffer))).
Proof.
  cbv zeta. split; [vm_compute; reflexivity|].
  split; [vm_compute; discriminate|].
  split; [vm_compute; reflexivity|].
  split; [vm_compute; reflexivity|].
  eexists. split; [vm_compute; reflexivity|]. vm_compute. by eexists.
Qed.

(** C6, amended: [deallocate] always returns; its deallocations begin with
    the twelve arrays [geoms], [sclrs], [mtxIndG], [mtxIndL], [nonzerosInRow],
    [matrixValues], [matrixDiagonal], [localToGlobalMap], [dcAllreduceSum],
    [neighbors], [sendLength], [synchronizers], in this order, which is the
    order of declaration but for [nonzerosInRow], and not the reverse of the
    allocation order; each of the twelve is deallocated exactly once and
    holds no region afterwards. *)
Theorem deallocate_releases_in_declaration_order w :
  exists w' rest,
    deallocate w = Some ((), w')
    /\ deallocated_fields (calls_of deallocate w) = released_in_order ++ rest
    /\ Forall (fun f =>
         occurrences f (deallocated_fields (calls_of deallocate w)) = 1%nat
         /\ cells (arrays w' f) = None) released_in_order.
Proof.
  destruct w as [arr ld cs nc]. do 2 eexists.
  split; [eval_world; reflexivity|].
  split.
  - unfold calls_of. eval_world. new_calls. reflexivity.
  - unfold calls_of. eval_world. new_calls.
    unfold released_in_order. repeat constructor.
Qed.

(** The slip of line 290, from any state: [deallocate] never touches
    [pullBuffer] and deallocates [pullBEs] twice. *)
Lemma deallocate_skips_pullBuffer w :
  exists w',
    deallocate w = Some ((), w')
    /\ arrays w' pullBuffer = arrays w pullBuffer
    /\ occurrences pullBuffer (deallocated_fields (calls_of deallocate w)) = 0%nat
    /\ occurrences pullBEs (deallocated_fields (calls_of deallocate w)) = 2%nat.
Proof.
  destruct w as [arr ld cs nc]. eexists.
  split; [eval_world; reflexivity|].
  split; [reflexivity|].
  split; unfold calls_of; eval_world; new_calls; reflexivity.
Qed.

End LegionFacts.

(** ** [PopulateGlobalToLocalMap]: the inverse of the row indexing *)

Module GlobalToLocalFacts.
Import Num Hpcg GlobalToLocal.

Lemma wrap_small w z :
  0 < w -> - 2 ^ (w - 1) <= z < 2 ^ (w - 1) -> wrap w z = z.
Proof.
  intros Hw Hz. unfold wrap.
  assert (2 ^ w = 2 * 2 ^ (w - 1)) as ->.
  { rewrite <- Z.pow_succ_r by lia. f_equal. lia. }
  rewrite Z.mod_small by lia. lia.
Qed.

Lemma foldl_bind {A B C} (f : A -> C -> A) (k : B -> list C) (l : list B) (a : A) :
  foldl f a (l ≫= k) = foldl (fun a x => foldl f a (k x)) a l.
Proof.
  revert a. induction l as [|x l IH]; intros a; [done|].
  rewrite bind_cons, foldl_app. simpl. apply IH.
Qed.

Lemma foldl_ext_in {A B} (f g : A -> B -> A) (l : list B) (a : A) :
  (forall a x, x ∈ l -> f a x = g a x) -> foldl f a l = foldl g a l.
Proof.
  revert a. induction l as [|x l IH]; intros a H; [done|]. simpl.
  rewrite H by left. apply IH. intros. apply H. by right.
Qed.

(** The loops insert the entries of the local points in visiting order. *)
Lemma populate_as_fold lw gw A :
  globalToLocalMap (PopulateGlobalToLocalMap lw gw A)
  = foldl (fun m p => <[(row_entry lw gw (geom A) p).1 :=
                         (row_entry lw gw (geom A) p).2]> m)
      (globalToLocalMap A) (local_points (geom A)).
Proof.
  unfold PopulateGlobalToLocalMap, local_points. simpl.
  rewrite foldl_bind. apply foldl_ext_in. intros m iz _.
  rewrite foldl_bind. apply foldl_ext_in. intros m' iy _.
  rewrite foldl_bind. apply foldl_ext_in. intros m'' ix _.
  reflexivity.
Qed.

(** Inserting a list of entries with distinct keys. *)
Section Inserts.
Local Abbreviation ins := insert_entry.

Lemma inserts_lookup_other (l : list (Z * Z)) (m : gmap Z Z) k :
  k ∉ l.*1 -> foldl ins m l !! k = m !! k.
Proof.
  revert m. induction l as [|[k' v'] l IH]; intros m; [done|].
  rewrite fmap_cons, not_elem_of_cons. simpl. intros [Hne Hn].
  rewrite IH by done. unfold ins. simpl. by rewrite lookup_insert_ne.
Qed.

Lemma inserts_lookup (l : list (Z * Z)) (m : gmap Z Z) k v :
  NoDup l.*1 -> (k, v) ∈ l -> foldl ins m l !! k = Some v.
Proof.
  revert m. induction l as [|[k' v'] l IH]; intros m Hnd Hin.
  - by apply elem_of_nil in Hin.
  - rewrite fmap_cons in Hnd. apply NoDup_cons in Hnd as [Hk' Hnd].
    apply elem_of_cons in Hin as [[= -> ->]|Hin]; simpl.
    + rewrite inserts_lookup_other by done. unfold ins. simpl.
      apply lookup_insert_eq.
    + by apply IH.
Qed.

Lemma inserts_size (l : list (Z * Z)) (m : gmap Z Z) :
  NoDup l.*1 -> (forall k, k ∈ l.*1 -> m !! k = None) ->
  base.size (foldl ins m l) = (base.size m + length l)%nat.
Proof.
  revert m. induction l as [|[k' v'] l IH]; intros m Hnd Hfresh; simpl; [lia|].
  rewrite fmap_cons in Hnd. apply NoDup_cons in Hnd as [Hk' Hnd].
  rewrite IH; [|done|].
  - unfold ins. simpl. rewrite map_size_insert_None; [lia|].
    apply Hfresh. rewrite fmap_cons. left.
  - intros k Hk. unfold ins. simpl. rewrite lookup_insert_ne.
    + apply Hfresh. rewrite fmap_cons. by right.
    + intros ->. done.
Qed.

Lemma inserts_inv (l : list (Z * Z)) (m : gmap Z Z) k v :
  foldl ins m l !! k = Some v -> (k, v) ∈ l \/ m !! k = Some v.
Proof.
  revert m. induction l as [|[k' v'] l IH]; intros m; simpl; [by right|].
  intros H. apply IH in H as [H|H]; [left; by right|].
  unfold ins in H. simpl in H.
  destruct (decide (k' = k)) as [->|Hne].
  - rewrite lookup_insert_eq in H. injection H as ->. left. left.
  - rewrite lookup_insert_ne in H by done. by right.
Qed.

End Inserts.

(** The local rows of the points, in visiting order, count up from 0. *)
Section CountUp.
Variables X Y : Z.
Hypothesis HX : 0 <= X.
Hypothesis HY : 0 <= Y.

Local Abbreviation row := (row_in X Y).

Lemma rows_of_line iy iz :
  row <$> (seqZ 0 X ≫= fun ix => [(ix, iy, iz)]) = seqZ (iz * X * Y + iy * X) X.
Proof.
  rewrite <- (Z.add_0_r (iz * X * Y + iy * X)), <- fmap_add_seqZ.
  induction (seqZ 0 X) as [|ix l IH]; [done|].
  rewrite bind_cons, fmap_app, IH. unfold row_in. simpl. f_equal; lia.
Qed.

Lemma rows_of_plane (n : Z) iz :
  0 <= n ->
  row <$> (seqZ 0 n ≫= fun iy => seqZ 0 X ≫= fun ix => [(ix, iy, iz)])
  = seqZ (iz * X * Y) (n * X).
Proof.
  intros Hn. rewrite <- (Z2Nat.id n) by done.
  induction (Z.to_nat n) as [|m IH].
  - simpl. by rewrite seqZ_nil by lia.
  - rewrite seqZ_S, bind_app, fmap_app, IH. simpl. rewrite app_nil_r.
    rewrite rows_of_line.
    replace (Z.of_nat (S m) * X) with (Z.of_nat m * X + X) by lia.
    rewrite seqZ_app by lia.
    replace (iz * X * Y + (0 + Z.of_nat m) * X)
      with (iz * X * Y + Z.of_nat m * X) by ring.
    reflexivity.
Qed.

Lemma rows_of_box (n : Z) :
  0 <= n ->
  row <$> (seqZ 0 n ≫= fun iz =>
           seqZ 0 Y ≫= fun iy => seqZ 0 X ≫= fun ix => [(ix, iy, iz)])
  = seqZ 0 (n * (X * Y)).
Proof.
  intros Hn. rewrite <- (Z2Nat.id n) by done.
  induction (Z.to_nat n) as [|k IH].
  - simpl. by rewrite seqZ_nil by lia.
  - rewrite seqZ_S, bind_app, fmap_app, IH. simpl. rewrite app_nil_r.
    rewrite rows_of_plane by done.
    replace (Z.of_nat (S k) * (X * Y)) with (Z.of_nat k * (X * Y) + X * Y) by lia.
    rewrite seqZ_app by lia.
    replace ((0 + Z.of_nat k) * X * Y) with (0 + Z.of_nat k * (X * Y)) by ring.
    replace (Y * X) with (X * Y) by ring. reflexivity.
Qed.

End CountUp.

Lemma local_rows_count_up g :
  0 <= nx g -> 0 <= ny g -> 0 <= nz g ->
  (fun p => local_row g p.1.1 p.1.2 p.2) <$> local_points g
  = seqZ 0 (nx g * ny g * nz g).
Proof.
  intros Hx Hy Hz. unfold local_points, local_row.
  rewrite (rows_of_box (nx g) (ny g)) by lia.
  f_equal. lia.
Qed.

Lemma elem_of_local_points g ix iy iz :
  (ix, iy, iz) ∈ local_points g
  <-> 0 <= ix < nx g /\ 0 <= iy < ny g /\ 0 <= iz < nz g.
Proof.
  unfold local_points. rewrite list_elem_of_bind. split.
  - intros (z & H & Hz). apply list_elem_of_bind in H as (y & H & Hy).
    apply list_elem_of_bind in H as (x & H & Hx).
    apply list_elem_of_singleton in H. injection H as -> -> ->.
    rewrite elem_of_seqZ in Hx, Hy, Hz. lia.
  - intros (Hx & Hy & Hz). exists iz. rewrite elem_of_seqZ. split; [|lia].
    apply list_elem_of_bind. exists iy. rewrite elem_of_seqZ. split; [|lia].
    apply list_elem_of_bind. exists ix. rewrite elem_of_seqZ. split; [|lia].
    by apply list_elem_of_singleton.
Qed.

Lemma radix_unique a r a' r' B :
  0 <= r < B -> 0 <= r' < B -> a * B + r = a' * B + r' -> a = a' /\ r = r'.
Proof. intros Hr Hr' H. assert (a = a') by nia. subst. lia. Qed.

(** The global row formula is injective on the local points. *)
Lemma global_row_inj g ix iy iz ix' iy' iz' :
  in_grid g ->
  0 <= ix < nx g -> 0 <= iy < ny g -> 0 <= iz < nz g ->
  0 <= ix' < nx g -> 0 <= iy' < ny g -> 0 <= iz' < nz g ->
  global_row g ix iy iz = global_row g ix' iy' iz' ->
  ix = ix' /\ iy = iy' /\ iz = iz'.
Proof.
  intros (Hx & Hy & Hz & Hpx & Hpy & Hpz) Hix Hiy Hiz Hix' Hiy' Hiz'.
  unfold global_row. intros H.
  assert (0 <= ipx g * nx g + ix < nx g * npx g) as Hgx by nia.
  assert (0 <= ipx g * nx g + ix' < nx g * npx g) as Hgx' by nia.
  assert (0 <= ipy g * ny g + iy < ny g * npy g) as Hgy by nia.
  assert (0 <= ipy g * ny g + iy' < ny g * npy g) as Hgy' by nia.
  destruct (radix_unique
              ((ipz g * nz g + iz) * (ny g * npy g) + (ipy g * ny g + iy))
              (ipx g * nx g + ix)
              ((ipz g * nz g + iz') * (ny g * npy g) + (ipy g * ny g + iy'))
              (ipx g * nx g + ix') (nx g * npx g) Hgx Hgx') as [Ha Hr]; [lia|].
  destruct (radix_unique _ _ _ _ _ Hgy Hgy' Ha) as [Ha' Hr'].
  lia.
Qed.

(** On a rank of the grid whose rows are representable, the loop body
    computes the rows of the specification. *)
Lemma row_entry_exact lw gw g ix iy iz :
  in_grid g -> representable lw gw g ->
  0 <= ix < nx g -> 0 <= iy < ny g -> 0 <= iz < nz g ->
  row_entry lw gw g (ix, iy, iz) = (global_row g ix iy iz, local_row g ix iy iz).
Proof.
  intros (Hx & Hy & Hz & Hpx & Hpy & Hpz) (Hlw & Hgw & Hl & Hg) Hix Hiy Hiz.
  unfold row_entry, global_row, local_row, to_global, to_local.
  set (X := nx g) in *. set (Y := ny g) in *. set (Zn := nz g) in *.
  set (PX := npx g) in *. set (PY := npy g) in *. set (PZ := npz g) in *.
  set (IX := ipx g) in *. set (IY := ipy g) in *. set (IZ := ipz g) in *.
  assert (0 < 2 ^ (gw - 1)) as Hpg by (apply Z.pow_pos_nonneg; lia).
  assert (0 <= IX * X + ix < X * PX) as Hgx by nia.
  assert (0 <= IY * Y + iy < Y * PY) as Hgy by nia.
  assert (0 <= IZ * Zn + iz < Zn * PZ) as Hgz by nia.
  assert (1 <= X * PX) as Hnx by nia.
  assert (1 <= Y * PY) as Hny by nia.
  assert (1 <= Zn * PZ) as Hnz by nia.
  assert (X * PX <= (X * PX) * (Y * PY)) as H1 by nia.
  assert ((X * PX) * (Y * PY) <= (X * PX) * (Y * PY) * (Zn * PZ)) as H2 by nia.
  assert (Y * PY <= (X * PX) * (Y * PY)) as H3 by nia.
  assert (Zn * PZ <= (X * PX) * (Y * PY) * (Zn * PZ)) as H4 by nia.
  assert (0 <= (IZ * Zn + iz) * (X * PX) * (Y * PY)
               + (IY * Y + iy) * (X * PX) + (IX * X + ix)
          < (X * PX) * (Y * PY) * (Zn * PZ)) as Hrow.
  { split; [nia|].
    assert ((IY * Y + iy) * (X * PX) + (IX * X + ix) < (X * PX) * (Y * PY)) by nia.
    assert ((IZ * Zn + iz) * ((X * PX) * (Y * PY)) + (X * PX) * (Y * PY)
            <= (Zn * PZ) * ((X * PX) * (Y * PY))) by nia.
    nia. }
  assert (0 <= iz * X * Y + iy * X + ix < X * Y * Zn) as Hloc.
  { split; [nia|].
    assert (iy * X + ix < X * Y) by nia.
    assert (iz * (X * Y) + X * Y <= Zn * (X * Y)) by nia.
    nia. }
  assert (X * Y * Zn <= (X * PX) * (Y * PY) * (Zn * PZ)) as Hle.
  { assert (X * Y <= (X * PX) * (Y * PY)) by nia. nia. }
  rewrite (wrap_small gw (X * PX)) by lia.
  rewrite (wrap_small gw (Y * PY)) by lia.
  rewrite (wrap_small gw (IZ * Zn + iz)) by lia.
  rewrite (wrap_small gw (IY * Y + iy)) by lia.
  rewrite (wrap_small gw (IX * X + ix)) by lia.
  rewrite (wrap_small gw (_ + _ + (IX * X + ix))) by lia.
  rewrite (wrap_small gw (iz * X * Y + iy * X + ix)) by lia.
  rewrite (wrap_small lw) by lia.
  reflexivity.
Qed.

(** The entries of the specification, in visiting order. *)
Lemma populate_entries lw gw A :
  in_grid (geom A) -> representable lw gw (geom A) ->
  globalToLocalMap (PopulateGlobalToLocalMap lw gw A)
  = foldl insert_entry (globalToLocalMap A)
      ((fun p : Z * Z * Z => (global_row (geom A) p.1.1 p.1.2 p.2,
                              local_row (geom A) p.1.1 p.1.2 p.2))
         <$> local_points (geom A)).
Proof.
  intros Hgrid Hrep. rewrite populate_as_fold, foldl_fmap.
  apply foldl_ext_in. intros m [[ix iy] iz] Hin.
  apply elem_of_local_points in Hin as (Hx & Hy & Hz).
  by rewrite row_entry_exact.
Qed.

Lemma local_points_NoDup g :
  0 <= nx g -> 0 <= ny g -> 0 <= nz g -> NoDup (local_points g).
Proof.
  intros Hx Hy Hz.
  apply (NoDup_fmap_1 (fun p => local_row g p.1.1 p.1.2 p.2)).
  rewrite local_rows_count_up by done. apply NoDup_seqZ.
Qed.

Lemma local_points_length g :
  0 <= nx g -> 0 <= ny g -> 0 <= nz g ->
  length (local_points g) = Z.to_nat (nx g * ny g * nz g).
Proof.
  intros Hx Hy Hz.
  rewrite <- (length_fmap (fun p => local_row g p.1.1 p.1.2 p.2)).
  rewrite local_rows_count_up by done. apply length_seqZ.
Qed.

(** C9: after [PopulateGlobalToLocalMap] on a rank of the process grid, with
    an initially empty map and rows that are representable in the integer
    types, the map has exactly [nx*ny*nz] entries and sends the global row of
    every local point to its local row; the global row formula is injective
    on the local points. *)
Theorem populate_inverts_row_indexing lw gw A :
  let g := geom A in
  let m := globalToLocalMap (PopulateGlobalToLocalMap lw gw A) in
  globalToLocalMap A = ∅ ->
  in_grid g ->
  representable lw gw g ->
  base.size m = Z.to_nat (nx g * ny g * nz g)
  /\ (forall ix iy iz,
        0 <= ix < nx g -> 0 <= iy < ny g -> 0 <= iz < nz g ->
        m !! global_row g ix iy iz = Some (local_row g ix iy iz))
  /\ (forall grow lrow,
        m !! grow = Some lrow ->
        exists ix iy iz,
          0 <= ix < nx g /\ 0 <= iy < ny g /\ 0 <= iz < nz g
          /\ grow = global_row g ix iy iz /\ lrow = local_row g ix iy iz)
  /\ (forall ix iy iz ix' iy' iz',
        0 <= ix < nx g -> 0 <= iy < ny g -> 0 <= iz < nz g ->
        0 <= ix' < nx g -> 0 <= iy' < ny g -> 0 <= iz' < nz g ->
        global_row g ix iy iz = global_row g ix' iy' iz' ->
        ix = ix' /\ iy = iy' /\ iz = iz').
Proof.
  intros g m Hempty Hgrid Hrep. subst m.
  rewrite (populate_entries lw gw A Hgrid Hrep), Hempty. fold g.
  pose proof Hgrid as (Hx & Hy & Hz & _).
  set (entries := (fun p : Z * Z * Z => (global_row g p.1.1 p.1.2 p.2,
                                         local_row g p.1.1 p.1.2 p.2))
                    <$> local_points g).
  assert (NoDup entries.*1) as Hnd.
  { unfold entries. rewrite <- list_fmap_compose.
    apply NoDup_fmap_2_strong; [|by apply local_points_NoDup].
    intros [[ix iy] iz] [[ix' iy'] iz'] Hp Hp'. simpl. intros Heq.
    apply elem_of_local_points in Hp as (? & ? & ?).
    apply elem_of_local_points in Hp' as (? & ? & ?).
    destruct (global_row_inj g ix iy iz ix' iy' iz') as (-> & -> & ->); done. }
  split; [|split; [|split]].
  - rewrite inserts_size; [| done | intros; apply lookup_empty].
    rewrite map_size_empty. unfold entries. rewrite length_fmap. simpl.
    by apply local_points_length.
  - intros ix iy iz Hix Hiy Hiz. apply inserts_lookup; [done|].
    unfold entries. apply list_elem_of_fmap. exists (ix, iy, iz).
    split; [done|]. by apply elem_of_local_points.
  - intros grow lrow H. apply inserts_inv in H as [H|H].
    + unfold entries in H. apply list_elem_of_fmap in H as ([[ix iy] iz] & Heq & Hp).
      apply elem_of_local_points in Hp. injection Heq as -> ->.
      exists ix, iy, iz. tauto.
    + by rewrite lookup_empty in H.
  - intros. by apply (global_row_inj g).
Qed.

Lemma populate_inverts_row_indexing_witness :
  in_grid (geom sample_matrix)
  /\ representable 32 64 (geom sample_matrix)
  /\ base.size (globalToLocalMap (PopulateGlobalToLocalMap 32 64 sample_matrix))
     = 24%nat
  /\ globalToLocalMap (PopulateGlobalToLocalMap 32 64 sample_matrix)
       !! global_row (geom sample_matrix) 3 2 1
     = Some 23.
Proof.
  assert (in_grid (geom sample_matrix)) as Hgrid by (vm_compute; intuition discriminate).
  assert (representable 32 64 (geom sample_matrix)) as Hrep by (vm_compute; done).
  split; [exact Hgrid|]. split; [exact Hrep|].
  destruct (populate_inverts_row_indexing 32 64 sample_matrix eq_refl Hgrid Hrep)
    as (Hsize & Hlookup & _).
  split; [exact Hsize|].
  apply (Hlookup 3 2 1); vm_compute; intuition discriminate.
Defined.

End GlobalToLocalFacts.

(** ** Reading the report *)

Module YamlTree.
Import Yaml YamlFacts.

(** A statement makes a path lead somewhere only by creating the element
    there, which starts without children. *)
Lemma exec_creates q k v d d' p c :
  at_path q (fun x => Some (add k v x)) d = Some d' ->
  resolve p d = None ->
  resolve p d' = Some c ->
  children c = [].
Proof.
  revert d d' p c. induction q as [|kq q IH]; intros d d' p c; simpl.
  - intros [= <-]. destruct p as [|kp p]; simpl; [done|].
    unfold get, add. simpl.
    destruct (List.find (has_key kp) (children d)) as [c0|] eqn:F.
    + rewrite (find_app_Some _ _ _ _ F). simpl. congruence.
    + rewrite (find_app_None _ _ _ F). simpl. intros _.
      destruct (has_key kp (Element k v [])); simpl; [|done].
      destruct p as [|kp' p]; simpl; [by intros [= <-]|done].
  - destruct (update_first kq _ (children d)) as [cs|] eqn:U; simpl; [|done].
    intros [= <-].
    apply update_first_inv in U; [|apply at_path_keeps_entry, add_keeps_entry].
    destruct U as (He & Hother & c0 & c0' & Hc & Hfc & Hc').
    destruct p as [|kp p]; simpl; [done|].
    unfold get. simpl. destruct (decide (kp = kq)) as [->|Hne].
    + rewrite Hc, Hc'. simpl. by apply IH.
    + rewrite (Hother _ Hne). congruence.
Qed.

(** Below a path that led nowhere before a run, the entries are exactly what
    the run adds there. *)
Lemma run_fresh_path ss d d' p e' :
  run ss d = Some d' ->
  resolve p d = None ->
  resolve p d' = Some e' ->
  entries e' = adds_at p ss.
Proof.
  revert d. induction ss as [|s ss IH]; intros d; simpl.
  - intros [= <-]. congruence.
  - destruct (exec s d) as [d1|] eqn:X; simpl; [|done]. intros Hrun Hn Hr.
    destruct s as [q k v]. pose proof X as X'. unfold exec in X. simpl in X.
    assert (q <> p) as Hq.
    { intros ->. apply exec_Some_resolve in X; [|apply add_keeps_entry].
      destruct X as [x Hx]. congruence. }
    rewrite adds_at_cons. simpl. rewrite decide_False by done. simpl.
    destruct (resolve p d1) as [c|] eqn:R1.
    + pose proof (exec_creates _ _ _ _ _ _ _ X Hn R1) as Hc.
      destruct (run_resolve _ _ _ _ _ Hrun R1) as (e'' & Hr'' & He'').
      assert (e'' = e') as -> by congruence.
      rewrite He''. unfold entries at 1. by rewrite Hc.
    + by apply (IH d1).
Qed.

(** The children below any path of the final document are the statements
    that add below that path, in program order. *)
Lemma run_children ss n v d' p :
  run ss (YAML_Doc n v) = Some d' ->
  is_Some (resolve p d') ->
  children_at p d' = Some (adds_at p ss).
Proof.
  intros Hrun [e' He']. destruct p as [|k p]; [by eapply run_top|].
  unfold children_at. rewrite He'. simpl. f_equal.
  by apply (run_fresh_path ss (YAML_Doc n v) d' (k :: p)).
Qed.

(** A path some statement creates leads somewhere in the end. *)
Lemma run_created ss d d' p :
  run ss d = Some d' -> p ∈ created ss -> is_Some (resolve p d').
Proof.
  revert d. induction ss as [|s ss IH]; intros d; simpl.
  - intros _ H. by apply elem_of_nil in H.
  - destruct (exec s d) as [d1|] eqn:X; simpl; [|done]. intros Hrun Hin.
    unfold created in Hin. rewrite ?fmap_cons in Hin.
    apply elem_of_cons in Hin as [->|Hin]; [|by apply (IH d1)].
    unfold exec in X.
    destruct (exec_Some_resolve _ _ _ _ (add_keeps_entry _ _) X) as [e He].
    destruct (exec_resolve _ _ _ _ _ _ _ X He) as (e1 & Hr1 & Heq & _).
    assert (is_Some (resolve (path s ++ [akey s]) d1)) as [c Hc].
    { rewrite resolve_app, Hr1, (Heq eq_refl). simpl. unfold get, add. simpl.
      destruct (List.find (has_key (akey s)) (children e)) as [c|] eqn:F.
      - rewrite (find_app_Some _ _ _ _ F). by eexists.
      - rewrite (find_app_None _ _ _ F). simpl.
        assert (has_key (akey s) (Element (akey s) (aval s) []) = true) as ->
          by (by apply has_key_true).
        by eexists. }
    destruct (run_resolve _ _ _ _ _ Hrun Hc) as (e' & Hr' & _). by eexists.
Qed.

Lemma created_app ss1 ss2 : created (ss1 ++ ss2) = created ss1 ++ created ss2.
Proof. unfold created. apply fmap_app. Qed.

End YamlTree.

Module ReadingFacts.
Import Num Yaml Hpcg Report YamlFacts ReportFacts YamlTree Reading.

Local Open Scope float_scope.

(** The statements of the report, block by block. *)
Lemma report_stmts_inv plat A nmg ncg r o T tcg tsym tn gf qp m a b c ss :
  report_stmts plat A nmg ncg r o T tcg tsym tn gf qp m a b c = Some ss ->
  exists fm bm mm cg level0 mu,
    flop_model A nmg ncg r o = Some fm
    /\ bandwidth_model plat A nmg ncg r o = Some bm
    /\ memory_model plat A nmg ncg = Some mm
    /\ coarse_grids_loop (mg_loop_count nmg) 1 (Some A) = Some cg
    /\ vec_get (fnbytesPerLevel mm) 0 = Some level0
    /\ memory_used_loop (mg_loop_count nmg) 1 (fnbytesPerLevel mm) = Some mu
    /\ ss = machine_stmts (geom A)
            ++ (problem_head A nmg (t9 T) ++ cg)
            ++ (memory_head mm level0 ++ mu)
            ++ testing_stmts tcg tsym
            ++ iterations_stmts ncg r o tn gf
            ++ performance_stmts fm bm ncg T a b c
            ++ final_stmts A fm ncg T (isValidRun tcg tsym tn gf) m qp.
Proof.
  unfold report_stmts, problem_stmts, memory_stmts. intros H.
  apply bind_Some in H. destruct H as (fm & Hfm & H).
  apply bind_Some in H. destruct H as (bm & Hbm & H).
  apply bind_Some in H. destruct H as (mm & Hmm & H).
  apply bind_Some in H. destruct H as (problem & Hp & H).
  apply bind_Some in H. destruct H as (memory & Hm & H).
  apply bind_Some in Hp. destruct Hp as (cg & Hcg & Hp).
  apply bind_Some in Hm. destruct Hm as (level0 & Hl0 & Hm).
  apply bind_Some in Hm. destruct Hm as (mu & Hmu & Hm).
  exists fm, bm, mm, cg, level0, mu.
  injection Hp as <-. injection Hm as <-. injection H as <-. done.
Qed.

(** *** What makes the call undefined *)

Lemma hierarchy_from_loops plat k A fniters x acc Af_ i sz y v accm v' :
  flops_loop k (Some A) fniters x = Some (acc, Some Af_) ->
  memory_loop plat k i (Ac A) sz y v = Some (accm, v', None) ->
  hierarchy k A.
Proof.
  revert A x i y v. induction k as [|k IH]; intros A x i y v; simpl.
  - intros _ H. by injection H.
  - intros Hf Hm.
    destruct (mgData A) as [mg|]; [|done]. simpl in Hf.
    destruct (Ac A) as [Ac_|]; [|done]. simpl in Hm.
    apply bind_Some in Hm. destruct Hm as (v1 & _ & Hm).
    exists mg, Ac_. split; [done|]. split; [done|]. by eapply IH.
Qed.

(** X2: [ReportResults] returns only if [times] has the timer 4, and on
    rank 0 only if there are ten timers, at least one multigrid level, and
    below [A] a hierarchy of exactly [numberOfMgLevels - 1] coarser matrices,
    each level but the coarsest with its multigrid data. *)
Theorem ReportResults_needs_hierarchy
    plat A nmg ncg r o times tcg tsym tn gf qp lrt tr :
  ReportResults plat A nmg ncg r o times tcg tsym tn gf qp lrt = Some tr ->
  (5 <= length times)%nat
  /\ (rank (geom A) = 0%Z ->
      (1 <= nmg)%Z /\ hierarchy (mg_loop_count nmg) A /\ (10 <= length times)%nat).
Proof.
  intros H. apply ReportResults_inv in H.
  destruct H as (t4 & Ht4 & H).
  split; [apply lookup_lt_Some in Ht4; lia|].
  intros Hr. destruct H as [[Hne _]|(_ & T & ss & doc & HT & Hss & _)]; [done|].
  apply read_times_inv in HT. destruct HT as (_ & _ & _ & _ & _ & _ & _ & H9).
  apply lookup_lt_Some in H9.
  apply report_stmts_inv in Hss.
  destruct Hss as (fm & bm & mm & cg & l0 & mu & Hfm & _ & Hmm & _).
  unfold flop_model in Hfm.
  apply bind_Some in Hfm. destruct Hfm as ([pre Af] & Hfl & Hfm).
  apply bind_Some in Hfm. destruct Hfm as (Af_ & -> & _).
  unfold memory_model in Hmm.
  apply bind_Some in Hmm. destruct Hmm as (v0 & Hv0 & Hmm).
  apply bind_Some in Hmm. destruct Hmm as (v1 & Hv1 & Hmm).
  apply bind_Some in Hmm. destruct Hmm as ([[fb v2] Af'] & Hml & Hmm).
  destruct Af' as [?|]; [done|].
  unfold vec_new in Hv0. destruct (nmg <? 0)%Z eqn:E; [done|].
  injection Hv0 as <-. unfold vec_set in Hv1. rewrite length_replicate in Hv1.
  destruct ((0 <=? 0)%Z && (0 <? Z.of_nat (Z.to_nat nmg))%Z) eqn:E'; [|done].
  apply andb_true_iff in E' as [_ E']. apply Z.ltb_lt in E'.
  split; [lia|]. split; [|lia].
  by eapply hierarchy_from_loops.
Qed.

Lemma ReportResults_needs_hierarchy_witness :
  (5 <= length (Sample.times_with 2000.5))%nat
  /\ hierarchy (mg_loop_count 4) Sample.matrix.
Proof.
  destruct (ReportResults_needs_hierarchy
    Sample.platform Sample.matrix 4 10 50 50 (Sample.times_with 2000.5)
    Sample.testcg Sample.testsymmetry Sample.testnorms 0 false Sample.runtime
    (Sample.reductions ++ [EvGenerateYAML Sample.long_doc])) as [H5 H].
  - vm_compute. reflexivity.
  - split; [exact H5|]. apply H. reflexivity.
Defined.

Lemma ReportResults_needs_levels
    plat A nmg ncg r o times tcg tsym tn gf qp lrt tr doc :
  ReportResults plat A nmg ncg r o times tcg tsym tn gf qp lrt = Some tr ->
  doc ∈ emitted tr ->
  (1 <= nmg)%Z.
Proof.
  intros H Hin.
  destruct (emitted_inv _ _ _ _ _ _ _ _ _ _ _ _ _ _ _ H Hin) as (Hr & _).
  apply ReportResults_inv in H.
  destruct H as (t4 & Ht4 & [[Hne _]|(_ & T & ss & d & HT & Hss & _)]); [done|].
  apply report_stmts_inv in Hss.
  destruct Hss as (fm & bm & mm & cg & l0 & mu & _ & _ & Hmm & _).
  unfold memory_model in Hmm.
  apply bind_Some in Hmm. destruct Hmm as (v0 & Hv0 & Hmm).
  apply bind_Some in Hmm. destruct Hmm as (v1 & Hv1 & _).
  unfold vec_new in Hv0. destruct (nmg <? 0)%Z eqn:E; [done|].
  injection Hv0 as <-. unfold vec_set in Hv1. rewrite length_replicate in Hv1.
  destruct ((0 <=? 0)%Z && (0 <? Z.of_nat (Z.to_nat nmg))%Z) eqn:E'; [|done].
  apply andb_true_iff in E' as [_ E']. apply Z.ltb_lt in E'. lia.
Qed.

(** X3: [ReportResults] reads the timers 0 to 5 and 7 to 9 only: two calls
    whose [times] agree there have the same result. *)
Theorem ReportResults_reads_nine_timers
    plat A nmg ncg r o times times' tcg tsym tn gf qp lrt :
  Forall (fun i => times !! i = times' !! i) timers_read ->
  ReportResults plat A nmg ncg r o times tcg tsym tn gf qp lrt
  = ReportResults plat A nmg ncg r o times' tcg tsym tn gf qp lrt.
Proof.
  intros H. unfold timers_read in H.
  repeat match goal with
         | H : Forall _ (_ :: _) |- _ =>
             let E := fresh "E" in apply Forall_cons in H as [E H]
         end.
  unfold ReportResults, read_times.
  by rewrite E, E0, E1, E2, E3, E4, E5, E6, E7.
Qed.

Lemma ReportResults_reads_nine_timers_witness :
  ReportResults Sample.platform Sample.matrix 4 10 50 50 (Sample.times_with 2000.5)
    Sample.testcg Sample.testsymmetry Sample.testnorms 0 false Sample.runtime
  = ReportResults Sample.platform Sample.matrix 4 10 50 50 (other_times 2000.5)
      Sample.testcg Sample.testsymmetry Sample.testnorms 0 false Sample.runtime.
Proof.
  apply ReportResults_reads_nine_timers.
  unfold timers_read. repeat constructor.
Defined.

(** *** The sections below the top level *)

Lemma final_adds_elsewhere A fm ncg T valid m qp p :
  p <> [] -> p <> [FinalSummary] ->
  adds_at p (final_stmts A fm ncg T valid m qp) = [].
Proof.
  intros H1 H2. apply adds_at_nil.
  unfold final_stmts, reference_notes, official_time_stmts.
  repeat case_match; repeat constructor; simpl; congruence.
Qed.

(** An emitted document is the one the statements build; every section at
    the top level has the entries the statements add to it. *)
Lemma emitted_run plat A nmg ncg r o times tcg tsym tn gf qp lrt tr doc :
  ReportResults plat A nmg ncg r o times tcg tsym tn gf qp lrt = Some tr ->
  doc ∈ emitted tr ->
  exists T a b c ss,
    read_times times = Some T
    /\ report_stmts plat A nmg ncg r o T tcg tsym tn gf qp 1800 a b c = Some ss
    /\ run ss (YAML_Doc "HPCG-Benchmark" "3.0") = Some doc.
Proof.
  intros H Hin. apply ReportResults_inv in H.
  destruct H as (t4 & Ht4 & [[_ ->]|(Hr & T & ss & d & HT & Hss & Hrun & ->)]).
  { vm_compute in Hin. by apply elem_of_nil in Hin. }
  assert (doc = d) as ->.
  { unfold emitted in Hin. rewrite omap_app in Hin. simpl in Hin.
    by apply list_elem_of_singleton in Hin. }
  by do 5 eexists.
Qed.

Lemma test_section_adds plat A nmg ncg r o T tcg tsym tn gf qp m a b c ss p :
  report_stmts plat A nmg ncg r o T tcg tsym tn gf qp m a b c = Some ss ->
  p ∈ test_sections ->
  adds_at p ss
  = adds_at p (testing_stmts tcg tsym) ++ adds_at p (iterations_stmts ncg r o tn gf).
Proof.
  intros Hss Hp. apply report_stmts_inv in Hss.
  destruct Hss as (fm & bm & mm & cg & l0 & mu & _ & _ & _ & Hcg & _ & Hmu & ->).
  pose proof (coarse_grids_loop_paths _ _ _ _ Hcg) as Hcgp.
  pose proof (memory_used_loop_paths _ _ _ _ Hmu) as Hmup.
  unfold test_sections in Hp. rewrite !elem_of_cons, elem_of_nil in Hp.
  destruct Hp as [->|[->|[->|[->|[]]]]]; rewrite !adds_at_app;
    rewrite (adds_at_elsewhere _ _ _ Hcgp) by done;
    rewrite (adds_at_elsewhere _ _ _ Hmup) by done;
    rewrite final_adds_elsewhere by done;
    rewrite !app_nil_r; reflexivity.
Qed.

Lemma test_section_children
    plat A nmg ncg r o times tcg tsym tn gf qp lrt tr doc p :
  ReportResults plat A nmg ncg r o times tcg tsym tn gf qp lrt = Some tr ->
  doc ∈ emitted tr ->
  p ∈ test_sections ->
  children_at p doc
  = Some (adds_at p (testing_stmts tcg tsym)
          ++ adds_at p (iterations_stmts ncg r o tn gf)).
Proof.
  intros H Hin Hp.
  destruct (emitted_run _ _ _ _ _ _ _ _ _ _ _ _ _ _ _ H Hin)
    as (T & a & b & c & ss & _ & Hss & Hrun).
  rewrite <- (test_section_adds _ _ _ _ _ _ _ _ _ _ _ _ _ _ _ _ _ _ Hss Hp).
  destruct (late_performance_final _ _ _ _ _ _ _ _ _ _ _ _ _ _ _ _ _ Hss)
    as (fm & bm & _ & _ & Htop & _).
  unfold test_sections in Hp. rewrite !elem_of_cons, elem_of_nil in Hp.
  assert (exists k, p = [k] /\ k ∈ required_sections) as (k & -> & Hk).
  { destruct Hp as [->|[->|[->|[->|[]]]]]; eexists; (split; [done|]);
      apply (bool_decide_unpack _); vm_compute; reflexivity. }
  apply (run_top_section _ _ _ _ _ Hrun).
  - rewrite Htop, fmap_cons, headers_fst. apply required_sections_NoDup.
  - rewrite Htop, fmap_cons, headers_fst. by right.
Qed.

(** X4: each of the four test sections carries the result of its test,
    PASSED or FAILED, and the final summary has the VALID line exactly when
    all four results read PASSED. *)
Theorem test_results_agree_with_verdict
    plat A nmg ncg r o times tcg tsym tn gf qp lrt tr doc :
  ReportResults plat A nmg ncg r o times tcg tsym tn gf qp lrt = Some tr ->
  doc ∈ emitted tr ->
  let result p := value_at p "Result" doc in
  let verdict (b : bool) := Some (YString (if b then "PASSED" else "FAILED")) in
  result [SpectralConvergence] = verdict (cg_count_fail tcg =? 0)%Z
  /\ result [DepartureFromSymmetry] = verdict (sym_count_fail tsym =? 0)%Z
  /\ result [IterationCount] = verdict (gf =? 0)%Z
  /\ result [Reproducibility] = verdict (pass tn)
  /\ (is_Some (value_at [FinalSummary]
                 "HPCG result is VALID with a GFLOP/s rating of" doc)
      <-> Forall (fun p => result p = Some (YString "PASSED")) test_sections).
Proof.
  intros H Hin result verdict.
  assert (forall p, p ∈ test_sections ->
            result p = first_entry "Result"
                         (adds_at p (testing_stmts tcg tsym)
                          ++ adds_at p (iterations_stmts ncg r o tn gf))) as Hres.
  { intros p Hp. unfold result.
    by rewrite (value_at_children _ _ _ _
                  (test_section_children _ _ _ _ _ _ _ _ _ _ _ _ _ _ _ _ H Hin Hp)). }
  assert (result [SpectralConvergence] = verdict (cg_count_fail tcg =? 0)%Z) as H1.
  { rewrite Hres by (unfold test_sections; rewrite !elem_of_cons; tauto).
    unfold testing_stmts, iterations_stmts, PASSED_or_FAILED, verdict.
    by repeat case_match. }
  assert (result [DepartureFromSymmetry] = verdict (sym_count_fail tsym =? 0)%Z) as H2.
  { rewrite Hres by (unfold test_sections; rewrite !elem_of_cons; tauto).
    unfold testing_stmts, iterations_stmts, PASSED_or_FAILED, verdict.
    by repeat case_match. }
  assert (result [IterationCount] = verdict (gf =? 0)%Z) as H3.
  { rewrite Hres by (unfold test_sections; rewrite !elem_of_cons; tauto).
    unfold testing_stmts, iterations_stmts, PASSED_or_FAILED, verdict.
    by repeat case_match. }
  assert (result [Reproducibility] = verdict (pass tn)) as H4.
  { rewrite Hres by (unfold test_sections; rewrite !elem_of_cons; tauto).
    unfold testing_stmts, iterations_stmts, PASSED_or_FAILED, verdict.
    by repeat case_match. }
  split; [done|]. split; [done|]. split; [done|]. split; [done|].
  destruct (final_children _ _ _ _ _ _ _ _ _ _ _ _ _ _ _ H Hin)
    as (T & fm & _ & _ & Hc).
  rewrite final_entries in Hc. rewrite (value_at_children _ _ _ _ Hc).
  unfold test_sections. rewrite !Forall_cons, Forall_nil, H1, H2, H3, H4.
  unfold verdict, isValidRun.
  destruct (cg_count_fail tcg =? 0)%Z, (sym_count_fail tsym =? 0)%Z,
    (pass tn), (gf =? 0)%Z; simpl;
    (split; [intros [v Hv]; try (by vm_compute in Hv); by repeat split
            |intros (E1 & E2 & E3 & E4 & _); try done; by eexists]).
Qed.

Lemma test_results_agree_with_verdict_witness :
  value_at [IterationCount] "Result" Sample.failed_doc = Some (YString "FAILED")
  /\ value_at [Reproducibility] "Result" Sample.failed_doc = Some (YString "PASSED").
Proof.
  destruct (test_results_agree_with_verdict
    Sample.platform Sample.matrix 4 10 50 50 (Sample.times_with 2000.5)
    Sample.testcg Sample.testsymmetry Sample.testnorms 1 false Sample.runtime
    (Sample.reductions ++ [EvGenerateYAML Sample.failed_doc]) Sample.failed_doc)
    as (_ & _ & H3 & H4 & _).
  - by_evaluation.
  - by_evaluation.
  - split; [exact H3|exact H4].
Defined.

Lemma first_entry_app_drop k l1 l2 :
  k ∉ l2.*1 -> first_entry k (l1 ++ l2) = first_entry k l1.
Proof.
  intros Hk. unfold first_entry. f_equal.
  induction l1 as [|[k' v] l1 IH]; simpl.
  - induction l2 as [|[k' v] l2 IH]; [done|].
    rewrite fmap_cons, not_elem_of_cons in Hk. destruct Hk as [Hne Hk].
    simpl in *.
    assert (String.eqb k' k = false) as -> by (apply String.eqb_neq; congruence).
    auto.
  - destruct (String.eqb k' k); [done|]. apply IH.
Qed.

Lemma official_time_keys m T qp k :
  k ∈ (stmt_entry <$> official_time_stmts m T qp).*1 ->
  k ∈ [ "Please upload results from the YAML file contents to";
        "Results are valid but execution time (sec) is";
        "     You have selected the QuickPath option";
        "     After confirmation please upload results from the YAML file contents to";
        "     Official results execution time (sec) must be at least" ].
Proof.
  unfold official_time_stmts. repeat case_match; simpl;
    rewrite !elem_of_cons, !elem_of_nil; tauto.
Qed.

(** One note of the final summary, all flags known. *)
Ltac settle_note :=
  split;
  [ let v := fresh "v" in
    let Hv := fresh "Hv" in
    intros [v Hv];
    first [ by vm_compute in Hv | repeat apply conj; first [done | lia] ]
  | let Hrhs := fresh "Hrhs" in
    intros Hrhs;
    first [ destruct Hrhs as (? & ? & ?); first [done | lia]
          | destruct Hrhs as (? & ?); done
          | vm_compute; by eexists ] ].

(** X5: the final summary notes a reference kernel exactly when the run is
    valid and the kernel is not optimized; for the multigrid kernel the note
    depends on whether more than one thread is used. *)
Theorem reference_kernels_are_noted
    plat A nmg ncg r o times tcg tsym tn gf qp lrt tr doc :
  ReportResults plat A nmg ncg r o times tcg tsym tn gf qp lrt = Some tr ->
  doc ∈ emitted tr ->
  let noted k := is_Some (value_at [FinalSummary] k doc) in
  let valid := isValidRun tcg tsym tn gf = true in
  (noted "Reference version of ComputeDotProduct used"
   <-> valid /\ isDotProductOptimized A = false)
  /\ (noted "Reference version of ComputeSPMV used"
      <-> valid /\ isSpmvOptimized A = false)
  /\ (noted "Reference version of ComputeWAXPBY used"
      <-> valid /\ isWaxpbyOptimized A = false)
  /\ (noted "Reference version of ComputeMG used"
      <-> valid /\ isMgOptimized A = false /\ (numThreads (geom A) <= 1)%Z)
  /\ (noted "Reference version of ComputeMG used and number of threads greater than 1"
      <-> valid /\ isMgOptimized A = false /\ (1 < numThreads (geom A))%Z).
Proof.
  intros H Hin noted valid. subst noted valid. cbv beta.
  destruct (final_children _ _ _ _ _ _ _ _ _ _ _ _ _ _ _ H Hin)
    as (T & fm & _ & _ & Hc).
  rewrite final_entries in Hc. rewrite !(value_at_children _ _ _ _ Hc).
  clear Hc H Hin.
  destruct (isValidRun tcg tsym tn gf).
  2:{ (split; [|split; [|split; [|split]]]); settle_note. }
  rewrite !app_assoc.
  rewrite !(first_entry_app_drop _ _ (stmt_entry <$> official_time_stmts 1800 T qp))
    by (intros Hk; apply official_time_keys in Hk;
        rewrite !elem_of_cons, elem_of_nil in Hk; intuition discriminate).
  pose proof (Z.gtb_spec (numThreads (geom A)) 1) as Hth.
  unfold reference_notes.
  destruct (isDotProductOptimized A), (isSpmvOptimized A), (isMgOptimized A),
    (isWaxpbyOptimized A), (numThreads (geom A) >? 1)%Z;
    inversion Hth; (split; [|split; [|split; [|split]]]); settle_note.
Qed.

Lemma reference_kernels_are_noted_witness :
  is_Some (value_at [FinalSummary] "Reference version of ComputeSPMV used"
             Sample.long_doc)
  /\ is_Some (value_at [FinalSummary] "Reference version of ComputeMG used"
                Sample.long_doc).
Proof.
  destruct (reference_kernels_are_noted
    Sample.platform Sample.matrix 4 10 50 50 (Sample.times_with 2000.5)
    Sample.testcg Sample.testsymmetry Sample.testnorms 0 false Sample.runtime
    (Sample.reductions ++ [EvGenerateYAML Sample.long_doc]) Sample.long_doc)
    as (_ & H2 & _ & H4 & _).
  - by_evaluation.
  - by_evaluation.
  - split; [apply H2|apply H4]; vm_compute; intuition discriminate.
Defined.

(** *** The listings of the coarse grids *)

Lemma values_of_app k l1 l2 :
  values_of k (l1 ++ l2) = values_of k l1 ++ values_of k l2.
Proof. unfold values_of. by rewrite list.filter_app, fmap_app. Qed.

Lemma seqZ_step m (n : nat) : seqZ m (Z.of_nat (S n)) = m :: seqZ (m + 1) (Z.of_nat n).
Proof.
  rewrite seqZ_cons by lia. f_equal. f_equal; lia.
Qed.

Lemma coarse_grids_loop_entries k i A cg :
  coarse_grids_loop k i (Some A) = Some cg ->
  values_of "Grid Level" (stmt_entry <$> cg) = YInt <$> seqZ i (Z.of_nat k)
  /\ values_of "Number of Equations" (stmt_entry <$> cg)
     = (fun L => YInt (totalNumberOfRows (sclrs L))) <$> coarse_levels k A
  /\ values_of "Number of Nonzero Terms" (stmt_entry <$> cg)
     = (fun L => YInt (totalNumberOfNonzeros (sclrs L))) <$> coarse_levels k A
  /\ length cg = (5 * k)%nat.
Proof.
  revert i A cg. induction k as [|k IH]; intros i A cg.
  - simpl. by intros [= <-].
  - cbn [coarse_grids_loop mbind option_bind]. intros H.
    destruct (Ac A) as [Ac_|] eqn:EA; [|done]. cbn [mbind option_bind] in H.
    destruct (mgData A) as [mg|]; [|done]. cbn [mbind option_bind] in H.
    destruct (coarse_grids_loop k (i + 1) (Some Ac_)) as [rest|] eqn:ER; [|done].
    cbn [mbind option_bind] in H.
    match type of H with Some ?l = _ => assert (cg = l) as -> by congruence end.
    destruct (IH _ _ _ ER) as (H1 & H2 & H3 & H4).
    cbn [coarse_levels]. rewrite EA, seqZ_step.
    rewrite fmap_app, !values_of_app, length_app, H1, H2, H3, H4.
    repeat split; try reflexivity. simpl. lia.
Qed.

Lemma memory_used_loop_entries k i v mu :
  memory_used_loop k i v = Some mu ->
  values_of "Grid Level" (stmt_entry <$> mu) = YInt <$> seqZ i (Z.of_nat k)
  /\ length mu = (2 * k)%nat.
Proof.
  revert i mu. induction k as [|k IH]; intros i mu.
  - simpl. by intros [= <-].
  - cbn [memory_used_loop mbind option_bind]. intros H.
    destruct (vec_get v i) as [b|]; [|done]. cbn [mbind option_bind] in H.
    destruct (memory_used_loop k (i + 1) v) as [rest|] eqn:ER; [|done].
    cbn [mbind option_bind] in H.
    match type of H with Some ?l = _ => assert (mu = l) as -> by congruence end.
    destruct (IH _ _ ER) as (H1 & H2).
    rewrite seqZ_step.
    rewrite fmap_app, !values_of_app, length_app, H1, H2.
    split; [reflexivity|simpl; lia].
Qed.

Lemma fixed_blocks_outside_listings tcg tsym ncg r o tn gf A fm T valid m qp p :
  p = coarse_grids_listing \/ p = coarse_memory_listing ->
  adds_at p (testing_stmts tcg tsym) = []
  /\ adds_at p (iterations_stmts ncg r o tn gf) = []
  /\ adds_at p (final_stmts A fm ncg T valid m qp) = [].
Proof.
  intros Hp. split; [|split].
  - unfold testing_stmts, PASSED_or_FAILED.
    destruct Hp as [->| ->]; by repeat case_match.
  - unfold iterations_stmts, PASSED_or_FAILED.
    destruct Hp as [->| ->]; by repeat case_match.
  - apply final_adds_elsewhere; by destruct Hp as [->| ->].
Qed.

(** The blocks without a test result add nothing below the listings. *)
Ltac drop_fixed_blocks :=
  repeat match goal with
         | |- context [adds_at ?p (machine_stmts ?g)] =>
             change (adds_at p (machine_stmts g)) with (@nil (string * YamlValue))
         | |- context [adds_at ?p (problem_head ?A ?n ?t)] =>
             change (adds_at p (problem_head A n t)) with (@nil (string * YamlValue))
         | |- context [adds_at ?p (memory_head ?m ?l)] =>
             change (adds_at p (memory_head m l)) with (@nil (string * YamlValue))
         | |- context [adds_at ?p (performance_stmts ?f ?b ?n ?T ?x ?y ?z)] =>
             change (adds_at p (performance_stmts f b n T x y z))
               with (@nil (string * YamlValue))
         end.

(** X6: the report lists the coarse grids in order.  "Number of coarse grid
    levels" is [numberOfMgLevels - 1]; below "Multigrid Information" and
    below "Memory Use Information" the sub-section "Coarse Grids" has one
    "Grid Level" entry for each of the levels 1 to [numberOfMgLevels - 1], in
    increasing order, and the equations and nonzeros listed are those of the
    coarser matrices below [A], finest first. *)
Theorem coarse_grids_are_listed_in_order
    plat A nmg ncg r o times tcg tsym tn gf qp lrt tr doc :
  ReportResults plat A nmg ncg r o times tcg tsym tn gf qp lrt = Some tr ->
  doc ∈ emitted tr ->
  (nmg < 2 ^ 31)%Z ->
  exists grids memory,
    children_at coarse_grids_listing doc = Some grids
    /\ children_at coarse_memory_listing doc = Some memory
    /\ value_at ["Multigrid Information"] "Number of coarse grid levels" doc
       = Some (YInt (nmg - 1))
    /\ values_of "Grid Level" grids = YInt <$> seqZ 1 (nmg - 1)
    /\ values_of "Grid Level" memory = YInt <$> seqZ 1 (nmg - 1)
    /\ values_of "Number of Equations" grids
       = (fun L => YInt (totalNumberOfRows (sclrs L)))
           <$> coarse_levels (mg_loop_count nmg) A
    /\ values_of "Number of Nonzero Terms" grids
       = (fun L => YInt (totalNumberOfNonzeros (sclrs L)))
           <$> coarse_levels (mg_loop_count nmg) A
    /\ length grids = (5 * mg_loop_count nmg)%nat
    /\ length memory = (2 * mg_loop_count nmg)%nat.
Proof.
  intros H Hin Hint.
  pose proof (ReportResults_needs_levels _ _ _ _ _ _ _ _ _ _ _ _ _ _ _ H Hin) as Hnmg.
  destruct (emitted_run _ _ _ _ _ _ _ _ _ _ _ _ _ _ _ H Hin)
    as (T & a & b & c & ss & _ & Hss & Hrun).
  pose proof Hss as Hss'. apply report_stmts_inv in Hss'.
  destruct Hss' as (fm & bm & mm & cg & l0 & mu & _ & _ & _ & Hcg & _ & Hmu & Ess).
  pose proof (coarse_grids_loop_paths _ _ _ _ Hcg) as Hcgp.
  pose proof (memory_used_loop_paths _ _ _ _ Hmu) as Hmup.
  assert (adds_at coarse_grids_listing ss = stmt_entry <$> cg) as Eg.
  { destruct (fixed_blocks_outside_listings tcg tsym ncg r o tn gf A fm T
                (isValidRun tcg tsym tn gf) 1800 qp coarse_grids_listing)
      as (E1 & E2 & E3); [by left|].
    rewrite Ess, !adds_at_app, E1, E2, E3. unfold coarse_grids_listing.
    rewrite (adds_at_elsewhere _ _ _ Hmup) by done.
    rewrite (adds_at_all _ _ Hcgp).
    drop_fixed_blocks. by rewrite !app_nil_r. }
  assert (adds_at coarse_memory_listing ss = stmt_entry <$> mu) as Em.
  { destruct (fixed_blocks_outside_listings tcg tsym ncg r o tn gf A fm T
                (isValidRun tcg tsym tn gf) 1800 qp coarse_memory_listing)
      as (E1 & E2 & E3); [by right|].
    rewrite Ess, !adds_at_app, E1, E2, E3. unfold coarse_memory_listing.
    rewrite (adds_at_elsewhere _ _ _ Hcgp) by done.
    rewrite (adds_at_all _ _ Hmup).
    drop_fixed_blocks. by rewrite !app_nil_r. }
  assert (adds_at ["Multigrid Information"] ss
          = [ ("Number of coarse grid levels", YInt (wrap_int (nmg - 1)));
              ("Coarse Grids", YString "") ]) as Ei.
  { rewrite Ess, !adds_at_app.
    rewrite (adds_at_elsewhere _ _ _ Hcgp) by done.
    rewrite (adds_at_elsewhere _ _ _ Hmup) by done.
    rewrite final_adds_elsewhere by done.
    unfold testing_stmts, iterations_stmts, PASSED_or_FAILED.
    by repeat case_match. }
  assert (forall p, p ∈ created ss -> children_at p doc = Some (adds_at p ss)) as Hch.
  { intros p Hp. apply (run_children _ _ _ _ _ Hrun).
    by apply (run_created _ _ _ _ Hrun). }
  assert (forall p, p ∈ created (problem_head A nmg (t9 T))
                    \/ p ∈ created (memory_head mm l0) -> p ∈ created ss) as Hcr.
  { intros p Hp. rewrite Ess, !created_app, !elem_of_app. tauto. }
  exists (stmt_entry <$> cg), (stmt_entry <$> mu).
  destruct (coarse_grids_loop_entries _ _ _ _ Hcg) as (G1 & G2 & G3 & G4).
  destruct (memory_used_loop_entries _ _ _ _ Hmu) as (M1 & M2).
  assert (Z.of_nat (mg_loop_count nmg) = (nmg - 1)%Z) as Ek
    by (unfold mg_loop_count; lia).
  rewrite Ek in G1, M1. rewrite !length_fmap.
  split.
  { rewrite <- Eg. apply Hch, Hcr. left.
    apply (bool_decide_unpack _). vm_compute. reflexivity. }
  split.
  { rewrite <- Em. apply Hch, Hcr. right.
    apply (bool_decide_unpack _). vm_compute. reflexivity. }
  split.
  { rewrite (value_at_children _ _ _ [ ("Number of coarse grid levels",
                                        YInt (wrap_int (nmg - 1)));
                                       ("Coarse Grids", YString "") ]).
    - unfold first_entry. simpl. unfold wrap_int, wrap.
      change (2 ^ (32 - 1))%Z with (2 ^ 31)%Z. change (2 ^ 32)%Z with (2 * 2 ^ 31)%Z.
      rewrite Z.mod_small by lia. do 2 f_equal. lia.
    - rewrite <- Ei. apply Hch, Hcr. left.
      apply (bool_decide_unpack _). vm_compute. reflexivity. }
  done.
Qed.

Lemma coarse_grids_are_listed_in_order_witness :
  exists grids,
    children_at coarse_grids_listing Sample.long_doc = Some grids
    /\ values_of "Grid Level" grids = [YInt 1; YInt 2; YInt 3]
    /\ values_of "Number of Equations" grids = [YInt 4096; YInt 512; YInt 64].
Proof.
  destruct (coarse_grids_are_listed_in_order
    Sample.platform Sample.matrix 4 10 50 50 (Sample.times_with 2000.5)
    Sample.testcg Sample.testsymmetry Sample.testnorms 0 false Sample.runtime
    (Sample.reductions ++ [EvGenerateYAML Sample.long_doc]) Sample.long_doc)
    as (grids & memory & Hg & _ & _ & H1 & _ & H2 & _).
  - by_evaluation.
  - by_evaluation.
  - reflexivity.
  - exists grids. split; [exact Hg|]. split; [exact H1|exact H2].
Defined.

(** *** The timing of the dot products *)

(** X22: the three entries of "DDOT Timing Variations" are what the three
    reductions of [times[4]] yield to this task, the sum divided by the
    number of processes. *)
Theorem ddot_variations_are_the_reductions
    plat A nmg ncg r o times tcg tsym tn gf qp lrt tr doc :
  ReportResults plat A nmg ncg r o times tcg tsym tn gf qp lrt = Some tr ->
  doc ∈ emitted tr ->
  exists t4,
    times !! 4%nat = Some t4
    /\ reductions_of tr
       = [ (dcAllRedMinFT A, t4); (dcAllRedMaxFT A, t4); (dcAllRedSumFT A, t4) ]
    /\ children_at ["DDOT Timing Variations"] doc
       = Some [ ("Min DDOT MPI_Allreduce time",
                 YDouble (reduced lrt (dcAllRedMinFT A) t4));
                ("Max DDOT MPI_Allreduce time",
                 YDouble (reduced lrt (dcAllRedMaxFT A) t4));
                ("Avg DDOT MPI_Allreduce time",
                 YDouble (reduced lrt (dcAllRedSumFT A) t4
                          / double_of_Z (size (geom A)))) ].
Proof.
  intros H Hin. apply ReportResults_inv in H.
  destruct H as (t4 & Ht4 & [[_ ->]|(Hr & T & ss & d & HT & Hss & Hrun & ->)]).
  { vm_compute in Hin. by apply elem_of_nil in Hin. }
  assert (doc = d) as ->.
  { unfold emitted in Hin. rewrite omap_app in Hin. simpl in Hin.
    by apply list_elem_of_singleton in Hin. }
  exists t4. split; [done|]. split; [reflexivity|].
  pose proof Hss as Hss'. apply report_stmts_inv in Hss'.
  destruct Hss' as (fm & bm & mm & cg & l0 & mu & _ & _ & _ & Hcg & _ & Hmu & Ess).
  pose proof (coarse_grids_loop_paths _ _ _ _ Hcg) as Hcgp.
  pose proof (memory_used_loop_paths _ _ _ _ Hmu) as Hmup.
  rewrite (run_children _ _ _ _ ["DDOT Timing Variations"] Hrun).
  - f_equal. rewrite Ess, !adds_at_app.
    rewrite (adds_at_elsewhere _ _ _ Hcgp) by done.
    rewrite (adds_at_elsewhere _ _ _ Hmup) by done.
    rewrite final_adds_elsewhere by done.
    unfold testing_stmts, iterations_stmts, PASSED_or_FAILED.
    by repeat case_match.
  - apply (run_created _ _ _ _ Hrun).
    rewrite Ess, !created_app, !elem_of_app. do 5 right. left.
    apply (bool_decide_unpack _). vm_compute. reflexivity.
Qed.

Lemma ddot_variations_are_the_reductions_witness :
  children_at ["DDOT Timing Variations"] Sample.long_doc
  = Some [ ("Min DDOT MPI_Allreduce time", YDouble 0.5);
           ("Max DDOT MPI_Allreduce time", YDouble 0.5);
           ("Avg DDOT MPI_Allreduce time", YDouble 0.0625) ].
Proof.
  destruct (ddot_variations_are_the_reductions
    Sample.platform Sample.matrix 4 10 50 50 (Sample.times_with 2000.5)
    Sample.testcg Sample.testsymmetry Sample.testnorms 0 false Sample.runtime
    (Sample.reductions ++ [EvGenerateYAML Sample.long_doc]) Sample.long_doc)
    as (t4 & Ht4 & _ & Hc).
  - by_evaluation.
  - by_evaluation.
  - vm_compute in Ht4. injection Ht4 as <-. rewrite Hc. vm_compute. reflexivity.
Defined.

End ReadingFacts.

(** ** The life of a matrix bundle *)

Module LifecycleFacts.
Import Num Hpcg Legion Lifecycle LegionFacts.

(** [eval_world] for goals that also state an order on integers. *)
Ltac eval_world_keeping_order :=
  cbv -[replicate Z.to_nat wrap_int getGlobalXYZ Z.mul Z.sub Z.add Z.div app
        replicate_handle size stencilSize length drop Z.of_nat Z.leb Z.ltb
        Z.lt Z.le iff].

Lemma replicate_handle_overrun n i dc (l : list Cell) :
  (0 < n)%nat -> (length l < i + n)%nat -> replicate_handle n i dc l = None.
Proof.
  revert i l. induction n as [|n IH]; intros i l Hn Hlen; [lia|]. simpl.
  destruct (decide (i < length l)%nat) as [Hi|]; [|done].
  apply IH; [|rewrite length_insert]; lia.
Qed.

Lemma wrap_int_small z : - 2 ^ 31 <= z < 2 ^ 31 -> wrap_int z = z.
Proof.
  intros Hz. unfold wrap_int, wrap.
  change (2 ^ (32 - 1)) with (2 ^ 31). change (2 ^ 32) with (2 * 2 ^ 31).
  rewrite Z.mod_small by lia. lia.
Qed.

(** X7: when the number of rows [getGlobalXYZ(geom)] and [stencilSize] are
    not negative and their product is below [2^31], so that
    [globalXYZ * stencilSize] (lines 206-210) is the same number in every
    integer type of 32 bits or more, [allocate] gives the four per-row arrays
    [globalXYZ] cells each and the flattened arrays [mtxIndG], [mtxIndL] and
    [matrixValues] [globalXYZ * stencilSize] cells each, and every pair of a
    row and a stencil position addresses a cell of a flattened array. *)
Theorem allocate_fits_flattened_rows geom w :
  let rows := getGlobalXYZ geom in
  let s := stencilSize geom in
  0 <= rows -> 0 <= s -> rows * s < 2 ^ 31 ->
  exists w',
    allocate geom w = Some ((), w')
    /\ Forall (fun f => extent_of (arrays w' f) = Some rows) per_row_arrays
    /\ Forall (fun f => extent_of (arrays w' f) = Some (rows * s)) flattened_arrays
    /\ Forall (fun f =>
         forall row k,
           0 <= row < rows -> 0 <= k < s ->
           exists c, cells (arrays w' f) = Some c
                     /\ is_Some (c !! Z.to_nat (row * s + k)))
         flattened_arrays.
Proof.
  intros rows s Hrows Hs Hfit. subst rows s. destruct w as [arr ld cs nc].
  eexists.
  split; [eval_world; reflexivity|].
  split; [|split].
  - repeat constructor; unfold extent_of; eval_world;
      rewrite length_replicate, Z2Nat.id by lia; reflexivity.
  - repeat constructor; unfold extent_of; eval_world;
      rewrite length_replicate, Z2Nat.id by nia; reflexivity.
  - repeat constructor; intros row k Hrow Hk;
      (eexists; split; [eval_world; reflexivity|]);
      apply lookup_lt_is_Some; rewrite length_replicate;
      apply Z2Nat.inj_lt; nia.
Qed.

Lemma allocate_fits_flattened_rows_witness :
  exists w' c,
    allocate four_ranks new_world = Some ((), w')
    /\ extent_of (arrays w' nonzerosInRow) = Some 32
    /\ extent_of (arrays w' mtxIndG) = Some 864
    /\ cells (arrays w' mtxIndG) = Some c
    /\ is_Some (c !! 863%nat).
Proof.
  destruct (allocate_fits_flattened_rows four_ranks new_world)
    as (w' & Ha & Hr & Hf & Hc); [by vm_compute..|].
  destruct (Forall_inv Hc 31 26) as (c & Ec & Hi);
    [vm_compute; intuition discriminate..|].
  exists w', c. split; [exact Ha|].
  split; [exact (Forall_inv Hr)|]. split; [exact (Forall_inv Hf)|].
  split; [exact Ec|exact Hi].
Defined.

(** X8: on a bundle allocated for [geom] and partitioned into [geom.size]
    parts, rank [i] owns cell [i] of [geoms], [sclrs], [dcAllreduceSum] and
    [synchronizers], and the [stencilSize - 1] cells from
    [i * (stencilSize - 1)] of [neighbors], [sendLength] and [pullBEs],
    provided the products fit an [int]. *)
Theorem partition_gives_each_rank_its_share geom w0 :
  let n := size geom in
  let s := stencilSize geom in
  0 < n -> 1 <= s -> n * (s - 1) < 2 ^ 31 ->
  exists w1 w2,
    allocate geom w0 = Some ((), w1)
    /\ partition n w1 = Some ((), w2)
    /\ forall i, 0 <= i < n ->
         Forall (fun f => subregion (arrays w2 f) i = Some (i, 1)) per_rank_items
         /\ Forall (fun f => subregion (arrays w2 f) i = Some (i * (s - 1), s - 1))
              per_neighbor_arrays.
Proof.
  intros n s Hn Hs Hfit. subst n s. destruct w0 as [arr ld cs nc].
  do 2 eexists.
  split; [eval_world; reflexivity|].
  split; [eval_world; rewrite replicate_handle_fresh; eval_world; reflexivity|].
  intros i Hi.
  assert (wrap_int (stencilSize geom - 1) = stencilSize geom - 1) as Ew
    by (apply wrap_int_small; nia).
  assert (wrap_int (size geom * (stencilSize geom - 1))
          = size geom * (stencilSize geom - 1)) as Ew'
    by (apply wrap_int_small; nia).
  split.
  - repeat constructor;
      (erewrite subregion_spec; [|eval_world; reflexivity|reflexivity|done]);
      rewrite length_replicate, Z2Nat.id by lia;
      rewrite Z.div_same by lia; f_equal; f_equal; lia.
  - repeat constructor;
      (erewrite subregion_spec; [|eval_world; reflexivity|reflexivity|done]);
      rewrite length_replicate, Ew, Ew', Z2Nat.id by nia;
      rewrite (Z.mul_comm (size geom)), Z.div_mul by lia; reflexivity.
Qed.

Lemma partition_gives_each_rank_its_share_witness :
  exists w1 w2,
    allocate four_ranks new_world = Some ((), w1)
    /\ partition 4 w1 = Some ((), w2)
    /\ subregion (arrays w2 neighbors) 3 = Some (78, 26).
Proof.
  destruct (partition_gives_each_rank_its_share four_ranks new_world)
    as (w1 & w2 & Ha & Hp & H); [by vm_compute..|].
  exists w1, w2. split; [exact Ha|]. split; [exact Hp|].
  destruct (H 3) as [_ Hn]; [vm_compute; intuition discriminate|].
  exact (Forall_inv Hn).
Defined.

(** X10: on a bundle allocated for [geom], [partition(nParts)] writes the
    collective handle into [nParts] cells of the [geom.size] cells of
    [dcAllreduceSum]: it runs into undefined behaviour exactly when [nParts]
    is positive and larger than [geom.size]. *)
Theorem partition_overruns_iff_too_many_parts geom nParts w0 :
  exists w1,
    allocate geom w0 = Some ((), w1)
    /\ (partition nParts w1 = None <-> 0 < nParts /\ size geom < nParts).
Proof.
  destruct w0 as [arr ld cs nc]. eexists.
  split; [eval_world; reflexivity|].
  destruct (decide (Z.to_nat nParts <= Z.to_nat (size geom))%nat) as [Hle|Hgt].
  - eval_world_keeping_order.
    rewrite replicate_handle_spec by (rewrite length_replicate; lia).
    eval_world_keeping_order. split; [discriminate|lia].
  - eval_world_keeping_order.
    rewrite replicate_handle_overrun by (rewrite ?length_replicate; lia).
    split; [lia|reflexivity].
Qed.

(** X11: [allocate], [partition] into [geom.size] parts and [deallocate], one
    after the other, always return and leave [pullBuffer] holding its region
    and its partition, while none of the other thirteen arrays holds a
    region. *)
Theorem lifecycle_leaves_pullBuffer_allocated geom w0 :
  exists w3,
    exec_from (allocate geom;; partition (size geom);; deallocate) w0 = Some w3
    /\ arrays w3 pullBuffer
       = {| cells := Some (replicate (Z.to_nat (getGlobalXYZ geom)) Uninitialized);
            parts := Some (size geom) |}
    /\ forall f, f <> pullBuffer ->
         arrays w3 f = {| cells := None; parts := None |}.
Proof.
  destruct w0 as [arr ld cs nc]. eexists.
  split.
  { unfold exec_from. eval_world. rewrite replicate_handle_fresh. eval_world.
    reflexivity. }
  split; [reflexivity|].
  intros f Hf. destruct f; try reflexivity. done.
Qed.

(** X12: from any state in which [dcAllreduceSum] holds a region of at least
    [nParts] cells, [partition(nParts)] returns; it creates one collective
    with a fresh id, overwrites the first [nParts] cells of [dcAllreduceSum]
    with its handle and keeps the others, leaves the cells of every other
    array as they were, and records [nParts] parts for all fourteen. *)
Theorem partition_overwrites_first_cells nParts w c :
  cells (arrays w dcAllreduceSum) = Some c ->
  (Z.to_nat nParts <= length c)%nat ->
  exists w' dc,
    partition nParts w = Some ((), w')
    /\ dc = {| dcId := nextCollective w; nArrivals := nParts;
               redop := INT_REDUCE_SUM_TID |}
    /\ nextCollective w' = S (nextCollective w)
    /\ cells (arrays w' dcAllreduceSum)
       = Some (replicate (Z.to_nat nParts) (Handle dc) ++ drop (Z.to_nat nParts) c)
    /\ (forall f, f <> dcAllreduceSum ->
          cells (arrays w' f) = cells (arrays w f))
    /\ (forall f, parts (arrays w' f) = Some nParts)
    /\ launchDomain w' = Some nParts.
Proof.
  intros Hc Hlen. destruct w as [arr ld cs nc]. simpl in Hc.
  destruct (arr dcAllreduceSum) as [c0 p0] eqn:E. simpl in Hc. subst c0.
  do 2 eexists.
  split.
  { eval_world. rewrite E. eval_world.
    rewrite replicate_handle_spec by lia. eval_world. reflexivity. }
  split; [reflexivity|].
  split; [reflexivity|].
  split; [reflexivity|].
  split.
  { intros f Hf. destruct f; try reflexivity. done. }
  split; [intros f; destruct f; reflexivity|].
  reflexivity.
Qed.

Lemma partition_overwrites_first_cells_witness :
  exists w1 w' dc,
    allocate four_ranks new_world = Some ((), w1)
    /\ partition 2 w1 = Some ((), w')
    /\ cells (arrays w' dcAllreduceSum)
       = Some [Handle dc; Handle dc; Uninitialized; Uninitialized].
Proof.
  destruct (allocate four_ranks new_world) as [[[] w1]|] eqn:Ha;
    [|vm_compute in Ha; discriminate].
  destruct (partition_overwrites_first_cells 2 w1 (replicate 4 Uninitialized))
    as (w' & dc & Hp & _ & _ & Hcells & _).
  - vm_compute in Ha. injection Ha as <-. reflexivity.
  - vm_compute. lia.
  - exists w1, w', dc. split; [reflexivity|]. split; [exact Hp|]. exact Hcells.
Defined.

End LifecycleFacts.

(** ** The task-side matrix *)

Module TaskFacts.
Import Task.

Lemma unpack_into_Some regions m cid A h r :
  regions !! cid = Some r ->
  exists a,
    h !! a = None
    /\ unpack_into regions m (cid, A) h
       = Some ((S cid, set_member m (Some a) A), <[a := Wrapper r]> h).
Proof.
  intros Hr. exists (fresh (dom h)). split.
  - apply not_elem_of_dom, is_fresh.
  - unfold unpack_into, new_object. by rewrite Hr.
Qed.

Lemma unpack_into_None regions m cid A h :
  regions !! cid = None -> unpack_into regions m (cid, A) h = None.
Proof. intros Hr. unfold unpack_into. by rewrite Hr. Qed.

(** One statement of [mUnpack]. *)
Ltac unpack_step :=
  match goal with
  | |- context [unpack_into ?rs ?m (?cid, ?A) ?h] =>
      let r := fresh "r" in
      let E := fresh "E" in
      let a := fresh "a" in
      let Hf := fresh "Hf" in
      let Hu := fresh "Hu" in
      destruct (rs !! cid) as [r|] eqn:E;
      [ destruct (unpack_into_Some rs m cid A h r E) as (a & Hf & Hu);
        rewrite Hu; clear Hu; cbv beta iota
      | rewrite (unpack_into_None rs m cid A h E); cbv beta iota ]
  end.

(** [mUnpack] reads thirteen regions from [baseRID] on. *)
Lemma mUnpack_short regions baseRID iFlags A h :
  (length regions < baseRID + 13)%nat ->
  mUnpack regions baseRID iFlags A h = None.
Proof.
  intros Hlen. unfold mUnpack. unfold mbind, T_bind.
  do 13 (unpack_step; [|reflexivity]).
  apply lookup_lt_Some in E11. lia.
Qed.

(** The wrappers [mUnpack] creates: fresh, distinct addresses, one per
    member, around the regions from [baseRID] on. *)
Lemma mUnpack_spec regions baseRID iFlags A0 h :
  (baseRID + 13 <= length regions)%nat ->
  exists (addr : Member -> nat) (region : Member -> PhysicalRegion) A h',
    mUnpack regions baseRID iFlags A0 h = Some (A, h')
    /\ (forall m, ptr A m = Some (addr m))
    /\ (forall m, h !! addr m = None)
    /\ (forall m m', addr m = addr m' -> m = m')
    /\ (forall k m, unpack_order !! k = Some m ->
          regions !! (baseRID + k)%nat = Some (region m))
    /\ h' = foldl (fun h m => <[addr m := Wrapper (region m)]> h) h unpack_order
    /\ elementsToSend A = elementsToSend A0
    /\ mNRegionEntries A = 13%nat
    /\ mUnpackFlags A = iFlags.
Proof.
  intros Hlen. unfold mUnpack. unfold mbind, T_bind.
  do 13 (unpack_step;
         [|apply lookup_ge_None in E || apply lookup_ge_None in E0
           || apply lookup_ge_None in E1 || apply lookup_ge_None in E2
           || apply lookup_ge_None in E3 || apply lookup_ge_None in E4
           || apply lookup_ge_None in E5 || apply lookup_ge_None in E6
           || apply lookup_ge_None in E7 || apply lookup_ge_None in E8
           || apply lookup_ge_None in E9 || apply lookup_ge_None in E10
           || apply lookup_ge_None in E11; lia]).
  repeat match goal with
         | H : <[_ := _]> _ !! _ = None |- _ =>
             apply lookup_insert_None in H as [H ?]
         end.
  exists (fun m => match m with
                   | geom => a | sclrs => a0 | nonzerosInRow => a1
                   | mtxIndG => a2 | mtxIndL => a3 | matrixValues => a4
                   | matrixDiagonal => a5 | localToGlobalMap => a6
                   | dcAllreduceSum => a7 | neighbors => a8 | sendLength => a9
                   | synchronizers => a10 | pullBEs => a11
                   end).
  exists (fun m => match m with
                   | geom => r | sclrs => r0 | nonzerosInRow => r1
                   | mtxIndG => r2 | mtxIndL => r3 | matrixValues => r4
                   | matrixDiagonal => r5 | localToGlobalMap => r6
                   | dcAllreduceSum => r7 | neighbors => r8 | sendLength => r9
                   | synchronizers => r10 | pullBEs => r11
                   end).
  do 2 eexists. split; [reflexivity|].
  split; [intros []; reflexivity|].
  split; [intros []; done|].
  split; [intros [] []; intros; first [reflexivity | congruence]|].
  split.
  { intros k m Hk.
    do 13 (destruct k as [|k];
           [injection Hk as <-; rewrite ?Nat.add_0_r;
            repeat rewrite Nat.add_succ_r; rewrite ?Nat.add_0_r; assumption|]).
    discriminate. }
  split; [reflexivity|].
  split; [reflexivity|].
  split; [|reflexivity].
  clear. simpl. lia.
Qed.

Lemma assert_data_heap A m h u h' :
  assert_data A m h = Some (u, h') -> h' = h.
Proof.
  unfold assert_data. intros H.
  destruct (ptr A m) as [a|]; [|done].
  destruct (h !! a) as [[r|n]|]; [|done..].
  destruct (data r); [|done]. by injection H as _ <-.
Qed.

(** [mVerifyUnpack] only reads. *)
Lemma mVerifyUnpack_heap A h u h' :
  mVerifyUnpack A h = Some (u, h') -> h' = h.
Proof.
  unfold mVerifyUnpack. unfold mbind, T_bind. intros H.
  repeat match type of H with
         | context [assert_data A ?m h] =>
             let E := fresh "E" in
             destruct (assert_data A m h) as [[[] ?h0]|] eqn:E; [|done];
             apply assert_data_heap in E; subst h0
         end.
  by injection H as _ <-.
Qed.

Lemma delete_pointer_live a o (h : Heap) :
  h !! a = Some o -> delete_pointer (Some a) h = Some ((), delete a h).
Proof. intros H. unfold delete_pointer. by rewrite H. Qed.

(** X13: [mUnpack] returns exactly when [regions] has thirteen entries from
    [baseRID] on.  It then sets [mNRegionEntries] to the length of the list
    of [mPopulateRegionList], and the region at [baseRID + k] is wrapped, at
    a fresh address, by the member named after the [k]-th array of that
    list. *)
Theorem mUnpack_follows_region_list regions baseRID iFlags A0 h :
  (is_Some (mUnpack regions baseRID iFlags A0 h)
   <-> (baseRID + length mLogicalItems <= length regions)%nat)
  /\ forall A h',
       mUnpack regions baseRID iFlags A0 h = Some (A, h') ->
       mNRegionEntries A = length mLogicalItems
       /\ mUnpackFlags A = iFlags
       /\ forall k f,
            mLogicalItems !! k = Some f ->
            exists m a r,
              array_of m = f
              /\ ptr A m = Some a
              /\ regions !! (baseRID + k)%nat = Some r
              /\ h !! a = None
              /\ h' !! a = Some (Wrapper r).
Proof.
  change (length mLogicalItems) with 13%nat.
  destruct (decide (baseRID + 13 <= length regions)%nat) as [Hlen|Hlen].
  - destruct (mUnpack_spec regions baseRID iFlags A0 h Hlen)
      as (addr & region & A & h' & HU & Hptr & Hfresh & Hinj & Hreg & Hh' & _ & Hn & Hfl).
    split; [split; [done|by eexists]|].
    intros A' h'' HU'. rewrite HU in HU'. injection HU' as <- <-.
    split; [done|]. split; [done|].
    intros k f Hk.
    assert (forall m, unpack_order !! k = Some m -> array_of m = f ->
              exists m a r, array_of m = f /\ ptr A m = Some a
                /\ regions !! (baseRID + k)%nat = Some r
                /\ h !! a = None /\ h' !! a = Some (Wrapper r)) as Hm.
    { intros m Hm Ha. exists m, (addr m), (region m).
      split; [done|]. split; [done|]. split; [by apply Hreg|]. split; [done|].
      rewrite Hh'. clear Hh' HU.
      do 13 (destruct k as [|k];
             [injection Hm as <-; cbn [foldl unpack_order];
              repeat (rewrite lookup_insert_ne
                        by (let E := fresh in intros E; apply Hinj in E; discriminate));
              apply lookup_insert_eq|]).
      discriminate. }
    do 13 (destruct k as [|k];
           [injection Hk as <-; eapply Hm; reflexivity|]).
    discriminate.
  - rewrite (mUnpack_short regions baseRID iFlags A0 h) by lia.
    split; [split; [intros [? ?]; done|done]|done].
Qed.

(** X14: destroying a matrix right after its construction from regions
    returns, frees twelve of the thirteen wrappers and nothing else: what
    stays of the construction is the wrapper [pullBEs] points to. *)
Theorem destroy_leaves_pullBEs regions baseRID iFlags h A h1 :
  SparseMatrix_from regions baseRID iFlags h = Some (A, h1) ->
  exists a r,
    ptr A pullBEs = Some a
    /\ h !! a = None
    /\ regions !! (baseRID + 12)%nat = Some r
    /\ destroy A h1 = Some ((), <[a := Wrapper r]> h).
Proof.
  unfold SparseMatrix_from. unfold mbind, T_bind. intros H.
  destruct (mUnpack regions baseRID iFlags blank h) as [[A' h']|] eqn:HU; [|done].
  destruct (mVerifyUnpack A' h') as [[[] h'']|] eqn:HV; [|done].
  apply mVerifyUnpack_heap in HV. subst h''.
  unfold mret, T_ret in H. injection H as <- <-.
  destruct (decide (baseRID + 13 <= length regions)%nat) as [Hlen|Hlen];
    [|by rewrite mUnpack_short in HU by lia].
  destruct (mUnpack_spec regions baseRID iFlags blank h Hlen)
    as (addr & region & A & h'' & HU' & Hptr & Hfresh & Hinj & Hreg & Hh' & He & _).
  rewrite HU in HU'. injection HU' as <- <-.
  exists (addr pullBEs), (region pullBEs).
  split; [done|]. split; [done|]. split; [by apply (Hreg 12%nat)|].
  unfold destroy. unfold mbind, T_bind. rewrite !Hptr, He, Hh'.
  clear HU Hh' He Hreg. cbn [foldl unpack_order blank elementsToSend].
  repeat
    (erewrite delete_pointer_live;
     [|repeat (rewrite lookup_insert_ne
                 by (let E := fresh in intros E; apply Hinj in E; discriminate));
       apply lookup_insert_eq];
     repeat (rewrite delete_insert_ne
               by (let E := fresh in intros E; apply Hinj in E; discriminate));
     rewrite delete_insert_id by done).
  reflexivity.
Qed.

Lemma assert_data_wrapped A m (h : Heap) a r :
  ptr A m = Some a -> h !! a = Some (Wrapper r) ->
  assert_data A m h = match data r with Some _ => Some ((), h) | None => None end.
Proof. intros Hp Hh. unfold assert_data. by rewrite Hp, Hh. Qed.

(** X15: the constructor returns exactly when [regions] has thirteen entries
    from [baseRID] on and each of them has data behind it; a region without
    data fails an assertion of [mVerifyUnpack]. *)
Theorem construction_needs_mapped_regions regions baseRID iFlags h :
  is_Some (SparseMatrix_from regions baseRID iFlags h)
  <-> (baseRID + 13 <= length regions)%nat
      /\ Forall (fun r => is_Some (data r)) (take 13 (drop baseRID regions)).
Proof.
  unfold SparseMatrix_from. unfold mbind, T_bind.
  destruct (decide (baseRID + 13 <= length regions)%nat) as [Hlen|Hlen].
  2:{ rewrite mUnpack_short by lia. split; [by intros [? ?]|intros [? _]; lia]. }
  destruct (mUnpack_spec regions baseRID iFlags blank h Hlen)
    as (addr & region & A & h' & HU & Hptr & Hfresh & Hinj & Hreg & Hh' & _).
  rewrite HU.
  assert (take 13 (drop baseRID regions) = region <$> unpack_order) as ->.
  { apply list_eq. intros i. rewrite list_lookup_fmap.
    destruct (decide (i < 13)%nat) as [Hi|Hi].
    - rewrite lookup_take_lt, lookup_drop by done.
      destruct (lookup_lt_is_Some_2 unpack_order i) as [m Hm]; [simpl; lia|].
      by rewrite Hm, (Hreg i m Hm).
    - rewrite lookup_take_ge by lia.
      by rewrite (lookup_ge_None_2 unpack_order i) by (simpl; lia). }
  assert (forall m, h' !! addr m = Some (Wrapper (region m))) as Hw.
  { intros m. rewrite Hh'. clear Hh' HU. cbn [foldl unpack_order].
    destruct m;
      repeat (rewrite lookup_insert_ne
                by (let E := fresh in intros E; apply Hinj in E; discriminate));
      apply lookup_insert_eq. }
  unfold mVerifyUnpack. unfold mbind, T_bind.
  cbn [unpack_order fmap list_fmap]. rewrite !Forall_cons, Forall_nil.
  repeat match goal with
         | |- context [assert_data A ?m h'] =>
             rewrite (assert_data_wrapped A m h' (addr m) (region m) (Hptr m) (Hw m));
             destruct (data (region m)); cbv beta iota
         end;
    (split; [intros [? ?]; try done; repeat split; by eexists
            |intros [_ Hd];
             first [by eexists
                   |destruct_and!; exfalso; eapply is_Some_None; eassumption]]).
Qed.

Lemma destroy_leaves_pullBEs_witness :
  exists A h1 a,
    SparseMatrix_from sample_regions 2 NADA ∅ = Some (A, h1)
    /\ destroy A h1
       = Some ((), {[ a := Wrapper {| view_of := Legion.pullBEs;
                                      data := Some 4096 |} ]}).
Proof.
  destruct (SparseMatrix_from sample_regions 2 NADA ∅) as [[A h1]|] eqn:E;
    [|vm_compute in E; discriminate].
  destruct (destroy_leaves_pullBEs sample_regions 2 NADA ∅ A h1 E)
    as (a & r & _ & _ & Hr & Hd).
  vm_compute in Hr. injection Hr as <-.
  exists A, h1, a. split; [reflexivity|]. exact Hd.
Defined.

End TaskFacts.

(** ** The row maps of the ranks of one run *)

Module DecompositionFacts.
Import Num Hpcg GlobalToLocal Decomposition GlobalToLocalFacts.

(** Inserting entries one after the other is a left-biased union with the
    entries read backwards. *)
Lemma inserts_as_union (l : list (Z * Z)) (m : gmap Z Z) :
  foldl insert_entry m l = list_to_map (reverse l) ∪ m.
Proof.
  revert m. induction l as [|[k v] l IH]; intros m; simpl.
  - by rewrite (left_id_L ∅ (∪)).
  - rewrite IH, reverse_cons, list_to_map_app. unfold insert_entry. simpl.
    rewrite <- (assoc_L (∪)), insert_empty.
    by rewrite <- insert_union_singleton_l.
Qed.

Lemma populate_as_inserts lw gw A :
  globalToLocalMap (PopulateGlobalToLocalMap lw gw A)
  = foldl insert_entry (globalToLocalMap A)
      (row_entry lw gw (geom A) <$> local_points (geom A)).
Proof. rewrite populate_as_fold, foldl_fmap. reflexivity. Qed.

Lemma row_pairs_NoDup g : in_grid g -> NoDup (row_pairs g).*1.
Proof.
  intros Hgrid. pose proof Hgrid as (Hx & Hy & Hz & _).
  unfold row_pairs. rewrite <- list_fmap_compose.
  apply NoDup_fmap_2_strong; [|by apply local_points_NoDup].
  intros [[ix iy] iz] [[ix' iy'] iz'] Hp Hp'. simpl. intros Heq.
  apply elem_of_local_points in Hp as (? & ? & ?).
  apply elem_of_local_points in Hp' as (? & ? & ?).
  destruct (global_row_inj g ix iy iz ix' iy' iz') as (-> & -> & ->); done.
Qed.

Lemma elem_of_row_pairs g grow lrow :
  (grow, lrow) ∈ row_pairs g
  <-> exists ix iy iz,
        (0 <= ix < nx g /\ 0 <= iy < ny g /\ 0 <= iz < nz g)
        /\ grow = global_row g ix iy iz /\ lrow = local_row g ix iy iz.
Proof.
  unfold row_pairs. rewrite list_elem_of_fmap. split.
  - intros ([[ix iy] iz] & Heq & Hp). apply elem_of_local_points in Hp.
    injection Heq as -> ->. by exists ix, iy, iz.
  - intros (ix & iy & iz & Hp & -> & ->). exists (ix, iy, iz).
    split; [done|]. by apply elem_of_local_points.
Qed.

(** The entries of a map built from scratch are the rows of the local
    points. *)
Lemma fresh_map_lookup lw gw g grow lrow :
  in_grid g -> representable lw gw g ->
  fresh_map lw gw g !! grow = Some lrow
  <-> exists ix iy iz,
        (0 <= ix < nx g /\ 0 <= iy < ny g /\ 0 <= iz < nz g)
        /\ grow = global_row g ix iy iz /\ lrow = local_row g ix iy iz.
Proof.
  intros Hgrid Hrep. unfold fresh_map.
  rewrite (populate_entries lw gw {| geom := g; globalToLocalMap := ∅ |} Hgrid Hrep).
  simpl.
  fold (row_pairs g). rewrite <- elem_of_row_pairs. split.
  - intros H. apply inserts_inv in H as [H|H]; [done|].
    by rewrite lookup_empty in H.
  - intros H. apply inserts_lookup; [by apply row_pairs_NoDup|done].
Qed.

Lemma global_row_bounds g ix iy iz :
  in_grid g ->
  0 <= ix < nx g -> 0 <= iy < ny g -> 0 <= iz < nz g ->
  0 <= ipx g * nx g + ix < nx g * npx g
  /\ 0 <= ipy g * ny g + iy < ny g * npy g
  /\ 0 <= ipz g * nz g + iz < nz g * npz g
  /\ 0 <= global_row g ix iy iz < global_rows g.
Proof.
  intros (Hx & Hy & Hz & Hpx & Hpy & Hpz) Hix Hiy Hiz.
  unfold global_row, global_rows.
  set (X := nx g) in *. set (Y := ny g) in *. set (Zn := nz g) in *.
  set (PX := npx g) in *. set (PY := npy g) in *. set (PZ := npz g) in *.
  set (IX := ipx g) in *. set (IY := ipy g) in *. set (IZ := ipz g) in *.
  assert (0 <= IX * X + ix < X * PX) as Hgx by nia.
  assert (0 <= IY * Y + iy < Y * PY) as Hgy by nia.
  assert (0 <= IZ * Zn + iz < Zn * PZ) as Hgz by nia.
  split; [done|]. split; [done|]. split; [done|].
  assert (1 <= X * PX) as Hnx by nia.
  assert (1 <= Y * PY) as Hny by nia.
  assert (1 <= Zn * PZ) as Hnz by nia.
  split; [nia|].
  assert ((IY * Y + iy) * (X * PX) + (IX * X + ix) < (X * PX) * (Y * PY)) by nia.
  assert ((IZ * Zn + iz) * ((X * PX) * (Y * PY)) + (X * PX) * (Y * PY)
          <= (Zn * PZ) * ((X * PX) * (Y * PY))) by nia.
  nia.
Qed.

Lemma lex_lt a r a' r' B :
  0 <= r < B -> 0 <= r' < B ->
  a * B + r < a' * B + r' <-> a < a' \/ (a = a' /\ r < r').
Proof. intros Hr Hr'. split; [intros H|intros [H|[-> H]]]; nia. Qed.

Lemma pos_factors x y z px py pz :
  0 <= x -> 0 <= y -> 0 <= z -> 0 < px -> 0 < py -> 0 < pz ->
  0 < (x * px) * (y * py) * (z * pz) -> 0 < x /\ 0 < y /\ 0 < z.
Proof.
  intros Hx Hy Hz Hpx Hpy Hpz H.
  assert (x <> 0) by (intros ->; lia).
  assert (y <> 0) by (intros ->; lia).
  assert (z <> 0) by (intros ->; lia).
  lia.
Qed.

Lemma lex_eq a r a' r' B :
  0 <= r < B -> 0 <= r' < B ->
  a * B + r = a' * B + r' <-> a = a' /\ r = r'.
Proof.
  intros Hr Hr'. split; [by apply radix_unique|]. by intros [-> ->].
Qed.

(** X16: calling [PopulateGlobalToLocalMap] a second time changes nothing,
    whatever the geometry and the widths of the integer types. *)
Theorem populate_idempotent lw gw A :
  PopulateGlobalToLocalMap lw gw (PopulateGlobalToLocalMap lw gw A)
  = PopulateGlobalToLocalMap lw gw A.
Proof.
  assert (geom (PopulateGlobalToLocalMap lw gw A) = geom A) as Hg by reflexivity.
  assert (forall B C : SparseMatrix,
            geom B = geom C -> globalToLocalMap B = globalToLocalMap C -> B = C)
    as Hext by (intros [] []; simpl; congruence).
  apply Hext; [reflexivity|].
  rewrite (populate_as_inserts lw gw (PopulateGlobalToLocalMap lw gw A)), Hg.
  rewrite (populate_as_inserts lw gw A), !inserts_as_union.
  by rewrite (assoc_L (∪)), (idemp_L (∪)).
Qed.

(** X17: on a map that already has entries, [PopulateGlobalToLocalMap]
    overwrites the entries under the global rows of the local points and keeps
    every entry under another key. *)
Theorem populate_overwrites_and_keeps lw gw A :
  let g := geom A in
  let m' := globalToLocalMap (PopulateGlobalToLocalMap lw gw A) in
  in_grid g ->
  representable lw gw g ->
  (forall ix iy iz,
     0 <= ix < nx g -> 0 <= iy < ny g -> 0 <= iz < nz g ->
     m' !! global_row g ix iy iz = Some (local_row g ix iy iz))
  /\ (forall k,
        (forall ix iy iz,
           0 <= ix < nx g -> 0 <= iy < ny g -> 0 <= iz < nz g ->
           k <> global_row g ix iy iz) ->
        m' !! k = globalToLocalMap A !! k).
Proof.
  intros g m' Hgrid Hrep. subst m'.
  rewrite (populate_entries lw gw A Hgrid Hrep). fold g. fold (row_pairs g).
  split.
  - intros ix iy iz Hix Hiy Hiz.
    apply inserts_lookup; [by apply row_pairs_NoDup|].
    apply elem_of_row_pairs. by exists ix, iy, iz.
  - intros k Hk. apply inserts_lookup_other.
    intros Hin. apply list_elem_of_fmap in Hin as ([grow lrow] & -> & Hin).
    apply elem_of_row_pairs in Hin as (ix & iy & iz & (Hix & Hiy & Hiz) & -> & _).
    by apply (Hk ix iy iz).
Qed.

Lemma populate_overwrites_and_keeps_witness :
  globalToLocalMap stale_matrix !! 157 = Some 3
  /\ globalToLocalMap (PopulateGlobalToLocalMap 32 64 stale_matrix)
       !! global_row (geom stale_matrix) 1 1 1 = Some 17.
Proof.
  assert (in_grid (geom stale_matrix)) as Hgrid by (vm_compute; intuition discriminate).
  assert (representable 32 64 (geom stale_matrix)) as Hrep by (vm_compute; done).
  split; [reflexivity|].
  apply (proj1 (populate_overwrites_and_keeps 32 64 stale_matrix Hgrid Hrep) 1 1 1);
    vm_compute; intuition discriminate.
Defined.

(** X18: the map built from scratch is a bijection onto the local rows: every
    local row below [nx*ny*nz] is the image of exactly one global row, and no
    other value occurs. *)
Theorem populate_is_onto_local_rows lw gw g :
  in_grid g ->
  representable lw gw g ->
  (forall lrow, 0 <= lrow < nx g * ny g * nz g ->
     exists grow,
       fresh_map lw gw g !! grow = Some lrow
       /\ forall grow', fresh_map lw gw g !! grow' = Some lrow -> grow' = grow)
  /\ (forall grow lrow,
        fresh_map lw gw g !! grow = Some lrow -> 0 <= lrow < nx g * ny g * nz g).
Proof.
  intros Hgrid Hrep. pose proof Hgrid as (Hx & Hy & Hz & _).
  pose proof (local_rows_count_up g Hx Hy Hz) as Hrows.
  assert (forall ix iy iz,
            0 <= ix < nx g /\ 0 <= iy < ny g /\ 0 <= iz < nz g ->
            local_row g ix iy iz ∈ seqZ 0 (nx g * ny g * nz g)) as Hin.
  { intros ix iy iz Hp. rewrite <- Hrows. apply list_elem_of_fmap.
    exists (ix, iy, iz). split; [done|]. by apply elem_of_local_points. }
  assert (forall ix iy iz ix' iy' iz',
            0 <= ix < nx g /\ 0 <= iy < ny g /\ 0 <= iz < nz g ->
            0 <= ix' < nx g /\ 0 <= iy' < ny g /\ 0 <= iz' < nz g ->
            local_row g ix iy iz = local_row g ix' iy' iz' ->
            ix = ix' /\ iy = iy' /\ iz = iz') as Hinj.
  { intros ix iy iz ix' iy' iz' Hp Hp'. unfold local_row. intros H.
    destruct (radix_unique (iz * ny g + iy) ix (iz' * ny g + iy') ix' (nx g))
      as [Ha Hr]; [lia|lia|lia|].
    destruct (radix_unique iz iy iz' iy' (ny g)) as [Ha' Hr']; [lia|lia|lia|].
    done. }
  split.
  - intros lrow Hl.
    assert (lrow ∈ seqZ 0 (nx g * ny g * nz g)) as Hl' by (apply elem_of_seqZ; lia).
    rewrite <- Hrows in Hl'.
    apply list_elem_of_fmap in Hl' as ([[ix iy] iz] & -> & Hp). simpl.
    apply elem_of_local_points in Hp.
    exists (global_row g ix iy iz). split.
    + apply fresh_map_lookup; [done..|]. by exists ix, iy, iz.
    + intros grow' H. apply fresh_map_lookup in H; [|done..].
      destruct H as (ix' & iy' & iz' & Hp' & -> & Heq).
      by destruct (Hinj ix iy iz ix' iy' iz' Hp Hp' Heq) as (-> & -> & ->).
  - intros grow lrow H. apply fresh_map_lookup in H; [|done..].
    destruct H as (ix & iy & iz & Hp & _ & ->).
    specialize (Hin ix iy iz Hp). apply elem_of_seqZ in Hin. lia.
Qed.

Lemma populate_is_onto_local_rows_witness :
  exists grow, fresh_map 32 64 (geom sample_matrix) !! grow = Some 23.
Proof.
  assert (in_grid (geom sample_matrix)) as Hgrid by (vm_compute; intuition discriminate).
  assert (representable 32 64 (geom sample_matrix)) as Hrep by (vm_compute; done).
  destruct (proj1 (populate_is_onto_local_rows 32 64 (geom sample_matrix) Hgrid Hrep) 23)
    as (grow & H & _); [vm_compute; intuition discriminate|].
  by exists grow.
Defined.

(** X19: the map built from scratch preserves the order of the rows: of two
    global rows of a rank, the smaller one has the smaller local row. *)
Theorem populate_preserves_row_order lw gw g grow1 lrow1 grow2 lrow2 :
  in_grid g ->
  representable lw gw g ->
  fresh_map lw gw g !! grow1 = Some lrow1 ->
  fresh_map lw gw g !! grow2 = Some lrow2 ->
  grow1 < grow2 <-> lrow1 < lrow2.
Proof.
  intros Hgrid Hrep H1 H2.
  apply fresh_map_lookup in H1; [|done..]. apply fresh_map_lookup in H2; [|done..].
  destruct H1 as (ix & iy & iz & (Hix & Hiy & Hiz) & -> & ->).
  destruct H2 as (ix' & iy' & iz' & (Hix' & Hiy' & Hiz') & -> & ->).
  destruct (global_row_bounds g ix iy iz Hgrid Hix Hiy Hiz) as (Hgx & Hgy & _).
  destruct (global_row_bounds g ix' iy' iz' Hgrid Hix' Hiy' Hiz') as (Hgx' & Hgy' & _).
  transitivity (iz < iz' \/ (iz = iz' /\ (iy < iy' \/ (iy = iy' /\ ix < ix')))).
  - unfold global_row.
    replace ((ipz g * nz g + iz) * (nx g * npx g) * (ny g * npy g)
             + (ipy g * ny g + iy) * (nx g * npx g) + (ipx g * nx g + ix))
      with (((ipz g * nz g + iz) * (ny g * npy g) + (ipy g * ny g + iy))
            * (nx g * npx g) + (ipx g * nx g + ix)) by ring.
    replace ((ipz g * nz g + iz') * (nx g * npx g) * (ny g * npy g)
             + (ipy g * ny g + iy') * (nx g * npx g) + (ipx g * nx g + ix'))
      with (((ipz g * nz g + iz') * (ny g * npy g) + (ipy g * ny g + iy'))
            * (nx g * npx g) + (ipx g * nx g + ix')) by ring.
    rewrite (lex_lt _ _ _ _ (nx g * npx g) Hgx Hgx').
    rewrite (lex_lt _ _ _ _ (ny g * npy g) Hgy Hgy').
    rewrite (lex_eq _ _ _ _ (ny g * npy g) Hgy Hgy').
    lia.
  - unfold local_row.
    replace (iz * nx g * ny g + iy * nx g + ix)
      with ((iz * ny g + iy) * nx g + ix) by ring.
    replace (iz' * nx g * ny g + iy' * nx g + ix')
      with ((iz' * ny g + iy') * nx g + ix') by ring.
    rewrite (lex_lt _ _ _ _ (nx g) Hix Hix').
    rewrite (lex_lt _ _ _ _ (ny g) Hiy Hiy').
    rewrite (lex_eq _ _ _ _ (ny g) Hiy Hiy').
    lia.
Qed.

Lemma populate_preserves_row_order_witness :
  global_row (geom sample_matrix) 3 0 0 < global_row (geom sample_matrix) 0 1 0
  <-> 3 < 4.
Proof.
  assert (in_grid (geom sample_matrix)) as Hgrid by (vm_compute; intuition discriminate).
  assert (representable 32 64 (geom sample_matrix)) as Hrep by (vm_compute; done).
  apply (populate_preserves_row_order 32 64 (geom sample_matrix) _ 3 _ 4 Hgrid Hrep);
    vm_compute; reflexivity.
Defined.

(** X20: two ranks of one process grid that hold the same global row have the
    same coordinates: the rows of different ranks do not overlap. *)
Theorem ranks_hold_disjoint_rows lw gw g g' row :
  same_grid g g' ->
  in_grid g -> in_grid g' ->
  representable lw gw g ->
  owns lw gw g row -> owns lw gw g' row ->
  ipx g = ipx g' /\ ipy g = ipy g' /\ ipz g = ipz g'.
Proof.
  intros (Ex & Ey & Ez & Epx & Epy & Epz) Hgrid Hgrid' Hrep [l H] [l' H'].
  assert (representable lw gw g') as Hrep'.
  { unfold representable in *. by rewrite <- Ex, <- Ey, <- Ez, <- Epx, <- Epy, <- Epz. }
  apply fresh_map_lookup in H; [|done..]. apply fresh_map_lookup in H'; [|done..].
  destruct H as (ix & iy & iz & (Hix & Hiy & Hiz) & -> & _).
  destruct H' as (ix' & iy' & iz' & (Hix' & Hiy' & Hiz') & Heq & _).
  destruct (global_row_bounds g ix iy iz Hgrid Hix Hiy Hiz) as (Hgx & Hgy & _).
  destruct (global_row_bounds g' ix' iy' iz' Hgrid' Hix' Hiy' Hiz') as (Hgx' & Hgy' & _).
  unfold global_row in Heq. rewrite <- Ex, <- Ey, <- Ez, <- Epx, <- Epy in *.
  destruct (radix_unique
              ((ipz g * nz g + iz) * (ny g * npy g) + (ipy g * ny g + iy))
              (ipx g * nx g + ix)
              ((ipz g' * nz g + iz') * (ny g * npy g) + (ipy g' * ny g + iy'))
              (ipx g' * nx g + ix') (nx g * npx g) Hgx Hgx') as [Ha Hr]; [lia|].
  destruct (radix_unique _ _ _ _ _ Hgy Hgy' Ha) as [Ha' Hr'].
  destruct (radix_unique _ _ _ _ _ Hix Hix' Hr) as [? _].
  destruct (radix_unique _ _ _ _ _ Hiy Hiy' Hr') as [? _].
  destruct (radix_unique _ _ _ _ _ Hiz Hiz' Ha') as [? _].
  done.
Qed.

Lemma ranks_hold_disjoint_rows_witness :
  ipx (geom sample_matrix) = 1 /\ ipy (geom sample_matrix) = 0
  /\ ipz (geom sample_matrix) = 1.
Proof.
  apply (ranks_hold_disjoint_rows 32 64 (geom sample_matrix)
           (at_coordinates (geom sample_matrix) 1 0 1) 157).
  - vm_compute; intuition reflexivity.
  - vm_compute; intuition discriminate.
  - vm_compute; intuition discriminate.
  - vm_compute; done.
  - vm_compute; eauto.
  - vm_compute; eauto.
Defined.

(** X21: the global rows some rank of the process grid holds are exactly the
    rows [0 .. global_rows - 1] of the global problem. *)
Theorem ranks_cover_global_rows lw gw g row :
  in_grid g ->
  representable lw gw g ->
  0 <= row < global_rows g
  <-> exists cx cy cz,
        (0 <= cx < npx g /\ 0 <= cy < npy g /\ 0 <= cz < npz g)
        /\ owns lw gw (at_coordinates g cx cy cz) row.
Proof.
  intros Hgrid Hrep. pose proof Hgrid as (Hx & Hy & Hz & Hpx & Hpy & Hpz).
  assert (forall cx cy cz,
            0 <= cx < npx g /\ 0 <= cy < npy g /\ 0 <= cz < npz g ->
            in_grid (at_coordinates g cx cy cz)) as Hgrid'.
  { intros cx cy cz Hc. unfold in_grid. simpl. lia. }
  split.
  - intros Hrow. unfold global_rows in Hrow.
    destruct (pos_factors (nx g) (ny g) (nz g) (npx g) (npy g) (npz g))
      as (Hnx & Hny & Hnz); [lia..|].
    set (GX := nx g * npx g) in *. set (GY := ny g * npy g) in *.
    assert (0 < GX) as HGX by (unfold GX; nia).
    assert (0 < GY) as HGY by (unfold GY; nia).
    set (gix := row mod GX). set (t := row / GX).
    set (giy := t mod GY). set (giz := t / GY).
    assert (row = t * GX + gix) as Erow.
    { unfold t, gix. rewrite (Z.div_mod row GX) at 1 by lia. ring. }
    assert (t = giz * GY + giy) as Et.
    { unfold giz, giy. rewrite (Z.div_mod t GY) at 1 by lia. ring. }
    assert (0 <= gix < GX) as Hgix by (apply Z.mod_pos_bound; lia).
    assert (0 <= giy < GY) as Hgiy by (apply Z.mod_pos_bound; lia).
    assert (0 <= t) as Ht by (apply Z.div_pos; lia).
    assert (0 <= giz) as Hgiz0 by (apply Z.div_pos; lia).
    assert (t < GY * (nz g * npz g)) as Ht'
      by (apply Z.div_lt_upper_bound; lia).
    assert (giz < nz g * npz g) as Hgiz
      by (apply Z.div_lt_upper_bound; lia).
    exists (gix / nx g), (giy / ny g), (giz / nz g).
    assert (0 <= gix / nx g < npx g) as Hcx.
    { split; [apply Z.div_pos; lia|]. apply Z.div_lt_upper_bound; lia. }
    assert (0 <= giy / ny g < npy g) as Hcy.
    { split; [apply Z.div_pos; lia|]. apply Z.div_lt_upper_bound; lia. }
    assert (0 <= giz / nz g < npz g) as Hcz.
    { split; [apply Z.div_pos; lia|]. apply Z.div_lt_upper_bound; lia. }
    split; [done|].
    exists (local_row g (gix mod nx g) (giy mod ny g) (giz mod nz g)).
    apply fresh_map_lookup; [by apply Hgrid'|done|].
    exists (gix mod nx g), (giy mod ny g), (giz mod nz g). simpl.
    split; [|split; [|reflexivity]].
    + split; [|split]; apply Z.mod_pos_bound; lia.
    + unfold global_row. simpl. fold GX GY.
      rewrite Erow at 1. rewrite Et.
      rewrite (Z.div_mod gix (nx g)) at 1 by lia.
      rewrite (Z.div_mod giy (ny g)) at 1 by lia.
      rewrite (Z.div_mod giz (nz g)) at 1 by lia.
      ring.
  - intros (cx & cy & cz & Hc & [l H]).
    apply fresh_map_lookup in H; [|by apply Hgrid'|done].
    destruct H as (ix & iy & iz & (Hix & Hiy & Hiz) & -> & _).
    by destruct (global_row_bounds (at_coordinates g cx cy cz) ix iy iz
                   (Hgrid' cx cy cz Hc) Hix Hiy Hiz) as (_ & _ & _ & H).
Qed.

Lemma ranks_cover_global_rows_witness :
  exists cx cy cz,
    (0 <= cx < 2 /\ 0 <= cy < 2 /\ 0 <= cz < 2)
    /\ owns 32 64 (at_coordinates (geom sample_matrix) cx cy cz) 100.
Proof.
  assert (in_grid (geom sample_matrix)) as Hgrid by (vm_compute; intuition discriminate).
  assert (representable 32 64 (geom sample_matrix)) as Hrep by (vm_compute; done).
  apply (proj1 (ranks_cover_global_rows 32 64 (geom sample_matrix) 100 Hgrid Hrep)).
  vm_compute; intuition discriminate.
Defined.

(** X23: a rank without points, one of [nx], [ny], [nz] being zero or
    negative, leaves the matrix as it is, whatever the widths of the integer
    types. *)
Theorem populate_without_points lw gw A :
  nx (geom A) <= 0 \/ ny (geom A) <= 0 \/ nz (geom A) <= 0 ->
  PopulateGlobalToLocalMap lw gw A = A.
Proof.
  intros H.
  assert (local_points (geom A) = []) as Hp.
  { apply elem_of_nil_inv. intros [[ix iy] iz] Hin.
    apply elem_of_local_points in Hin. lia. }
  assert (forall B C : SparseMatrix,
            geom B = geom C -> globalToLocalMap B = globalToLocalMap C -> B = C)
    as Hext by (intros [] []; simpl; congruence).
  apply Hext; [reflexivity|].
  by rewrite populate_as_fold, Hp.
Qed.

Lemma populate_without_points_witness :
  PopulateGlobalToLocalMap 32 64 flat_matrix = flat_matrix.
Proof.
  apply populate_without_points. right. left. vm_compute. discriminate.
Defined.

End DecompositionFacts.
